(** * The SVD engine of the matrix-product-state simulator

    A shallow embedding of [src/simulators/matrix_product_state/svd.cpp]
    (namespace [AER]): [diag], [num_of_SV], [reduce_zeros],
    [validate_SVdD_result], [validate_SVD_result], [csvd] and
    [qiskit_csvd_wrapper].

    - A C++ [double] is an element of a carrier [F] with the operations of
      the class [Scalar].  Two carriers are given: [float], the IEEE-754
      binary64 numbers of the kernel, on which every definition runs as
      the compiled code does, and [R], exact real arithmetic, in which the
      statements that quantify over all inputs are proved.
    - [std::vector<double>] is a list; [operator[]] is unchecked in C++,
      and an index outside the storage is a [fault] here.
    - A [cmatrix_t] is a record of its two extents and its rows.
    - Mutation through reference parameters is explicit state passing in
      the [result] monad; [while (true)] takes fuel. *)

From Stdlib Require Import String ZArith Bool Lia Floats Reals Lra Psatz List Permutation.
Import ListNotations.

Set Warnings "-inexact-float".
Set Implicit Arguments.

(** ** Scalars *)

Class Scalar (F : Type) : Type := {
  f0 : F;                       (* 0.0 *)
  f1 : F;                       (* 1.0 *)
  f2 : F;                       (* 2.0 *)
  fadd : F -> F -> F;
  fsub : F -> F -> F;
  fmul : F -> F -> F;
  fdiv : F -> F -> F;
  fopp : F -> F;
  fabs : F -> F;                (* std::abs(double) *)
  fsqrt : F -> F;               (* std::sqrt *)
  fhypot : F -> F -> F;         (* std::abs(complex): the modulus *)
  fltb : F -> F -> bool;        (* a < b *)
  fleb : F -> F -> bool;        (* a <= b *)
  (* the decimal literals of the source *)
  lit_1e2 : F;
  lit_1e30 : F;
  lit_1e_50 : F;
  lit_1e_9 : F;
  lit_1e_10 : F;
  lit_1_5e_34 : F;
  lit_1e_13 : F;
  (* long double: the carrier of the extended-precision rescue *)
  LD : Type;
  ld_of : F -> LD;              (* double -> long double, exact *)
  ld_zero : LD;
  ld_add : LD -> LD -> LD;
  ld_mul : LD -> LD -> LD;
  ld_abs_le : LD -> LD -> bool  (* |a| <= b *)
}.

Declare Scope scalar_scope.
Delimit Scope scalar_scope with sc.
Infix "+" := fadd : scalar_scope.
Infix "-" := fsub : scalar_scope.
Infix "*" := fmul : scalar_scope.
Infix "/" := fdiv : scalar_scope.
Notation "- x" := (fopp x) : scalar_scope.
Infix "<?" := fltb : scalar_scope.
Infix "<=?" := fleb : scalar_scope.

(** [double] as the kernel's binary64 floats.  [long double] is the x87
    extended format (64-bit significand, 15-bit exponent) of x86-64 Linux.
    The modulus is exact on the two axes and [sqrt (x*x + y*y)] elsewhere. *)
Definition ld_prec : Z := 64.
Definition ld_emax : Z := 16384.

Definition float_hypot (x y : float) : float :=
  if PrimFloat.eqb y 0%float then PrimFloat.abs x
  else if PrimFloat.eqb x 0%float then PrimFloat.abs y
  else PrimFloat.sqrt (PrimFloat.add (PrimFloat.mul x x) (PrimFloat.mul y y)).

Definition float_ld_of (x : float) : spec_float :=
  SFmul ld_prec ld_emax (Prim2SF x) (Prim2SF 1%float).

#[export] Instance float_scalar : Scalar float := {|
  f0 := 0%float; f1 := 1%float; f2 := 2%float;
  fadd := PrimFloat.add; fsub := PrimFloat.sub;
  fmul := PrimFloat.mul; fdiv := PrimFloat.div;
  fopp := PrimFloat.opp; fabs := PrimFloat.abs; fsqrt := PrimFloat.sqrt;
  fhypot := float_hypot;
  fltb := PrimFloat.ltb; fleb := PrimFloat.leb;
  lit_1e2 := 1e2%float; lit_1e30 := 1e30%float; lit_1e_50 := 1e-50%float;
  lit_1e_9 := 1e-9%float; lit_1e_10 := 1e-10%float;
  lit_1_5e_34 := 1.5e-34%float; lit_1e_13 := 1e-13%float;
  LD := spec_float;
  ld_of := float_ld_of;
  ld_zero := S754_zero false;
  ld_add := SFadd ld_prec ld_emax;
  ld_mul := SFmul ld_prec ld_emax;
  ld_abs_le := fun a b => SFleb (SFabs a) b
|}.

(** [double] as an exact real number. *)
Definition Rltb (a b : R) : bool := if Rlt_dec a b then true else false.
Definition Rleb (a b : R) : bool := if Rle_dec a b then true else false.

#[export] Instance R_scalar : Scalar R := {|
  f0 := 0%R; f1 := 1%R; f2 := 2%R;
  fadd := Rplus; fsub := Rminus; fmul := Rmult; fdiv := Rdiv;
  fopp := Ropp; fabs := Rabs; fsqrt := sqrt;
  fhypot := fun x y => sqrt (x * x + y * y)%R;
  fltb := Rltb; fleb := Rleb;
  lit_1e2 := 1e2%R; lit_1e30 := 1e30%R; lit_1e_50 := 1e-50%R;
  lit_1e_9 := 1e-9%R; lit_1e_10 := 1e-10%R;
  lit_1_5e_34 := 1.5e-34%R; lit_1e_13 := 1e-13%R;
  LD := R;
  ld_of := fun x => x;
  ld_zero := 0%R;
  ld_add := Rplus;
  ld_mul := Rmult;
  ld_abs_le := fun a b => Rleb (Rabs a) b
|}.

(** ** Faults and the result monad *)

Inductive fault : Type :=
| OutOfRange (container : string) (index : Z)  (* unchecked access outside the storage *)
| ShapeError (operation : string)              (* extents that do not fit *)
| RuntimeError (message : string)              (* throw std::runtime_error(message) *)
| OutOfFuel.                                   (* while (true) still running *)

Inductive result (A : Type) : Type :=
| Ok (a : A)
| Err (e : fault).
Arguments Ok {A} a.
Arguments Err {A} e.

Definition bind {A B} (m : result A) (f : A -> result B) : result B :=
  match m with
  | Ok a => f a
  | Err e => Err e
  end.

Notation "x <- m ;; k" := (bind m (fun x => k))
  (at level 61, m at next level, right associativity).
Notation "' p <- m ;; k" := (bind m (fun x => let 'p := x in k))
  (at level 61, p pattern, m at next level, right associativity).

(** ** Loops *)

(** [count] rounds of [body], the index moving by [step] each round. *)
Fixpoint iterate {St} (count : nat) (i step : Z) (body : Z -> St -> result St)
  (st : St) : result St :=
  match count with
  | O => Ok st
  | S count' => st' <- body i st ;; iterate count' (i + step)%Z step body st'
  end.

(** [for (i = lo; i < hi; i++) body] *)
Definition for_up {St} (lo hi : Z) (body : Z -> St -> result St) (st : St)
  : result St :=
  iterate (Z.to_nat (hi - lo)) lo 1 body st.

(** [for (i = hi; i >= lo; i--) body] *)
Definition for_down {St} (hi lo : Z) (body : Z -> St -> result St) (st : St)
  : result St :=
  iterate (Z.to_nat (hi - lo + 1)) hi (-1) body st.

(** A body that may leave its loop ([break], or [return] through a flag
    kept in the state). *)
Inductive flow (St : Type) : Type :=
| Continue (st : St)
| Break (st : St).
Arguments Continue {St} st.
Arguments Break {St} st.

Fixpoint iterate_break {St} (count : nat) (i step : Z)
  (body : Z -> St -> result (flow St)) (st : St) : result St :=
  match count with
  | O => Ok st
  | S count' =>
      r <- body i st ;;
      match r with
      | Continue st' => iterate_break count' (i + step)%Z step body st'
      | Break st' => Ok st'
      end
  end.

Definition for_up_break {St} (lo hi : Z) (body : Z -> St -> result (flow St))
  (st : St) : result St :=
  iterate_break (Z.to_nat (hi - lo)) lo 1 body st.

Definition for_down_break {St} (hi lo : Z) (body : Z -> St -> result (flow St))
  (st : St) : result St :=
  iterate_break (Z.to_nat (hi - lo + 1)) hi (-1) body st.

(** ** Complex numbers: [complex_t = std::complex<double>] *)

Section Containers.
Context {F : Type} {SF : Scalar F}.
Local Open Scope scalar_scope.

Record complex_t : Type := Cplx { re : F; im : F }.

Definition c0 : complex_t := Cplx f0 f0.                 (* complex_t(0.0, 0.0) *)
Definition c1 : complex_t := Cplx f1 f0.                 (* complex_t(1.0, 0.0) *)
Definition of_real (x : F) : complex_t := Cplx x f0.     (* complex_t(x) *)
Definition cadd (a b : complex_t) : complex_t := Cplx (re a + re b) (im a + im b).
Definition csub (a b : complex_t) : complex_t := Cplx (re a - re b) (im a - im b).
Definition cmul (a b : complex_t) : complex_t :=
  Cplx (re a * re b - im a * im b) (re a * im b + im a * re b).
Definition cscale (a : complex_t) (x : F) : complex_t := Cplx (re a * x) (im a * x).
Definition cdiv_real (a : complex_t) (x : F) : complex_t := Cplx (re a / x) (im a / x).
Definition cneg (a : complex_t) : complex_t := Cplx (- re a) (- im a).
Definition conj (a : complex_t) : complex_t := Cplx (re a) (- im a).
Definition cabs (a : complex_t) : F := fhypot (re a) (im a).        (* std::abs *)
Definition cnorm (a : complex_t) : F := re a * re a + im a * im a.  (* std::norm *)
Definition norm (x : F) : F := x * x.                    (* std::norm(double) *)
Definition fmax (a b : F) : F := if a <? b then b else a. (* std::max *)

(** [pow(base, n)] for an [int] exponent [n >= 0]. *)
Fixpoint fpow (base : F) (n : nat) : F :=
  match n with
  | O => f1
  | S n' => base * fpow base n'
  end.

(** Modelled from the spec: [Linalg::almost_equal(a, b, max_diff)] of
    [framework/linalg/almost_equal.hpp], which is not among the sources.
    The spec reads each use as a comparison of the distance with the
    threshold: [| a - b | <= max_diff]. *)
Definition almost_equal (a b max_diff : F) : bool := fabs (a - b) <=? max_diff.

(** [almost_equal<long double>(large_f, 0.0, zero_threshold)] *)
Definition almost_equal_ld (a : LD) (max_diff : F) : bool :=
  ld_abs_le (ld_add a ld_zero) (ld_of max_diff).

(** ** Vectors: [rvector_t = std::vector<double>] *)

Definition rvector_t : Type := list F.

Fixpoint list_set {A} (l : list A) (n : nat) (x : A) : list A :=
  match l, n with
  | [], _ => []
  | _ :: t, O => x :: t
  | h :: t, S n' => h :: list_set t n' x
  end.

Definition in_range (i : Z) (len : nat) : bool :=
  ((0 <=? i) && (i <? Z.of_nat len))%Z.

(** [v[i]] as an rvalue *)
Definition vget {A} (name : string) (v : list A) (i : Z) : result A :=
  if in_range i (length v) then
    match nth_error v (Z.to_nat i) with
    | Some x => Ok x
    | None => Err (OutOfRange name i)
    end
  else Err (OutOfRange name i).

(** [v[i] = x] *)
Definition vset {A} (name : string) (v : list A) (i : Z) (x : A) : result (list A) :=
  if in_range i (length v) then Ok (list_set v (Z.to_nat i) x)
  else Err (OutOfRange name i).

(** ** Matrices: [cmatrix_t = matrix<complex_t>] *)

Record cmatrix_t : Type := Matrix {
  GetRows : nat;
  GetColumns : nat;
  elems : list (list complex_t)        (* the rows, each a list of GetColumns entries *)
}.

Definition mk_matrix (r c : nat) (f : nat -> nat -> complex_t) : cmatrix_t :=
  Matrix r c (map (fun i => map (fun j => f i j) (seq 0 c)) (seq 0 r)).

(** [cmatrix_t(m, n)]: freshly allocated and zeroed *)
Definition zeros (r c : nat) : cmatrix_t := mk_matrix r c (fun _ _ => c0).

Definition identity (n : nat) : cmatrix_t :=
  mk_matrix n n (fun i j => if Nat.eqb i j then c1 else c0).

Definition entry (M : cmatrix_t) (i j : nat) : complex_t :=
  nth j (nth i (elems M) []) c0.

(** [M(i, j)]: the storage is one column-major array without bounds check;
    an index pair outside the extents is a fault. *)
Definition mget (M : cmatrix_t) (i j : Z) : result complex_t :=
  if in_range i (GetRows M) && in_range j (GetColumns M) then
    match nth_error (elems M) (Z.to_nat i) with
    | Some row =>
        match nth_error row (Z.to_nat j) with
        | Some x => Ok x
        | None => Err (OutOfRange "matrix" (j * Z.of_nat (GetRows M) + i))
        end
    | None => Err (OutOfRange "matrix" (j * Z.of_nat (GetRows M) + i))
    end
  else Err (OutOfRange "matrix" (j * Z.of_nat (GetRows M) + i)).

Definition mset (M : cmatrix_t) (i j : Z) (x : complex_t) : result cmatrix_t :=
  if in_range i (GetRows M) && in_range j (GetColumns M) then
    match nth_error (elems M) (Z.to_nat i) with
    | Some row =>
        if in_range j (length row) then
          Ok (Matrix (GetRows M) (GetColumns M)
                (list_set (elems M) (Z.to_nat i) (list_set row (Z.to_nat j) x)))
        else Err (OutOfRange "matrix" (j * Z.of_nat (GetRows M) + i))
    | None => Err (OutOfRange "matrix" (j * Z.of_nat (GetRows M) + i))
    end
  else Err (OutOfRange "matrix" (j * Z.of_nat (GetRows M) + i)).

(** Modelled from the spec: [AER::Utils::dagger] of [framework/utils.hpp],
    not among the sources: the conjugate transpose, freshly allocated. *)
Definition dagger (M : cmatrix_t) : cmatrix_t :=
  mk_matrix (GetColumns M) (GetRows M) (fun i j => conj (entry M j i)).

(** Modelled from the spec: [matrix::operator*] of [framework/matrix.hpp],
    not among the sources: the matrix product, each entry summed in the
    order of the inner index; extents that do not fit are a shape error. *)
Definition dot (M N : cmatrix_t) (i j : nat) : complex_t :=
  fold_left (fun acc k => cadd acc (cmul (entry M i k) (entry N k j)))
    (seq 0 (GetColumns M)) c0.

Definition mat_mul (M N : cmatrix_t) : result cmatrix_t :=
  if Nat.eqb (GetColumns M) (GetRows N)
  then Ok (mk_matrix (GetRows M) (GetColumns N) (dot M N))
  else Err (ShapeError "operator*").

(** Modelled from the spec: [matrix::operator*] by a [double] of
    [framework/matrix.hpp], not among the sources: [copied_A * mul_factor]
    of line 620, every entry times the double. *)
Definition mat_scale (M : cmatrix_t) (x : F) : cmatrix_t :=
  Matrix (GetRows M) (GetColumns M) (map (map (fun a => cscale a x)) (elems M)).

(** Modelled from the spec: [matrix::resize(r, c)] of [framework/matrix.hpp],
    not among the sources: it drops the trailing rows and columns and never
    grows; growing an extent is a shape error. *)
Definition resize (M : cmatrix_t) (r c : nat) : result cmatrix_t :=
  if Nat.leb r (GetRows M) && Nat.leb c (GetColumns M)
  then Ok (Matrix r c (map (firstn c) (firstn r (elems M))))
  else Err (ShapeError "resize").

(** A matrix whose storage has the extents it declares. *)
Definition well_formed (M : cmatrix_t) : Prop :=
  length (elems M) = GetRows M /\
  Forall (fun row => length row = GetColumns M) (elems M).

End Containers.

Arguments complex_t F : clear implicits.
Arguments cmatrix_t F : clear implicits.
Arguments rvector_t F : clear implicits.

(** ** The functions of svd.cpp *)

Section Svd.
Context {F : Type} {SF : Scalar F}.
Local Open Scope scalar_scope.

Local Abbreviation complex := (complex_t F).
Local Abbreviation cmatrix := (cmatrix_t F).
Local Abbreviation rvector := (rvector_t F).

(** The constants of lines 63-67 and of [csvd] (line 214). *)
Definition mul_factor : F := lit_1e2.
Definition tiny_factor : LD := ld_of lit_1e30.
Definition zero_threshold : F := lit_1e_50.
Definition THRESHOLD : F := lit_1e_9.
Definition NUM_SVD_TRIES : nat := 15.
Definition eta : F := lit_1e_10.
Definition tol : F := lit_1_5e_34.

(** [diag] (lines 71-79).  Line 75, [Res(i, j) = (i == j ? complex_t(S[i]) : 0)]:
    [S[i]] is read on the diagonal only. *)
Definition diag_round (S : rvector) (i j : Z) (Res : cmatrix) : result cmatrix :=
  x <- (if (i =? j)%Z
        then s <- vget "S" S i ;; Ok (of_real s)
        else Ok c0) ;;
  mset Res i j x.

Definition diag (S : rvector) (m n : nat) : result cmatrix :=
  for_up 0 (Z.of_nat m) (fun i Res =>
    for_up 0 (Z.of_nat n) (diag_round S i) Res) (zeros m n).

(** [num_of_SV] (lines 114-121) *)
Definition num_of_SV (S : rvector) (threshold : F) : nat :=
  fold_left (fun sum s => if threshold <? norm s then Datatypes.S sum else sum) S O.

(** [reduce_zeros], lines 136-144: the sweep over the tail.  [i] is an
    [int_t] that starts at [new_SV_num - 1]; the state is
    [(sum_squares, new_SV_num)]. *)
Definition sweep_round (S : rvector) (truncation_threshold : F) (i : Z)
  (st : F * nat) : result (flow (F * nat)) :=
  let '(sum_squares, new_SV_num) := st in
  s <- vget "S" S i ;;
  if sum_squares + norm s <? truncation_threshold
  then Ok (Continue (sum_squares + norm s, new_SV_num))
  else Ok (Break (sum_squares, Z.to_nat (i + 1))).

Definition tail_sweep (S : rvector) (truncation_threshold : F) (new_SV_num : nat)
  : result (F * nat) :=
  for_down_break (Z.of_nat new_SV_num - 1) 1 (sweep_round S truncation_threshold)
    (f0, new_SV_num).

(** [S.resize(n)] of [std::vector] *)
Definition vresize (S : rvector) (n : nat) : rvector :=
  firstn n S ++ repeat f0 (n - length S).

(** lines 156-162.  [S.resize] to a smaller size leaves the storage of the
    vector in place and [operator[]] is unchecked, so these reads, which
    come after the resize of line 146, find the entries [S] held before
    it: [storage] is [S] as it was on entry. *)
Definition discarded_weight (storage : rvector) (new_SV_num SV_num : nat) : result F :=
  if Nat.ltb new_SV_num SV_num then
    for_up (Z.of_nat new_SV_num) (Z.of_nat SV_num) (fun i discarded_value =>
      s <- vget "S" storage i ;; Ok (discarded_value + norm s)) f0
  else Ok f0.

(** lines 164-171 *)
Definition sum_of_squares (S : rvector) : F :=
  fold_left (fun new_sum_squares s => new_sum_squares + norm s) S f0.

Definition renormalize (S : rvector) : rvector :=
  let new_sum_squares := sum_of_squares S in
  if negb (almost_equal (f1 - new_sum_squares) f0 THRESHOLD) then
    let sqrt_sum := fsqrt new_sum_squares in
    map (fun s => s / sqrt_sum) S
  else S.

(** [reduce_zeros] (lines 123-173).  [CHOP_THRESHOLD] is a macro of a
    header that is not among the sources: it is a parameter here. *)
Definition reduce_zeros (CHOP_THRESHOLD : F) (U : cmatrix) (S : rvector) (V : cmatrix)
  (max_bond_dimension : nat) (truncation_threshold : F) (mps_lapack : bool)
  : result (cmatrix * rvector * cmatrix * F) :=
  let SV_num := num_of_SV S CHOP_THRESHOLD in
  let new_SV_num := if Nat.ltb max_bond_dimension SV_num then max_bond_dimension else SV_num in
  '(_, new_SV_num) <- tail_sweep S truncation_threshold new_SV_num ;;
  U' <- resize U (GetRows U) new_SV_num ;;
  let S' := vresize S new_SV_num in
  V' <- (if mps_lapack then resize V new_SV_num (GetColumns V)
         else resize V (GetRows V) new_SV_num) ;;
  discarded_value <- discarded_weight S new_SV_num SV_num ;;
  Ok (U', renormalize S', V', discarded_value).

(** [validate_SVD_result] (lines 193-206).  Lines 202-205: the test of one
    entry, the loop state being empty. *)
Definition check_entry (A product : cmatrix) (ii jj : Z) (_ : unit) : result unit :=
  a <- mget A ii jj ;;
  p <- mget product ii jj ;;
  if negb (almost_equal (cabs a) (cabs p) THRESHOLD)
  then Err (RuntimeError "Error: Wrong SVD calculations: A != USV*")
  else Ok tt.

Definition validate_SVD_result (A U : cmatrix) (S : rvector) (V : cmatrix) : result unit :=
  let nrows := GetRows A in
  let ncols := GetColumns A in
  diag_S <- diag S nrows ncols ;;
  product <- mat_mul U diag_S ;;
  product <- mat_mul product (dagger V) ;;
  for_up 0 (Z.of_nat nrows) (fun ii _ =>
    for_up 0 (Z.of_nat ncols) (check_entry A product ii) tt) tt.

(** ** [csvd] (lines 209-581) *)

Inductive status : Type := SUCCESS | FAILURE.

Definition is_failure (s : status) : bool :=
  match s with
  | FAILURE => true
  | SUCCESS => false
  end.

(** lines 231-233 and 274-276: the squared norm of a column or row tail *)
Definition column_norm2 (A : cmatrix) (k m : Z) : result F :=
  for_up k m (fun i z => a <- mget A i k ;; Ok (z + cnorm a)) f0.

Definition row_norm2 (A : cmatrix) (k k1 n : Z) : result F :=
  for_up k1 n (fun j z => a <- mget A k j ;; Ok (z + cnorm a)) f0.

(** lines 229-269: the reflector of column [k] *)
Definition column_reflector (m n k : Z) (A : cmatrix) (b : rvector)
  : result (cmatrix * rvector) :=
  let k1 := (k + 1)%Z in
  z <- column_norm2 A k m ;;
  b <- vset "b" b k f0 ;;
  if tol <? z then
    let z := fsqrt z in
    b <- vset "b" b k z ;;
    akk <- mget A k k ;;
    let w := cabs akk in
    let q := if almost_equal w f0 zero_threshold then c1 else cdiv_real akk w in
    A <- mset A k k (cscale q (z + w)) ;;
    if (k =? n - 1)%Z then Ok (A, b) else
    A <- for_up k1 n (fun j A =>
           q <- for_up k m (fun i q =>
                  aik <- mget A i k ;;
                  aij <- mget A i j ;;
                  Ok (cadd q (cmul (conj aik) aij))) c0 ;;
           let q := cdiv_real q (z * (z + w)) in
           for_up k m (fun i A =>
             aij <- mget A i j ;;
             aik <- mget A i k ;;
             mset A i j (csub aij (cmul q aik))) A) A ;;
    (* phase transformation *)
    akk <- mget A k k ;;
    let q := cdiv_real (cneg (conj akk)) (cabs akk) in
    A <- for_up k1 n (fun j A =>
           akj <- mget A k j ;;
           mset A k j (cmul q akj)) A ;;
    Ok (A, b)
  else Ok (A, b).

(** lines 273-310: the reflector of row [k] *)
Definition row_reflector (m n k : Z) (A : cmatrix) (c : rvector)
  : result (cmatrix * rvector) :=
  let k1 := (k + 1)%Z in
  z <- row_norm2 A k k1 n ;;
  c <- vset "c" c k1 f0 ;;
  if tol <? z then
    let z := fsqrt z in
    c <- vset "c" c k1 z ;;
    akk1 <- mget A k k1 ;;
    let w := cabs akk1 in
    let q := if almost_equal w f0 zero_threshold then c1 else cdiv_real akk1 w in
    A <- mset A k k1 (cscale q (z + w)) ;;
    A <- for_up k1 m (fun i A =>
           q <- for_up k1 n (fun j q =>
                  akj <- mget A k j ;;
                  aij <- mget A i j ;;
                  Ok (cadd q (cmul (conj akj) aij))) c0 ;;
           let q := cdiv_real q (z * (z + w)) in
           for_up k1 n (fun j A =>
             aij <- mget A i j ;;
             akj <- mget A k j ;;
             mset A i j (csub aij (cmul q akj))) A) A ;;
    (* phase transformation *)
    akk1 <- mget A k k1 ;;
    let q := cdiv_real (cneg (conj akk1)) (cabs akk1) in
    A <- for_up k1 m (fun i A =>
           aik1 <- mget A i k1 ;;
           mset A i k1 (cmul aik1 q)) A ;;
    Ok (A, c)
  else Ok (A, c).

(** lines 228-312: [while (true)] leaves at [k == n - 1]; [rounds] bounds
    the number of rounds, and [n] rounds are enough. *)
Fixpoint bidiagonalize (rounds : nat) (m n k : Z) (A : cmatrix) (b c : rvector)
  : result (cmatrix * rvector * rvector) :=
  match rounds with
  | O => Err OutOfFuel
  | S rounds' =>
      '(A, b) <- column_reflector m n k A b ;;
      if (k =? n - 1)%Z then Ok (A, b, c) else
      '(A, c) <- row_reflector m n k A c ;;
      bidiagonalize rounds' m n (k + 1)%Z A b c
  end.

(** lines 314-320 *)
Definition splitting_tolerance (n : Z) (b c S t : rvector)
  : result (F * rvector * rvector) :=
  '(eps, S, t) <- for_up 0 n (fun k '(eps, S, t) =>
      bk <- vget "b" b k ;;
      S <- vset "S" S k bk ;;
      ck <- vget "c" c k ;;
      t <- vset "t" t k ck ;;
      sk <- vget "S" S k ;;
      tk <- vget "t" t k ;;
      Ok (fmax eps (sk + tk), S, t)) (f0, S, t) ;;
  Ok (eps * eta, S, t).

(** The part of the state that the diagonalisation works on. *)
Record qr_state : Type := QR {
  qS : rvector;
  qt : rvector;
  qU : cmatrix;
  qV : cmatrix
}.

(** One plane rotation of two columns of a matrix, real parts only:
    the loops of lines 371-376, 440-445 and 480-485. *)
Definition rotate_columns (M : cmatrix) (n p q : Z) (cs sn : F) : result cmatrix :=
  for_up 0 n (fun j M =>
    mp <- mget M j p ;;
    let x := re mp in
    mq <- mget M j q ;;
    let y := re mq in
    M <- mset M j p (Cplx (x * cs + y * sn) f0) ;;
    mset M j q (Cplx (y * cs - x * sn) f0)) M.

(** lines 344-352: the search for the splitting index.  It returns the
    value of [l] on leaving the loop and the flag [jump]; [l] is [-1] when
    the loop runs to its end. *)
Fixpoint scan (count : nat) (l : Z) (eps : F) (S t : rvector) : result (Z * bool) :=
  match count with
  | O => Ok (l, false)
  | Datatypes.S count' =>
      tl <- vget "t" t l ;;
      if fabs tl <? eps then Ok (l, true) else
      sl <- vget "S" S (l - 1) ;;
      if fabs sl <? eps then Ok (l, false) else
      scan count' (l - 1)%Z eps S t
  end.

(** lines 353-378: cancellation, when the scan left without [jump].  The
    loop state is [(cs, sn, state)]. *)
Definition cancellation (n l k : Z) (eps : F) (st : qr_state) : result qr_state :=
  let l1 := (l - 1)%Z in
  '(_, _, st) <- for_up_break l (k + 1) (fun i '(cs, sn, st) =>
      ti <- vget "t" (qt st) i ;;
      let f := sn * ti in
      t <- vset "t" (qt st) i (cs * ti) ;;
      if fabs f <? eps then Ok (Break (cs, sn, QR (qS st) t (qU st) (qV st))) else
      h <- vget "S" (qS st) i ;;
      let w := fsqrt (f * f + h * h) in
      S <- vset "S" (qS st) i w ;;
      let cs := h / w in
      let sn := (- f) / w in
      U <- rotate_columns (qU st) n l1 i cs sn ;;
      Ok (Continue (cs, sn, QR S t U (qV st)))) (f0, f1, st) ;;
  Ok st.

(** lines 397-486: one round of the chase at index [i].  The loop state is
    [(failed, f, x, cs, sn, state)]; [failed] stands for [return FAILURE]. *)
Definition chase_round (n i : Z)
  (acc : bool * F * F * F * F * qr_state)
  : result (flow (bool * F * F * F * F * qr_state)) :=
  let '(_, f, x, cs, sn, st) := acc in
  g <- vget "t" (qt st) i ;;
  y <- vget "S" (qS st) i ;;
  let h := sn * g in
  let g := cs * g in
  let w := fsqrt (h * h + f * f) in
  t <- vset "t" (qt st) (i - 1) w ;;
  let cs := f / w in
  let sn := h / w in
  let f := x * cs + g * sn in
  let large_f :=
    if almost_equal f f0 zero_threshold then
      let large_x := ld_mul (ld_of x) tiny_factor in
      let large_g := ld_mul (ld_of g) tiny_factor in
      let large_cs := ld_mul (ld_of cs) tiny_factor in
      let large_sn := ld_mul (ld_of sn) tiny_factor in
      ld_add (ld_mul large_x large_cs) (ld_mul large_g large_sn)
    else ld_zero in
  let g := g * cs - x * sn in
  let h := y * sn in
  let y := y * cs in
  V <- rotate_columns (qV st) n (i - 1) i cs sn ;;
  let tiny_w :=
    (fabs h <? lit_1e_13) && (fabs f <? lit_1e_13)
    && negb (almost_equal_ld large_f zero_threshold) in
  let w := fsqrt (h * h + f * f) in
  if almost_equal w f0 zero_threshold && negb tiny_w
  then Ok (Break (true, f, x, cs, sn, QR (qS st) t (qU st) V))
  else
    S <- vset "S" (qS st) (i - 1) w ;;
    let '(cs, sn) := if tiny_w then (f1, f0) else (f / w, h / w) in
    let f := cs * g + sn * y in
    let x := cs * y - sn * g in
    U <- rotate_columns (qU st) n (i - 1) i cs sn ;;
    Ok (Continue (false, f, x, cs, sn, QR S t U V)).

(** lines 383-489: the shift and the chase, for a splitting index [l < k] *)
Definition qr_step (n l k : Z) (w : F) (st : qr_state) : result (status * qr_state) :=
  x <- vget "S" (qS st) l ;;
  y <- vget "S" (qS st) (k - 1) ;;
  g <- vget "t" (qt st) (k - 1) ;;
  h <- vget "t" (qt st) k ;;
  let f := ((y - w) * (y + w) + (g - h) * (g + h)) / (f2 * h * y) in
  let g := fsqrt (f * f + f1) in
  let g := if f <? - lit_1e_13 then - g else g in
  let f := ((x - w) * (x + w) + (y / (f + g) - h) * h) / x in
  '(failed, f, x, _, _, st) <-
     for_up_break (l + 1) (k + 1) (chase_round n) (false, f, x, f1, f1, st) ;;
  if failed : bool then Ok (FAILURE, st) else
  t <- vset "t" (qt st) l f0 ;;
  t <- vset "t" t k f ;;
  S <- vset "S" (qS st) k x ;;
  Ok (SUCCESS, QR S t (qU st) (qV st)).

(** lines 342-490: [while (true)] for one [k].  It returns the status, the
    value of [w] on leaving (line 379) and the state. *)
Fixpoint qr_iterate (fuel : nat) (n k : Z) (eps : F) (st : qr_state)
  : result (status * F * qr_state) :=
  match fuel with
  | O => Err OutOfFuel
  | Datatypes.S fuel' =>
      '(l, jump) <- scan (Z.to_nat (k + 1)) k eps (qS st) (qt st) ;;
      st <- (if jump : bool then Ok st else cancellation n l k eps st) ;;
      w <- vget "S" (qS st) k ;;
      if (l =? k)%Z then Ok (SUCCESS, w, st) else
      '(outcome, st) <- qr_step n l k w st ;;
      match outcome with
      | FAILURE => Ok (FAILURE, w, st)
      | SUCCESS => qr_iterate fuel' n k eps st
      end
  end.

(** lines 492-498 *)
Definition sign_sweep (n k : Z) (w : F) (st : qr_state) : result qr_state :=
  if w <? - lit_1e_13 then
    S <- vset "S" (qS st) k (- w) ;;
    V <- for_up 0 n (fun j V => v <- mget V j k ;; mset V j k (cneg v)) (qV st) ;;
    Ok (QR S (qt st) (qU st) V)
  else Ok st.

(** lines 341-499.  The loop state is [(status, state)]. *)
Definition diagonalize (fuel : nat) (n : Z) (eps : F) (st : qr_state)
  : result (status * qr_state) :=
  for_down_break (n - 1) 0 (fun k '(_, st) =>
    '(outcome, w, st) <- qr_iterate fuel n k eps st ;;
    match outcome with
    | FAILURE => Ok (Break (FAILURE, st))
    | SUCCESS => st <- sign_sweep n k w st ;; Ok (Continue (SUCCESS, st))
    end) (SUCCESS, st).

(** lines 518-528: the exchange of columns [j] and [k], rows [0..n-1] *)
Definition swap_columns (M : cmatrix) (n j k : Z) : result cmatrix :=
  for_up 0 n (fun i M =>
    q <- mget M i j ;;
    mik <- mget M i k ;;
    M <- mset M i j mik ;;
    mset M i k q) M.

(** lines 505-512: the largest entry of [S[k..n-1]] above [-1.0] and its
    index; the loop state is [(g, j)]. *)
Definition select_max (S : rvector) (n k : Z) : result (F * Z) :=
  for_up k n (fun i '(g, j) =>
    si <- vget "S" S i ;;
    if g <? si then Ok (si, i) else Ok (g, j)) (- f1, k).

(** lines 504-530: the selection sort; the loop state is [(S, U, V)]. *)
Definition sort_singular_values (n : Z) (S : rvector) (U V : cmatrix)
  : result (rvector * cmatrix * cmatrix) :=
  for_up 0 n (fun k '(S, U, V) =>
    '(g, j) <- select_max S n k ;;
    if negb (j =? k)%Z then
      sk <- vget "S" S k ;;
      S <- vset "S" S j sk ;;
      S <- vset "S" S k g ;;
      V <- swap_columns V n j k ;;
      U <- swap_columns U n j k ;;
      Ok (S, U, V)
    else Ok (S, U, V)) (S, U, V).

(** lines 532-549: back-accumulation of the column reflectors into [U] *)
Definition accumulate_U (m n : Z) (A : cmatrix) (b : rvector) (U : cmatrix)
  : result cmatrix :=
  for_down (n - 1) 0 (fun k U =>
    bk <- vget "b" b k ;;
    if negb (almost_equal bk f0 zero_threshold) then
      akk <- mget A k k ;;
      let q := cdiv_real (cneg akk) (cabs akk) in
      U <- for_up 0 m (fun j U => ukj <- mget U k j ;; mset U k j (cmul q ukj)) U ;;
      for_up 0 m (fun j U =>
        q <- for_up k m (fun i q =>
               aik <- mget A i k ;;
               uij <- mget U i j ;;
               Ok (cadd q (cmul (conj aik) uij))) c0 ;;
        akk <- mget A k k ;;
        let q := cdiv_real q (cabs akk * bk) in
        for_up k m (fun i U =>
          uij <- mget U i j ;;
          aik <- mget A i k ;;
          mset U i j (csub uij (cmul q aik))) U) U
    else Ok U) U.

(** lines 551-571: back-accumulation of the row reflectors into [V] *)
Definition accumulate_V (n : Z) (A : cmatrix) (c : rvector) (V : cmatrix)
  : result cmatrix :=
  for_down (n - 1 - 1) 0 (fun k V =>
    let k1 := (k + 1)%Z in
    ck1 <- vget "c" c k1 ;;
    if negb (almost_equal ck1 f0 zero_threshold) then
      akk1 <- mget A k k1 ;;
      let q := cdiv_real (cneg (conj akk1)) (cabs akk1) in
      V <- for_up 0 n (fun j V => vkj <- mget V k1 j ;; mset V k1 j (cmul q vkj)) V ;;
      for_up 0 n (fun j V =>
        q <- for_up k1 n (fun i q =>
               aki <- mget A k i ;;
               vij <- mget V i j ;;
               Ok (cadd q (cmul aki vij))) c0 ;;
        akk1 <- mget A k k1 ;;
        let q := cdiv_real q (cabs akk1 * ck1) in
        for_up k1 n (fun i V =>
          vij <- mget V i j ;;
          aki <- mget A k i ;;
          mset V i j (csub vij (cmul q (conj aki)))) V) V
    else Ok V) V.

(** What [csvd] leaves in its four reference parameters. *)
Record svd_args : Type := Args {
  arg_A : cmatrix;
  arg_U : cmatrix;
  arg_S : rvector;
  arg_V : cmatrix
}.

(** [csvd] (lines 209-581).  [fuel] bounds the rounds of each
    [while (true)] of lines 342-490.  [U.initialize] and [V.initialize]
    with the loops of lines 327-339 leave the two identity matrices. *)
Definition csvd (fuel : nat) (A U : cmatrix) (S : rvector) (V : cmatrix)
  : result (status * svd_args) :=
  let m := Z.of_nat (GetRows A) in
  let n := Z.of_nat (GetColumns A) in
  let size := Z.to_nat (Z.max m n) in
  let b := repeat f0 size in
  let c := repeat f0 size in
  let t := repeat f0 size in
  (* transpose when m < n *)
  let transposed := (m <? n)%Z in
  let '(A, m, n) := if transposed then (dagger A, n, m) else (A, m, n) in
  c <- vset "c" c 0 f0 ;;
  '(A, b, c) <- bidiagonalize (Datatypes.S (Z.to_nat n)) m n 0 A b c ;;
  '(eps, S, t) <- splitting_tolerance n b c S t ;;
  let U := identity (Z.to_nat m) in
  let V := identity (Z.to_nat n) in
  '(outcome, st) <- diagonalize fuel n eps (QR S t U V) ;;
  match outcome with
  | FAILURE => Ok (FAILURE, Args A (qU st) (qS st) (qV st))
  | SUCCESS =>
      '(S, U, V) <- sort_singular_values n (qS st) (qU st) (qV st) ;;
      U <- accumulate_U m n A b U ;;
      V <- accumulate_V n A c V ;;
      (* transpose again if m < n *)
      let '(U, V) := if transposed then (V, U) else (U, V) in
      Ok (SUCCESS, Args A U S V)
  end.

(** ** [qiskit_csvd_wrapper] (lines 606-638) *)

(** lines 618-628: the loop state is
    [(times, copied_A, current_status, arguments)]. *)
Fixpoint retry_loop (rounds : nat) (fuel : nat) (times : nat) (copied_A : cmatrix)
  (current_status : status) (args : svd_args)
  : result (nat * cmatrix * status * svd_args) :=
  match rounds with
  | O => Err OutOfFuel
  | Datatypes.S rounds' =>
      if Nat.leb times NUM_SVD_TRIES && is_failure current_status then
        let times := Datatypes.S times in
        let copied_A := mat_scale copied_A mul_factor in
        let A := copied_A in
        '(current_status, args) <- csvd fuel A (arg_U args) (arg_S args) (arg_V args) ;;
        retry_loop rounds' fuel times copied_A current_status args
      else Ok (times, copied_A, current_status, args)
  end.

Definition qiskit_csvd_wrapper (fuel : nat) (A U : cmatrix) (S : rvector) (V : cmatrix)
  : result svd_args :=
  let copied_A := A in
  let times := O in
  '(current_status, args) <- csvd fuel A U S V ;;
  match current_status with
  | SUCCESS => Ok args
  | FAILURE =>
      '(times, copied_A, current_status, args) <-
         retry_loop (NUM_SVD_TRIES + 3) fuel times copied_A current_status args ;;
      if Nat.eqb times NUM_SVD_TRIES then Err (RuntimeError "SVD failed") else
      (* divide every singular value by mul_factor^times *)
      let S := map (fun s => s / fpow mul_factor times) (arg_S args) in
      Ok (Args (arg_A args) (arg_U args) S (arg_V args))
  end.

End Svd.

(** * Vocabulary of the statements

    Sums over exact real numbers, written by recursion on the list. *)

Fixpoint mass (l : list R) : R :=
  match l with
  | [] => 0%R
  | s :: t => (s * s + mass t)%R
  end.

(** The squared mass of the entries [r, r+1, ..., n-1] of [S]. *)
Definition tail_mass (S : list R) (r n : nat) : R :=
  mass (firstn (n - r) (skipn r S)).

(** How the sweep ends, in terms of the mass of the tail: it runs to its
    end with every tail under the budget, or it stops at the first index
    [b], from the top, whose tail is not under the budget. *)
Definition sweep_outcome (S : list R) (thr : R) (n1 count new : nat) : Prop :=
  (new = n1 /\ forall r, 1 <= r <= count -> (tail_mass S r n1 < thr)%R) \/
  (exists b, 1 <= b <= count /\ new = b + 1 /\
             (thr <= tail_mass S b n1)%R /\
             forall r, b < r <= count -> (tail_mass S r n1 < thr)%R).

(** The entry that [diag] is to leave at [(i, j)]. *)
Definition diag_entry {F : Type} {SF : Scalar F} (S : rvector_t F) (i j : nat)
  : complex_t F :=
  if Nat.eqb i j then of_real (nth i S f0) else c0.

(** The rows of [Res] while [diag] fills row [a], [k] of its entries done. *)
Definition diag_rows {F : Type} {SF : Scalar F} (S : rvector_t F) (m n a k : nat)
  : list (list (complex_t F)) :=
  map (fun i => map (diag_entry S i) (seq 0 n)) (seq 0 a)
  ++ (map (diag_entry S a) (seq 0 k) ++ repeat c0 (n - k))
  :: repeat (repeat c0 n) (m - a - 1).

(** The product [U . diag(S) . V^dagger] that [validate_SVD_result] forms
    for an input matrix [A]. *)
Definition reconstruction {F : Type} {SF : Scalar F}
  (A U : cmatrix_t F) (S : rvector_t F) (V : cmatrix_t F) : cmatrix_t F :=
  let diag_S := mk_matrix (GetRows A) (GetColumns A) (diag_entry S) in
  let product := mk_matrix (GetRows U) (GetColumns diag_S) (dot U diag_S) in
  mk_matrix (GetRows product) (GetColumns (dagger V)) (dot product (dagger V)).

(** The distance that line 202 compares with [THRESHOLD]. *)
Definition magnitude_gap (A P : cmatrix_t R) (i j : nat) : R :=
  Rabs (cabs (entry A i j) - cabs (entry P i j)).

(** The error of line 204. *)
Definition wrong_svd : fault :=
  RuntimeError "Error: Wrong SVD calculations: A != USV*".

(** ** The spectrum that [csvd] returns *)

(** The laws of [<] that the ordering of the singular values rests on. *)
Record order_laws (F : Type) {SF : Scalar F} : Prop := {
  fltb_irrefl : forall a : F, fltb a a = false;
  fltb_trans : forall a b c : F,
    fltb a b = true -> fltb b c = true -> fltb a c = true;
  fopp_clears : forall w : F,
    fltb w (fopp lit_1e_13) = true -> fltb (fopp w) (fopp lit_1e_13) = false;
  fltb_unordered : forall x : F,
    fltb x (fopp lit_1e_13) = false -> fltb (fopp f1) x = false ->
    forall y : F, fltb x y = false
}.
Arguments order_laws F {SF}.

(** [S'] holds what [S] holds at every index above [k]. *)
Definition kept_above {A} (k : Z) (S S' : list A) : Prop :=
  forall i : nat, (k < Z.of_nat i)%Z -> nth_error S' i = nth_error S i.

(** No entry of [S] at an index below [n] is under [c]. *)
Definition none_below {F : Type} {SF : Scalar F} (c : F) (S : rvector_t F) (n : nat)
  : Prop :=
  forall i x, i < n -> nth_error S i = Some x -> fltb x c = false.

(** The entries of [S] at the indices below [n] never increase. *)
Definition non_increasing {F : Type} {SF : Scalar F} (S : rvector_t F) (n : nat)
  : Prop :=
  forall i j x y, i < j -> j < n ->
    nth_error S i = Some x -> nth_error S j = Some y -> fltb x y = false.

(** The exchange of the indices [j] and [k]. *)
Definition exchange (j k i : nat) : nat :=
  if Nat.eqb i k then j else if Nat.eqb i j then k else i.

(** [S'], [U'] and [V'] are [S], [U] and [V] with the entries of [S] and
    the columns of [U] and [V] (in the rows below [n]) moved by one
    permutation [p] of the indices below [n]. *)
Definition in_lockstep {F : Type} {SF : Scalar F} (n : nat) (p : nat -> nat)
  (S S' : rvector_t F) (U U' V V' : cmatrix_t F) : Prop :=
  (exists q : nat -> nat, (forall i, q (p i) = i) /\ (forall i, p (q i) = i)) /\
  (forall i, n <= i -> p i = i) /\
  (forall i, nth_error S' i = nth_error S (p i)) /\
  (forall r c, entry U' r c
               = if Nat.ltb r n then entry U r (p c) else entry U r c) /\
  (forall r c, entry V' r c
               = if Nat.ltb r n then entry V r (p c) else entry V r c).

(** ** Further vocabulary *)

(** [M] has [r] rows and [c] columns, and its storage has these extents. *)
Definition has_extents {F : Type} {SF : Scalar F} (r c : nat) (M : cmatrix_t F) : Prop :=
  GetRows M = r /\ GetColumns M = c /\ well_formed M.

(** [A] after [k] rounds of line 620, [copied_A = copied_A * mul_factor]. *)
Definition rescaled {F : Type} {SF : Scalar F} (A : cmatrix_t F) (k : nat) : cmatrix_t F :=
  Nat.iter k (fun M => mat_scale M mul_factor) A.

(** [validate_SVdD_result] (lines 175-191), the check behind the LAPACK
    wrapper, whose [V] already holds the conjugate transpose: the product
    is [U * diag_S * V].  The test of an entry is that of
    [validate_SVD_result]; lines 187-188 also print the two magnitudes,
    which is not part of the state here. *)
Definition validate_SVdD_result {F : Type} {SF : Scalar F}
  (A U : cmatrix_t F) (S : rvector_t F) (V : cmatrix_t F) : result unit :=
  let nrows := GetRows A in
  let ncols := GetColumns A in
  diag_S <- diag S nrows ncols ;;
  product <- mat_mul U diag_S ;;
  product <- mat_mul product V ;;
  for_up 0 (Z.of_nat nrows) (fun ii _ =>
    for_up 0 (Z.of_nat ncols) (check_entry A product ii) tt) tt.

(** The product [U . diag(S) . VH] that [validate_SVdD_result] forms. *)
Definition reconstruction_VH {F : Type} {SF : Scalar F}
  (A U : cmatrix_t F) (S : rvector_t F) (VH : cmatrix_t F) : cmatrix_t F :=
  let diag_S := mk_matrix (GetRows A) (GetColumns A) (diag_entry S) in
  let product := mk_matrix (GetRows U) (GetColumns diag_S) (dot U diag_S) in
  mk_matrix (GetRows product) (GetColumns VH) (dot product VH).

(** What [csvd] computes with on a matrix of zeros. *)
Record null_laws (F : Type) {SF : Scalar F} : Prop := {
  norm_of_zero : fadd (fmul f0 f0) (fmul f0 f0) = f0;
  norm_of_zero_conj : fadd (fmul f0 f0) (fmul (fopp f0) (fopp f0)) = f0;
  zero_plus_zero : fadd f0 f0 = f0;
  zero_times_eta : fmul f0 lit_1e_10 = f0;
  tol_above_zero : fltb lit_1_5e_34 f0 = false;
  zero_below_zero : fltb f0 f0 = false;
  abs_zero_below_zero : fltb (fabs f0) f0 = false
}.
Arguments null_laws F {SF}.

(** [r] is a value that [P] holds of, or a fault among those of [ok]. *)
Definition within {A} (ok : fault -> Prop) (P : A -> Prop) (r : result A) : Prop :=
  match r with
  | Ok x => P x
  | Err e => ok e
  end.

(** What a loop body that may leave its loop hands on. *)
Definition carried {St} (r : flow St) : St :=
  match r with
  | Continue st => st
  | Break st => st
  end.

(** The state of the diagonalisation of an [m] x [n] matrix has room for
    the indices below [n]. *)
Definition qr_within {F : Type} {SF : Scalar F} (m n : nat) (st : qr_state) : Prop :=
  n <= length (qS st) /\ n <= length (qt st) /\
  has_extents m m (qU st) /\ has_extents n n (qV st).

(** * Sample inputs

    Real matrices with binary64 entries, for the statements that run the
    code. *)

Definition real_matrix (rows : list (list float)) : cmatrix_t float :=
  Matrix (length rows) (length (hd [] rows))
    (map (map (fun x => Cplx x 0%float)) rows).

Definition no_matrix : cmatrix_t float := zeros 0 0.

(** The identity of order 2, and a 2x3 matrix of full rank. *)
Definition identity_2 : cmatrix_t float :=
  real_matrix [[1; 0]; [0; 1]]%float.

Definition wide_2x3 : cmatrix_t float :=
  real_matrix [[1; 2; 3]; [3; 4; 5]]%float.

(** The identity of order 1. *)
Definition one_1 : cmatrix_t float := real_matrix [[1]]%float.

(** The zero matrices of order 1 and 2. *)
Definition zero_1 : cmatrix_t float := real_matrix [[0]]%float.
Definition zero_2 : cmatrix_t float := real_matrix [[0; 0]; [0; 0]]%float.

(** Three matrices of rank one on which the chase of [csvd] cancels
    exactly. *)
Definition rank_one_57 : cmatrix_t float :=
  real_matrix [[57; 228]; [0; 0]]%float.

Definition rank_one_79 : cmatrix_t float :=
  real_matrix [[79; 158]; [0; 0]]%float.

Definition rank_one_163 : cmatrix_t float :=
  real_matrix [[163; 326]; [0; 0]]%float.

(** * Properties *)

(** ** The result monad and the loops *)

Lemma bind_ok {A B} (m : result A) (f : A -> result B) (y : B) :
  bind m f = Ok y -> exists x, m = Ok x /\ f x = Ok y.
Proof.
  destruct m as [x | e]; simpl; intro H; [exists x; auto | discriminate].
Qed.

(** Inversion of a computation that is known to return. *)
Ltac inv_ok :=
  repeat match goal with
  | H : bind _ _ = Ok _ |- _ =>
      let x := fresh "x" in
      let E := fresh "E" in
      apply bind_ok in H; destruct H as (x & E & H)
  | H : Ok _ = Ok _ |- _ => inversion H; subst; clear H
  | H : Err _ = Ok _ |- _ => discriminate H
  | H : (let '(_, _) := ?p in _) = Ok _ |- _ => destruct p
  | H : (if ?c then _ else _) = Ok _ |- _ => destruct c eqn:?
  end.

(** A loop without [break] that returns keeps every invariant its
    rounds keep. *)
Lemma iterate_invariant {St} (P : Z -> St -> Prop) (step : Z)
  (body : Z -> St -> result St) :
  forall count i st st',
    P i st ->
    (forall j s s', P j s -> body j s = Ok s' -> P (j + step)%Z s') ->
    iterate count i step body st = Ok st' ->
    P (i + Z.of_nat count * step)%Z st'.
Proof.
  induction count as [| count IH]; intros i st st' HP Hbody H; simpl in H.
  - inv_ok. replace (i + Z.of_nat 0 * step)%Z with i by lia. exact HP.
  - inv_ok.
    replace (i + Z.of_nat (S count) * step)%Z
      with ((i + step) + Z.of_nat count * step)%Z by lia.
    eapply IH; eauto.
Qed.

(** The same for an invariant that does not look at the index. *)
Lemma iterate_preserves {St} (P : St -> Prop) (step : Z)
  (body : Z -> St -> result St) :
  forall count i st st',
    P st ->
    (forall j s s', P s -> body j s = Ok s' -> P s') ->
    iterate count i step body st = Ok st' ->
    P st'.
Proof.
  intros count i st st' HP Hbody H.
  apply (iterate_invariant (fun _ s => P s) step body count i st HP); auto.
Qed.

Lemma iterate_break_preserves {St} (P : St -> Prop) (step : Z)
  (body : Z -> St -> result (flow St)) :
  forall count i st st',
    P st ->
    (forall j s s', P s -> body j s = Ok (Continue s') -> P s') ->
    (forall j s s', P s -> body j s = Ok (Break s') -> P s') ->
    iterate_break count i step body st = Ok st' ->
    P st'.
Proof.
  induction count as [| count IH]; intros i st st' HP Hc Hb H; simpl in H.
  - inv_ok. exact HP.
  - apply bind_ok in H. destruct H as (r & E & H).
    destruct r as [s | s].
    + apply (IH (i + step)%Z s st'); auto. apply (Hc i st s); auto.
    + inv_ok. apply (Hb i st st'); auto.
Qed.

(** ** Lists as vectors *)

Lemma length_list_set {A} (l : list A) (n : nat) (x : A) :
  length (list_set l n x) = length l.
Proof.
  revert n; induction l as [| h t IH]; intros [| n]; simpl; auto.
Qed.

Lemma nth_error_list_set_same {A} (l : list A) (n : nat) (x : A) :
  n < length l -> nth_error (list_set l n x) n = Some x.
Proof.
  revert n; induction l as [| h t IH]; intros [| n] H; simpl in *; try lia; auto.
  apply IH; lia.
Qed.

Lemma nth_error_list_set_other {A} (l : list A) (n k : nat) (x : A) :
  n <> k -> nth_error (list_set l n x) k = nth_error l k.
Proof.
  revert n k; induction l as [| h t IH]; intros [| n] [| k] H; simpl; auto; try lia.
Qed.

Lemma in_range_iff (i : Z) (len : nat) :
  in_range i len = true <-> (0 <= i < Z.of_nat len)%Z.
Proof.
  unfold in_range. rewrite andb_true_iff, Z.leb_le, Z.ltb_lt. tauto.
Qed.

Lemma vset_ok {A} (name : string) (v : list A) (i : Z) (x : A) (v' : list A) :
  vset name v i x = Ok v' ->
  (0 <= i < Z.of_nat (length v))%Z /\ v' = list_set v (Z.to_nat i) x.
Proof.
  unfold vset. destruct (in_range i (length v)) eqn:E; intro H; inv_ok.
  split; [apply in_range_iff; exact E | reflexivity].
Qed.

Lemma vset_length {A} (name : string) (v : list A) (i : Z) (x : A) (v' : list A) :
  vset name v i x = Ok v' -> length v' = length v.
Proof.
  intro H. apply vset_ok in H. destruct H as [_ ->]. apply length_list_set.
Qed.

Lemma vget_ok {A} (name : string) (v : list A) (i : Z) (x : A) :
  vget name v i = Ok x ->
  (0 <= i < Z.of_nat (length v))%Z /\ nth_error v (Z.to_nat i) = Some x.
Proof.
  unfold vget. destruct (in_range i (length v)) eqn:E; intro H; [| discriminate].
  destruct (nth_error v (Z.to_nat i)) eqn:N; inv_ok.
  split; [apply in_range_iff; exact E | reflexivity].
Qed.

Lemma vget_in_range {A} (name : string) (v : list A) (i : Z) :
  (0 <= i < Z.of_nat (length v))%Z ->
  exists x, vget name v i = Ok x /\ nth_error v (Z.to_nat i) = Some x.
Proof.
  intro H. unfold vget.
  assert (E : in_range i (length v) = true) by (apply in_range_iff; exact H).
  rewrite E.
  destruct (nth_error v (Z.to_nat i)) as [x |] eqn:N.
  - exists x; auto.
  - apply nth_error_None in N. lia.
Qed.

Lemma vget_out_of_range {A} (name : string) (v : list A) (i : Z) :
  ~ (0 <= i < Z.of_nat (length v))%Z -> vget name v i = Err (OutOfRange name i).
Proof.
  intro H. unfold vget.
  destruct (in_range i (length v)) eqn:E; [| reflexivity].
  apply in_range_iff in E. contradiction.
Qed.

(** Inversion through the tuples and the loop outcomes of [csvd]. *)
Ltac inv_all :=
  repeat (inv_ok;
          repeat match goal with
          | H : context [match (_, _) with (_, _) => _ end] |- _ =>
              progress cbv beta iota in H
          | H : match ?x with Continue _ => _ | Break _ => _ end = Ok _ |- _ =>
              destruct x
          | H : match ?x with SUCCESS => _ | FAILURE => _ end = Ok _ |- _ =>
              destruct x
          end).

Ltac len_solve :=
  simpl in *;
  repeat match goal with
  | H : vset _ _ _ _ = Ok _ |- _ => apply vset_length in H
  end;
  congruence.

(** ** [csvd] and the length of [S] *)

Section CsvdLength.
Context {F : Type} {SF : Scalar F}.

Lemma splitting_tolerance_length (n : Z) (b c S t : rvector_t F) eps S' t' :
  splitting_tolerance n b c S t = Ok (eps, S', t') ->
  length S' = length S /\ (n <= Z.of_nat (length S))%Z.
Proof.
  unfold splitting_tolerance, for_up. intro H. inv_all.
  match goal with
  | E : iterate _ _ _ _ _ = Ok _ |- _ =>
      apply (iterate_invariant
               (fun j (s : F * rvector_t F * rvector_t F) =>
                  length (snd (fst s)) = length S /\
                  (j <= Z.of_nat (length S) \/ j <= 0)%Z)) in E
  end.
  - simpl in *. split; [tauto | lia].
  - simpl. split; [reflexivity | lia].
  - intros j [[e s] t0] [[e' s'] t0'] [HL _] Hb. simpl in *. inv_all.
    match goal with
    | E : vset "S" s j _ = Ok _ |- _ =>
        pose proof (vset_ok _ _ _ _ E) as [Hr _];
        apply vset_length in E
    end.
    split; [congruence | lia].
Qed.

Lemma cancellation_length (n l k : Z) (eps : F) (st st' : qr_state) :
  cancellation n l k eps st = Ok st' -> length (qS st') = length (qS st).
Proof.
  unfold cancellation, for_up_break. intro H. inv_all.
  match goal with
  | E : iterate_break _ _ _ _ _ = Ok _ |- _ =>
      apply (iterate_break_preserves
               (fun s : F * F * qr_state => length (qS (snd s)) = length (qS st))) in E
  end; auto.
  - intros j [[cs sn] s] [[cs' sn'] s'] HL Hb. simpl in *. inv_all. len_solve.
  - intros j [[cs sn] s] [[cs' sn'] s'] HL Hb. simpl in *. inv_all. len_solve.
Qed.

Lemma chase_round_length (n i : Z) acc (r : flow (bool * F * F * F * F * qr_state)) :
  chase_round n i acc = Ok r ->
  length (qS (snd match r with Continue a => a | Break a => a end))
  = length (qS (snd acc)).
Proof.
  unfold chase_round. destruct acc as [[[[[failed f] x] cs] sn] st]. intro H.
  inv_all; len_solve.
Qed.

Lemma qr_step_length (n l k : Z) (w : F) (st st' : qr_state) outcome :
  qr_step n l k w st = Ok (outcome, st') -> length (qS st') = length (qS st).
Proof.
  unfold qr_step, for_up_break. intro H. inv_all.
  all: match goal with
  | E : iterate_break _ _ _ _ _ = Ok _ |- _ =>
      apply (iterate_break_preserves
               (fun s : bool * F * F * F * F * qr_state =>
                  length (qS (snd s)) = length (qS st))) in E;
      [ | reflexivity
        | intros j s s' HL Hb; apply chase_round_length in Hb; simpl in Hb; congruence
        | intros j s s' HL Hb; apply chase_round_length in Hb; simpl in Hb; congruence ]
  end.
  all: len_solve.
Qed.

Lemma qr_iterate_length (fuel : nat) (n k : Z) (eps : F) :
  forall (st st' : qr_state) outcome w,
    qr_iterate fuel n k eps st = Ok (outcome, w, st') ->
    length (qS st') = length (qS st).
Proof.
  induction fuel as [| fuel IH]; intros st st' outcome w H; simpl in H; [discriminate |].
  inv_all.
  all: repeat match goal with
       | E : cancellation _ _ _ _ _ = Ok _ |- _ => apply cancellation_length in E
       | E : qr_step _ _ _ _ _ = Ok _ |- _ => apply qr_step_length in E
       | E : qr_iterate _ _ _ _ _ = Ok _ |- _ => apply IH in E
       end; congruence.
Qed.

Lemma sign_sweep_length (n k : Z) (w : F) (st st' : qr_state) :
  sign_sweep n k w st = Ok st' -> length (qS st') = length (qS st).
Proof.
  unfold sign_sweep. intro H. inv_all; len_solve.
Qed.

Lemma diagonalize_length (fuel : nat) (n : Z) (eps : F) (st st' : qr_state) outcome :
  diagonalize fuel n eps st = Ok (outcome, st') ->
  length (qS st') = length (qS st).
Proof.
  unfold diagonalize, for_down_break. intro H.
  apply (iterate_break_preserves
           (fun s : status * qr_state => length (qS (snd s)) = length (qS st))) in H;
    auto.
  - intros j [o s] [o' s'] HL Hb. simpl in *. inv_all.
    match goal with
    | E : qr_iterate _ _ _ _ _ = Ok _ |- _ => apply qr_iterate_length in E
    end.
    match goal with
    | E : sign_sweep _ _ _ _ = Ok _ |- _ => apply sign_sweep_length in E
    end.
    congruence.
  - intros j [o s] [o' s'] HL Hb. simpl in *. inv_all.
    match goal with
    | E : qr_iterate _ _ _ _ _ = Ok _ |- _ => apply qr_iterate_length in E
    end.
    congruence.
Qed.

Lemma sort_singular_values_length (n : Z) (S S' : rvector_t F) (U V U' V' : cmatrix_t F) :
  sort_singular_values n S U V = Ok (S', U', V') -> length S' = length S.
Proof.
  unfold sort_singular_values, for_up. intro H.
  apply (iterate_preserves
           (fun s : rvector_t F * cmatrix_t F * cmatrix_t F =>
              length (fst (fst s)) = length S)) in H; auto.
  intros j [[s u] v] [[s' u'] v'] HL Hb. simpl in *. inv_all; len_solve.
Qed.


End CsvdLength.


(** ** The scan of phase 2 at [l = 0] *)

Section Scan.
Context {F : Type} {SF : Scalar F}.
Local Open Scope scalar_scope.

(** At [l = 0] the scan stays inside [S] exactly when the first test
    holds: with [|t[0]| < eps] it leaves with [jump], *)
Lemma scan_at_zero_jumps (count : nat) (eps : F) (S t : rvector_t F) (t0 : F) :
  nth_error t 0 = Some t0 ->
  (fabs t0 <? eps) = true ->
  scan (Datatypes.S count) 0 eps S t = Ok (0%Z, true).
Proof.
  intros Ht Hlt. cbn [scan].
  destruct (@vget_in_range _ "t" t 0%Z) as (x & E & N).
  { destruct t; [discriminate | simpl; lia]. }
  rewrite E. cbn [bind].
  change (Z.to_nat 0) with 0%nat in N. rewrite Ht in N. inversion N; subst.
  rewrite Hlt. reflexivity.
Qed.

(** and without it the second test reads [S[-1]]. *)
Lemma scan_at_zero_reads_before_S (count : nat) (eps : F) (S t : rvector_t F) (t0 : F) :
  nth_error t 0 = Some t0 ->
  (fabs t0 <? eps) = false ->
  scan (Datatypes.S count) 0 eps S t = Err (OutOfRange "S" (-1)).
Proof.
  intros Ht Hlt. cbn [scan].
  destruct (@vget_in_range _ "t" t 0%Z) as (x & E & N).
  { destruct t; [discriminate | simpl; lia]. }
  rewrite E. cbn [bind].
  change (Z.to_nat 0) with 0%nat in N. rewrite Ht in N. inversion N; subst.
  rewrite Hlt.
  rewrite (@vget_out_of_range _ "S" S (0 - 1)%Z) by lia. reflexivity.
Qed.

End Scan.

(** C7.  The scan of lines 344-352 does read [S[l - 1]] with [l = 0]: for
    the zero matrix every [b[k]] and [c[k]] is zero, so [eps] is zero, the
    first test [|t[0]| < eps] is [0 < 0] and fails, and the second test of
    line 349 reads [S[-1]].  This is [csvd] on the 1x1 and on the 2x2 zero
    matrix, for every amount of fuel. *)
Theorem csvd_zero_matrix_reads_before_S :
  (forall fuel,
     csvd (S fuel) zero_1 no_matrix [0]%float no_matrix
     = Err (OutOfRange "S" (-1))) /\
  (forall fuel,
     csvd (S fuel) zero_2 no_matrix [0; 0]%float no_matrix
     = Err (OutOfRange "S" (-1))).
Proof.
  split; intro fuel; vm_compute; reflexivity.
Qed.

(** ** The retry loop of [qiskit_csvd_wrapper] *)

Section Retry.
Context {F : Type} {SF : Scalar F}.
Local Open Scope scalar_scope.

(** The loop of lines 618-628 is left when its test fails: with [SUCCESS],
    or with [times] above [NUM_SVD_TRIES]. *)
Lemma retry_loop_leaves (rounds fuel : nat) :
  forall times (copied_A : cmatrix_t F) current_status args times' copied_A' status' args',
    retry_loop rounds fuel times copied_A current_status args
    = Ok (times', copied_A', status', args') ->
    (Nat.leb times' NUM_SVD_TRIES && is_failure status') = false /\
    times <= times' /\
    (times <= Datatypes.S NUM_SVD_TRIES -> times' <= Datatypes.S NUM_SVD_TRIES).
Proof.
  induction rounds as [| rounds IH]; intros until args'; intro H; simpl in H;
    [discriminate |].
  destruct (Nat.leb times NUM_SVD_TRIES && is_failure current_status) eqn:T.
  - inv_all.
    match goal with
    | E : retry_loop _ _ _ _ _ _ = Ok _ |- _ => apply IH in E; destruct E as (? & ? & Hle)
    end.
    apply andb_true_iff in T. destruct T as [T _]. apply Nat.leb_le in T.
    repeat split; auto; try lia.
  - inv_all. repeat split; auto.
Qed.

(** What line 629 makes of the way the loop was left: the wrapper raises
    exactly when [times] is 15, and then the last call of [csvd] returned
    [SUCCESS]; when every call failed, [times] is 16 and the wrapper
    returns. *)
Lemma wrapper_after_the_loop (fuel : nat) (A U : cmatrix_t F) (S : rvector_t F)
  (V : cmatrix_t F) args0 times copied_A current_status args :
  csvd fuel A U S V = Ok (FAILURE, args0) ->
  retry_loop (NUM_SVD_TRIES + 3) fuel 0 A FAILURE args0
  = Ok (times, copied_A, current_status, args) ->
  (times = NUM_SVD_TRIES ->
     current_status = SUCCESS /\
     qiskit_csvd_wrapper fuel A U S V = Err (RuntimeError "SVD failed")) /\
  (times <> NUM_SVD_TRIES ->
     qiskit_csvd_wrapper fuel A U S V
     = Ok (Args (arg_A args) (arg_U args)
             (map (fun s => s / fpow mul_factor times) (arg_S args))
             (arg_V args))) /\
  (current_status = FAILURE -> times = Datatypes.S NUM_SVD_TRIES).
Proof.
  intros H0 HL.
  pose proof (retry_loop_leaves _ _ _ _ _ _ HL) as (Hexit & _ & Hle).
  unfold qiskit_csvd_wrapper. rewrite H0. cbn [bind].
  rewrite HL. cbn [bind].
  split; [| split].
  - intro Ht. subst times. split.
    + destruct current_status; [reflexivity | discriminate Hexit].
    + reflexivity.
  - intro Ht. apply Nat.eqb_neq in Ht. rewrite Ht. reflexivity.
  - intro Hs. subst current_status.
    rewrite andb_true_r in Hexit. apply Nat.leb_gt in Hexit.
    unfold NUM_SVD_TRIES in *. lia.
Qed.

End Retry.

(** C1.  The wrapper does not raise exactly when every try failed.
    On [[57, 228], [0, 0]] the first call and the retries 1 to 14 fail and
    retry 15 succeeds: the loop is left with [times = 15] and [SUCCESS],
    and line 629 raises.  On [[163, 326], [0, 0]] the first call and all
    of 16 retries fail (the loop test is [times <= 15]): the loop is left
    with [times = 16] and [FAILURE], and the wrapper returns normally,
    with what the failed call left in [S] divided by [mul_factor^16]. *)
Theorem wrapper_raises_on_the_wrong_inputs :
  (exists args0 copied_A args,
     csvd 60 rank_one_57 no_matrix [0; 0]%float no_matrix = Ok (FAILURE, args0) /\
     retry_loop (NUM_SVD_TRIES + 3) 60 0 rank_one_57 FAILURE args0
     = Ok (15, copied_A, SUCCESS, args) /\
     qiskit_csvd_wrapper 60 rank_one_57 no_matrix [0; 0]%float no_matrix
     = Err (RuntimeError "SVD failed")) /\
  (exists args0 copied_A args,
     csvd 60 rank_one_163 no_matrix [0; 0]%float no_matrix = Ok (FAILURE, args0) /\
     retry_loop (NUM_SVD_TRIES + 3) 60 0 rank_one_163 FAILURE args0
     = Ok (16, copied_A, FAILURE, args) /\
     qiskit_csvd_wrapper 60 rank_one_163 no_matrix [0; 0]%float no_matrix
     = Ok (Args (arg_A args) (arg_U args)
             (map (fun s => PrimFloat.div s (fpow mul_factor 16)) (arg_S args))
             (arg_V args))).
Proof.
  split.
  - do 3 eexists. split; [| split].
    + vm_compute; reflexivity.
    + vm_compute; reflexivity.
    + vm_compute; reflexivity.
  - do 3 eexists. split; [| split].
    + vm_compute; reflexivity.
    + vm_compute; reflexivity.
    + vm_compute; reflexivity.
Qed.

(** ** [reduce_zeros]: what holds on every carrier *)

Section ReduceZeros.
Context {F : Type} {SF : Scalar F}.

Lemma vget_nat {A} (name : string) (v : list A) (n : nat) (d : A) :
  n < length v -> vget name v (Z.of_nat n) = Ok (nth n v d).
Proof.
  intro H. destruct (@vget_in_range _ name v (Z.of_nat n)) as (x & E & N); [lia |].
  rewrite E. rewrite Nat2Z.id in N.
  apply (nth_error_nth v n d) in N. congruence.
Qed.

Lemma num_of_SV_le_length (S : rvector_t F) (threshold : F) :
  num_of_SV S threshold <= length S.
Proof.
  unfold num_of_SV.
  assert (G : forall l a,
             fold_left (fun sum s => if (threshold <? norm s)%sc then Datatypes.S sum else sum) l a
             <= a + length l).
  { induction l as [| s l IH]; intro a; simpl; [lia |].
    destruct (threshold <? norm s)%sc.
    - specialize (IH (Datatypes.S a)). lia.
    - specialize (IH a). lia. }
  apply (G S 0).
Qed.

(** The sweep returns, with a rank between 1 and the rank it starts from. *)
Lemma sweep_loop_returns (S : rvector_t F) (thr : F) (n1 : nat) :
  forall count sum,
    count < length S ->
    exists sum' new,
      iterate_break count (Z.of_nat count) (-1) (sweep_round S thr) (sum, n1)
      = Ok (sum', new) /\
      (new = n1 \/ 2 <= new <= count + 1).
Proof.
  induction count as [| count IH]; intros sum Hc.
  - exists sum, n1. split; [reflexivity | left; reflexivity].
  - cbn [iterate_break]. unfold sweep_round at 1.
    rewrite (vget_nat "S" S f0 Hc). cbn [bind].
    destruct (sum + norm (nth (Datatypes.S count) S f0) <? thr)%sc.
    + replace (Z.of_nat (Datatypes.S count) + -1)%Z with (Z.of_nat count) by lia.
      destruct (IH (sum + norm (nth (Datatypes.S count) S f0))%sc) as (sum' & new & E & B);
        [lia |].
      exists sum', new. split; [exact E | lia].
    + exists sum, (Z.to_nat (Z.of_nat (Datatypes.S count) + 1)).
      split; [reflexivity | right; lia].
Qed.

Lemma tail_sweep_returns (S : rvector_t F) (thr : F) (n1 : nat) :
  n1 <= length S ->
  exists sum new,
    tail_sweep S thr n1 = Ok (sum, new) /\ new <= n1 /\ (1 <= n1 -> 1 <= new).
Proof.
  intro H. unfold tail_sweep, for_down_break.
  replace (Z.to_nat (Z.of_nat n1 - 1 - 1 + 1)) with (n1 - 1) by lia.
  destruct n1 as [| n].
  - exists f0, 0. simpl. split; [reflexivity | lia].
  - replace (Z.of_nat (Datatypes.S n) - 1)%Z with (Z.of_nat n) by lia.
    replace (Datatypes.S n - 1) with n by lia.
    destruct (sweep_loop_returns S thr (Datatypes.S n) (count := n) f0) as (sum & new & E & B);
      [lia |].
    exists sum, new. split; [exact E | lia].
Qed.

Lemma tail_sweep_bounds (S : rvector_t F) (thr : F) (n1 : nat) sum new :
  n1 <= length S ->
  tail_sweep S thr n1 = Ok (sum, new) ->
  new <= n1 /\ (1 <= n1 -> 1 <= new).
Proof.
  intros H E. destruct (tail_sweep_returns S thr H) as (sum' & new' & E' & B).
  rewrite E in E'. inversion E'; subst. exact B.
Qed.

Lemma length_vresize (S : rvector_t F) (n : nat) : length (vresize S n) = n.
Proof.
  unfold vresize. rewrite length_app, length_firstn, repeat_length. lia.
Qed.

Lemma vresize_firstn (S : rvector_t F) (n : nat) :
  n <= length S -> vresize S n = firstn n S.
Proof.
  intro H. unfold vresize. replace (n - length S) with 0 by lia.
  simpl. apply app_nil_r.
Qed.

Lemma length_renormalize (S : rvector_t F) : length (renormalize S) = length S.
Proof.
  unfold renormalize.
  destruct (negb (almost_equal (f1 - sum_of_squares S)%sc f0 THRESHOLD));
    [apply length_map | reflexivity].
Qed.

(** The loop of lines 159-161 adds the squares of the entries
    [new_SV_num, ..., SV_num - 1], in this order. *)
Lemma add_squares_loop (S : rvector_t F) :
  forall count a init,
    a + count <= length S ->
    iterate count (Z.of_nat a) 1
      (fun i discarded_value => s <- vget "S" S i ;; Ok (discarded_value + norm s)%sc) init
    = Ok (fold_left (fun acc s => (acc + norm s)%sc) (firstn count (skipn a S)) init).
Proof.
  induction count as [| count IH]; intros a init H.
  - reflexivity.
  - cbn [iterate]. rewrite (vget_nat "S" S f0) by lia. cbn [bind].
    replace (Z.of_nat a + 1)%Z with (Z.of_nat (Datatypes.S a)) by lia.
    rewrite IH by lia.
    assert (K : skipn a S = nth a S f0 :: skipn (Datatypes.S a) S).
    { clear IH. revert a H. induction S as [| x l IHl]; intros a H; simpl in H; [lia |].
      destruct a as [| a]; [reflexivity |].
      simpl. apply IHl. lia. }
    rewrite K. reflexivity.
Qed.

Lemma discarded_weight_spec (S : rvector_t F) (new_SV_num SV_num : nat) :
  SV_num <= length S ->
  discarded_weight S new_SV_num SV_num
  = Ok (sum_of_squares (firstn (SV_num - new_SV_num) (skipn new_SV_num S))).
Proof.
  intro H. unfold discarded_weight, sum_of_squares.
  destruct (Nat.ltb new_SV_num SV_num) eqn:L.
  - apply Nat.ltb_lt in L. unfold for_up.
    replace (Z.to_nat (Z.of_nat SV_num - Z.of_nat new_SV_num))
      with (SV_num - new_SV_num) by lia.
    apply add_squares_loop. lia.
  - apply Nat.ltb_ge in L. replace (SV_num - new_SV_num) with 0 by lia. reflexivity.
Qed.

(** [reduce_zeros] read backwards from a result. *)
Lemma reduce_zeros_inv (chop : F) (U : cmatrix_t F) (S : rvector_t F) (V : cmatrix_t F)
  (max_rank : nat) (thr : F) (lapack : bool) U' S' V' d :
  reduce_zeros chop U S V max_rank thr lapack = Ok (U', S', V', d) ->
  exists sum new,
    tail_sweep S thr (Nat.min (num_of_SV S chop) max_rank) = Ok (sum, new) /\
    new <= Nat.min (num_of_SV S chop) max_rank /\
    (1 <= Nat.min (num_of_SV S chop) max_rank -> 1 <= new) /\
    resize U (GetRows U) new = Ok U' /\
    (if lapack then resize V new (GetColumns V) else resize V (GetRows V) new) = Ok V' /\
    S' = renormalize (firstn new S) /\
    length S' = new /\
    d = sum_of_squares (firstn (num_of_SV S chop - new) (skipn new S)).
Proof.
  unfold reduce_zeros. intro H.
  pose proof (num_of_SV_le_length S chop) as HL.
  assert (M : (if Nat.ltb max_rank (num_of_SV S chop) then max_rank else num_of_SV S chop)
              = Nat.min (num_of_SV S chop) max_rank).
  { destruct (Nat.ltb max_rank (num_of_SV S chop)) eqn:L;
      [apply Nat.ltb_lt in L | apply Nat.ltb_ge in L]; lia. }
  rewrite M in H. clear M.
  apply bind_ok in H. destruct H as ([sum new] & E & H).
  destruct (tail_sweep_bounds S thr (n1 := Nat.min (num_of_SV S chop) max_rank) ltac:(lia) E)
    as [B1 B2].
  apply bind_ok in H. destruct H as (U1 & EU & H).
  apply bind_ok in H. destruct H as (V1 & EV & H).
  rewrite discarded_weight_spec in H by lia. cbn [bind] in H.
  inversion H; subst; clear H.
  exists sum, new. repeat split; auto.
  - rewrite vresize_firstn by lia. reflexivity.
  - rewrite length_renormalize, length_vresize. reflexivity.
Qed.

(** [reduce_zeros] returns whenever [U] and [V] are not smaller than the
    rank it starts from. *)
Lemma reduce_zeros_returns (chop : F) (U : cmatrix_t F) (S : rvector_t F) (V : cmatrix_t F)
  (max_rank : nat) (thr : F) (lapack : bool) :
  Nat.min (num_of_SV S chop) max_rank <= GetColumns U ->
  Nat.min (num_of_SV S chop) max_rank
  <= (if lapack then GetRows V else GetColumns V) ->
  exists U' S' V' d, reduce_zeros chop U S V max_rank thr lapack = Ok (U', S', V', d).
Proof.
  intros HU HV. unfold reduce_zeros.
  pose proof (num_of_SV_le_length S chop) as HL.
  assert (M : (if Nat.ltb max_rank (num_of_SV S chop) then max_rank else num_of_SV S chop)
              = Nat.min (num_of_SV S chop) max_rank).
  { destruct (Nat.ltb max_rank (num_of_SV S chop)) eqn:L;
      [apply Nat.ltb_lt in L | apply Nat.ltb_ge in L]; lia. }
  rewrite M. clear M.
  destruct (tail_sweep_returns S thr (n1 := Nat.min (num_of_SV S chop) max_rank))
    as (sum & new & E & B1 & B2); [lia |].
  rewrite E. cbn [bind].
  unfold resize at 1.
  replace (Nat.leb (GetRows U) (GetRows U)) with true by (symmetry; apply Nat.leb_le; lia).
  replace (Nat.leb new (GetColumns U)) with true by (symmetry; apply Nat.leb_le; lia).
  cbn [andb bind].
  rewrite discarded_weight_spec by lia.
  destruct lapack; unfold resize.
  - replace (Nat.leb new (GetRows V)) with true by (symmetry; apply Nat.leb_le; lia).
    replace (Nat.leb (GetColumns V) (GetColumns V)) with true
      by (symmetry; apply Nat.leb_le; lia).
    cbn [andb bind]. do 4 eexists. reflexivity.
  - replace (Nat.leb (GetRows V) (GetRows V)) with true by (symmetry; apply Nat.leb_le; lia).
    replace (Nat.leb new (GetColumns V)) with true by (symmetry; apply Nat.leb_le; lia).
    cbn [andb bind]. do 4 eexists. reflexivity.
Qed.

End ReduceZeros.

(** C3.  The value that [reduce_zeros] returns is the sum of the squares
    of the entries of the original [S] from the new rank up to, and not
    including, index [n0 = num_of_SV(S, CHOP_THRESHOLD)]: the entries that
    were not counted as significant are not added.  The sum runs in the
    order of the indices, as the loop of lines 159-161 does. *)
Theorem discarded_weight_stops_at_the_significant_count
  {F : Type} {SF : Scalar F}
  (chop : F) (U : cmatrix_t F) (S : rvector_t F) (V : cmatrix_t F)
  (max_rank : nat) (thr : F) (lapack : bool) U' S' V' d :
  reduce_zeros chop U S V max_rank thr lapack = Ok (U', S', V', d) ->
  d = sum_of_squares (firstn (num_of_SV S chop - length S') (skipn (length S') S)).
Proof.
  intro H. apply reduce_zeros_inv in H.
  destruct H as (sum & new & _ & _ & _ & _ & _ & _ & L & D).
  rewrite L. exact D.
Qed.

(** On [S = [1, 0.5, 1e-9]] with [CHOP_THRESHOLD = 1e-16] and a cap of one,
    two entries are significant, one is kept, and the weight returned is
    [0.25]: the square of [1e-9] is not part of it. *)
Lemma discarded_weight_stops_at_the_significant_count_run :
  exists U' S' V',
    reduce_zeros 1e-16%float (identity 3) [1; 0.5; 1e-9]%float (identity 3) 1 0%float false
    = Ok (U', S', V', 0.25%float) /\
    0.25%float
    = sum_of_squares
        (firstn (num_of_SV [1; 0.5; 1e-9]%float 1e-16%float - length S')
           (skipn (length S') [1; 0.5; 1e-9]%float)).
Proof.
  do 3 eexists. split.
  - vm_compute; reflexivity.
  - eapply (@discarded_weight_stops_at_the_significant_count float float_scalar
              1e-16%float (identity 3) [1; 0.5; 1e-9]%float (identity 3) 1 0%float false).
    vm_compute; reflexivity.
Defined.

(** ** Exact arithmetic: the carrier [R] *)

Lemma Rltb_true_intro (a b : R) : (a < b)%R -> Rltb a b = true.
Proof. unfold Rltb. destruct (Rlt_dec a b); tauto. Qed.

Lemma Rltb_false_intro (a b : R) : (b <= a)%R -> Rltb a b = false.
Proof. unfold Rltb. destruct (Rlt_dec a b); [lra | reflexivity]. Qed.

Lemma Rleb_true_intro (a b : R) : (a <= b)%R -> Rleb a b = true.
Proof. unfold Rleb. destruct (Rle_dec a b); tauto. Qed.

Lemma Rleb_false_intro (a b : R) : (b < a)%R -> Rleb a b = false.
Proof. unfold Rleb. destruct (Rle_dec a b); [lra | reflexivity]. Qed.

Lemma Rltb_true_iff (a b : R) : Rltb a b = true <-> (a < b)%R.
Proof. unfold Rltb. destruct (Rlt_dec a b); split; intro; auto; discriminate. Qed.

Lemma Rltb_false_iff (a b : R) : Rltb a b = false <-> (b <= a)%R.
Proof.
  unfold Rltb. destruct (Rlt_dec a b); split; intro; auto; try discriminate; lra.
Qed.

Lemma Rleb_true_iff (a b : R) : Rleb a b = true <-> (a <= b)%R.
Proof. unfold Rleb. destruct (Rle_dec a b); split; intro; auto; discriminate. Qed.

Lemma Rleb_false_iff (a b : R) : Rleb a b = false <-> (b < a)%R.
Proof.
  unfold Rleb. destruct (Rle_dec a b); split; intro; auto; try discriminate; lra.
Qed.

(** The operations of the class at [R], unfolded to those of the reals. *)
Ltac r_unfold :=
  cbv [f0 f1 f2 fadd fsub fmul fdiv fopp fabs fsqrt fhypot fltb fleb
       lit_1e2 lit_1e30 lit_1e_50 lit_1e_9 lit_1e_10 lit_1_5e_34 lit_1e_13
       R_scalar norm fmax almost_equal THRESHOLD zero_threshold] in *.

(** The comparisons decided by linear arithmetic. *)
Ltac r_tests :=
  repeat match goal with
  | |- context [Rltb ?a ?b] =>
      first [ rewrite (@Rltb_true_intro a b) by lra
            | rewrite (@Rltb_false_intro a b) by lra ]
  | |- context [Rleb ?a ?b] =>
      first [ rewrite (@Rleb_true_intro a b) by lra
            | rewrite (@Rleb_false_intro a b) by lra ]
  end.

Section Exact.
Local Open Scope R_scope.

Lemma mass_nonneg (l : list R) : 0 <= mass l.
Proof.
  induction l as [| s l IH]; simpl; [lra |].
  pose proof (Rle_0_sqr s) as Q. unfold Rsqr in Q. lra.
Qed.

Lemma fold_squares_mass (l : list R) :
  forall a, fold_left (fun acc s => (acc + norm s)%sc) l a = a + mass l.
Proof.
  induction l as [| s l IH]; intro a; simpl.
  - lra.
  - rewrite IH. r_unfold. lra.
Qed.

Lemma sum_of_squares_mass (l : list R) : sum_of_squares l = mass l.
Proof.
  unfold sum_of_squares. rewrite fold_squares_mass. r_unfold. lra.
Qed.

Lemma skipn_nth {A} (l : list A) (d : A) :
  forall a : nat, (a < length l)%nat -> skipn a l = nth a l d :: skipn (S a) l.
Proof.
  induction l as [| x l IH]; intros a H; simpl in H; [lia |].
  destruct a as [| a]; [reflexivity |].
  simpl. apply IH. lia.
Qed.

Lemma tail_mass_end (S : list R) (n : nat) : tail_mass S n n = 0.
Proof. unfold tail_mass. rewrite Nat.sub_diag. reflexivity. Qed.

Lemma tail_mass_step (S : list R) (r n : nat) :
  (r < n)%nat -> (n <= length S)%nat ->
  tail_mass S r n = nth r S 0 * nth r S 0 + tail_mass S (r + 1) n.
Proof.
  intros H1 H2. unfold tail_mass.
  rewrite (skipn_nth S 0 (a := r)) by lia.
  replace (n - r)%nat with (Datatypes.S (n - (r + 1))) by lia.
  replace (Datatypes.S r) with (r + 1)%nat by lia.
  reflexivity.
Qed.

Lemma tail_mass_nonneg (S : list R) (r n : nat) : 0 <= tail_mass S r n.
Proof. apply mass_nonneg. Qed.

(** Dropping more entries does not drop less mass. *)
Lemma tail_mass_monotone (S : list R) (n : nat) :
  (n <= length S)%nat ->
  forall k r, (r + k <= n)%nat -> tail_mass S (r + k) n <= tail_mass S r n.
Proof.
  intros Hn. induction k as [| k IH]; intros r H.
  - replace (r + 0)%nat with r by lia. lra.
  - replace (r + Datatypes.S k)%nat with ((r + 1) + k)%nat by lia.
    etransitivity; [apply IH; lia |].
    rewrite (tail_mass_step S (r := r) (n := n)) by lia.
    pose proof (Rle_0_sqr (nth r S 0)) as Q. unfold Rsqr in Q. lra.
Qed.

Lemma sweep_loop_exact (S : list R) (thr : R) (n1 : nat) :
  (n1 <= length S)%nat ->
  forall count,
    (count < n1)%nat ->
    exists sum' new,
      iterate_break count (Z.of_nat count) (-1) (sweep_round S thr)
        (tail_mass S (count + 1) n1, n1) = Ok (sum', new) /\
      sweep_outcome S thr n1 count new.
Proof.
  intros Hn. induction count as [| count IH]; intro Hc.
  - exists (tail_mass S (0 + 1) n1), n1. split; [reflexivity |].
    left. split; [reflexivity | intros r Hr; lia].
  - cbn [iterate_break]. unfold sweep_round at 1.
    rewrite (vget_nat "S" S 0 (n := Datatypes.S count)) by lia. cbn [bind].
    assert (St : tail_mass S (Datatypes.S count + 1) n1
                 + norm (nth (Datatypes.S count) S 0)
                 = tail_mass S (count + 1) n1).
    { rewrite (tail_mass_step S (r := count + 1) (n := n1)) by lia.
      replace (count + 1 + 1)%nat with (Datatypes.S count + 1)%nat by lia.
      replace (count + 1)%nat with (Datatypes.S count) by lia.
      unfold norm. cbv [fmul R_scalar]. lra. }
    cbv [fadd fltb R_scalar] in *. rewrite St.
    destruct (Rltb (tail_mass S (count + 1) n1) thr) eqn:T.
    + apply Rltb_true_iff in T.
      replace (Z.of_nat (Datatypes.S count) + -1)%Z with (Z.of_nat count) by lia.
      destruct IH as (sum' & new & E & O); [lia |].
      exists sum', new. split; [exact E |].
      destruct O as [[En Hall] | (b & Hb & En & Hge & Hall)].
      * left. split; [exact En |].
        intros r Hr. destruct (Nat.eq_dec r (Datatypes.S count)) as [-> | Hne].
        -- replace (Datatypes.S count) with (count + 1)%nat by lia. exact T.
        -- apply Hall. lia.
      * right. exists b. repeat split; auto; try lia.
        intros r Hr. destruct (Nat.eq_dec r (Datatypes.S count)) as [-> | Hne].
        -- replace (Datatypes.S count) with (count + 1)%nat by lia. exact T.
        -- apply Hall. lia.
    + apply Rltb_false_iff in T.
      exists (tail_mass S (Datatypes.S count + 1) n1),
             (Z.to_nat (Z.of_nat (Datatypes.S count) + 1)).
      split; [reflexivity |].
      right. exists (Datatypes.S count).
      split; [lia |]. split; [lia |]. split.
      * replace (Datatypes.S count) with (count + 1)%nat by lia. exact T.
      * intros r Hr. lia.
Qed.

Lemma tail_sweep_exact (S : list R) (thr : R) (n1 : nat) (sum : R) (new : nat) :
  (n1 <= length S)%nat ->
  tail_sweep S thr n1 = Ok (sum, new) ->
  sweep_outcome S thr n1 (n1 - 1) new.
Proof.
  intros Hn E. unfold tail_sweep, for_down_break in E.
  replace (Z.to_nat (Z.of_nat n1 - 1 - 1 + 1)) with (n1 - 1)%nat in E by lia.
  destruct n1 as [| n].
  - simpl in E. inversion E; subst. left. split; [reflexivity | intros r Hr; lia].
  - replace (Z.of_nat (Datatypes.S n) - 1)%Z with (Z.of_nat n) in E by lia.
    replace (Datatypes.S n - 1)%nat with n in * by lia.
    destruct (sweep_loop_exact S thr Hn (count := n)) as (sum' & new' & E' & O); [lia |].
    replace (tail_mass S (n + 1) (Datatypes.S n)) with (@f0 R R_scalar) in E'.
    + rewrite E in E'. inversion E'; subst. exact O.
    + replace (n + 1)%nat with (Datatypes.S n) by lia.
      rewrite tail_mass_end. reflexivity.
Qed.

End Exact.

(** C2.  The sweep of lines 137-144 sets [new_SV_num] in its [else]
    branch only: when every index of the tail fits under the budget the
    loop ends without reaching it, [new_SV_num] keeps the value it
    started from, and nothing is removed, against the comment of lines
    134-135 and against the least rank of the claim, which is then 1.
    On binary64, [S = [1, 0.1, 0.01]] with a cap of 3: the squares of the
    tail sum to [0.0101]; under the budget [0.5] all three values are
    kept and the weight returned is 0, whereas under the smaller budget
    [0.005] the last value is dropped.  In exact arithmetic, for every
    input: when the tail [1 .. n1-1] as a whole fits under the budget,
    the rank retained is [n1 = min(n0, max_rank)]. *)
Theorem sweep_keeps_a_tail_that_fits_whole :
  (exists U' S' V',
     reduce_zeros 1e-16%float (identity 3) [1; 0.1; 0.01]%float (identity 3)
       3 0.5%float false = Ok (U', S', V', 0%float) /\
     length S' = 3) /\
  (exists U' S' V' d,
     reduce_zeros 1e-16%float (identity 3) [1; 0.1; 0.01]%float (identity 3)
       3 0.005%float false = Ok (U', S', V', d) /\
     length S' = 2) /\
  (forall (chop : R) (U : cmatrix_t R) (S : rvector_t R) (V : cmatrix_t R)
          (max_rank : nat) (thr : R) (lapack : bool) U' S' V' d,
     reduce_zeros chop U S V max_rank thr lapack = Ok (U', S', V', d) ->
     (tail_mass S 1 (Nat.min (num_of_SV S chop) max_rank) < thr)%R ->
     length S' = Nat.min (num_of_SV S chop) max_rank).
Proof.
  split; [| split].
  - do 3 eexists. split.
    + vm_compute. reflexivity.
    + reflexivity.
  - do 4 eexists. split.
    + vm_compute. reflexivity.
    + reflexivity.
  - intros chop U S V max_rank thr lapack U' S' V' d H Hfits.
    pose proof (num_of_SV_le_length S chop) as HL.
    apply reduce_zeros_inv in H.
    destruct H as (sum & new & E & _ & _ & _ & _ & _ & L & _).
    rewrite L. clear L.
    set (n1 := Nat.min (num_of_SV S chop) max_rank) in *.
    assert (Hlen : n1 <= length S) by (unfold n1; lia).
    apply tail_sweep_exact in E; [| exact Hlen].
    destruct E as [[En _] | (b & Hb & _ & Hge & _)]; [exact En |].
    exfalso.
    pose proof (@tail_mass_monotone S n1 Hlen (b - 1) 1 ltac:(lia)) as M.
    replace (1 + (b - 1)) with b in M by lia. lra.
Qed.

(** Where the sweep stops.  Let [n1 = min(n0, max_rank)] be the rank the
    sweep starts from, at least 1, and let [n1] be 1 or the tail
    [1 .. n1-1] as a whole not fit under the budget.  Then the rank [r]
    that [reduce_zeros] retains is the least rank whose dropped mass
    [sum of |S_j|^2 for r <= j < n1] is strictly under the budget: it lies
    between 1 and [n1] (index 0 is never dropped), the mass dropped is
    under the budget whenever something is dropped or the budget is
    positive, and at every smaller rank the dropped mass reaches the
    budget. *)
Theorem sweep_retains_the_least_rank_under_the_budget
  (chop : R) (U : cmatrix_t R) (S : rvector_t R) (V : cmatrix_t R)
  (max_rank : nat) (thr : R) (lapack : bool) U' S' V' d :
  reduce_zeros chop U S V max_rank thr lapack = Ok (U', S', V', d) ->
  1 <= Nat.min (num_of_SV S chop) max_rank ->
  Nat.min (num_of_SV S chop) max_rank = 1 \/
  (thr <= tail_mass S 1 (Nat.min (num_of_SV S chop) max_rank))%R ->
  1 <= length S' <= Nat.min (num_of_SV S chop) max_rank /\
  (length S' < Nat.min (num_of_SV S chop) max_rank \/ (0 < thr)%R ->
   (tail_mass S (length S') (Nat.min (num_of_SV S chop) max_rank) < thr)%R) /\
  (forall r, 1 <= r < length S' ->
     (thr <= tail_mass S r (Nat.min (num_of_SV S chop) max_rank))%R).
Proof.
  intros H Hn1 Hstop.
  pose proof (num_of_SV_le_length S chop) as HL.
  apply reduce_zeros_inv in H.
  destruct H as (sum & new & E & B1 & B2 & _ & _ & _ & L & _).
  rewrite L. clear L.
  set (n1 := Nat.min (num_of_SV S chop) max_rank) in *.
  assert (Hlen : n1 <= length S) by (unfold n1; lia).
  apply tail_sweep_exact in E; [| exact Hlen].
  destruct E as [[En Hall] | (b & Hb & En & Hge & Hall)].
  - (* the sweep ran to its end: with a tail at all, it fits under the budget *)
    subst new. split; [lia |]. split.
    + intros [Hlt | Hpos]; [lia |]. rewrite tail_mass_end. exact Hpos.
    + intros r Hr. destruct Hstop as [Hone | Hstop]; [lia |].
      destruct (Nat.eq_dec r 1) as [-> | Hne]; [exact Hstop |].
      exfalso. specialize (Hall 1%nat ltac:(lia)). lra.
  - subst new. split; [lia |]. split.
    + intros Hcase. destruct (Nat.eq_dec (b + 1) n1) as [Heq | Hne].
      * destruct Hcase as [Hlt | Hpos]; [lia |].
        rewrite Heq, tail_mass_end. exact Hpos.
      * apply Hall. lia.
    + intros r Hr.
      pose proof (@tail_mass_monotone S n1 Hlen (b - r) r ltac:(lia)) as M.
      replace (r + (b - r)) with b in M by lia. lra.
Qed.

(** On [S = [1, 0.5, 0.1]] with a budget of [0.1]: index 2 fits under the
    budget, index 1 does not, and the rank retained is 2. *)
Lemma sweep_retains_the_least_rank_under_the_budget_run :
  exists U' S' V' d,
    reduce_zeros 0%R (zeros 3 3) [1; 0.5; 0.1]%R (zeros 3 3) 3 0.1%R false
    = Ok (U', S', V', d) /\
    1 <= length S' <= 3 /\
    (length S' < 3 \/ (0 < 0.1)%R -> (tail_mass [1; 0.5; 0.1]%R (length S') 3 < 0.1)%R) /\
    (forall r, 1 <= r < length S' -> (0.1 <= tail_mass [1; 0.5; 0.1]%R r 3)%R).
Proof.
  assert (N : num_of_SV [1; 0.5; 0.1]%R 0%R = 3).
  { unfold num_of_SV. cbn [fold_left]. r_unfold. r_tests. reflexivity. }
  destruct (@reduce_zeros_returns R R_scalar 0%R (zeros 3 3) [1; 0.5; 0.1]%R (zeros 3 3)
              3 0.1%R false) as (U' & S' & V' & d & E).
  { rewrite N. cbn. lia. }
  { rewrite N. cbn. lia. }
  exists U', S', V', d. split; [exact E |].
  pose proof (@sweep_retains_the_least_rank_under_the_budget
                0%R (zeros 3 3) [1; 0.5; 0.1]%R (zeros 3 3) 3 0.1%R false U' S' V' d E) as T.
  rewrite N in T. change (Nat.min 3 3) with 3 in T.
  apply T.
  - lia.
  - right. unfold tail_mass. cbn [Nat.sub skipn firstn mass]. lra.
Defined.

(** The example [S = [1, 1e-8, 1e-16, 0]] with a cap of 4 and a budget of
    [1e-10]: no value of [CHOP_THRESHOLD] and no [U], [V] make
    [reduce_zeros] return the discarded weight [1e-32] with a new rank of
    2: the squares [1e-16], [1e-32] and [0] all fit under the budget
    together, the sweep runs to its end, and nothing that was counted as
    significant is dropped. *)
Lemma claimed_sweep_example_fails :
  ~ exists chop U V lapack U' S' V',
      reduce_zeros chop U [1; 1e-8; 1e-16; 0]%R V 4 1e-10%R lapack
      = Ok (U', S', V', 1e-32%R) /\
      length S' = 2.
Proof.
  intros (chop & U & V & lapack & U' & S' & V' & H & L).
  pose proof (num_of_SV_le_length [1; 1e-8; 1e-16; 0]%R chop) as HL.
  apply reduce_zeros_inv in H.
  destruct H as (sum & new & E & B1 & B2 & _ & _ & _ & L' & D).
  rewrite L in L'. subst new.
  remember (num_of_SV [1; 1e-8; 1e-16; 0]%R chop) as n0 eqn:N0. clear N0.
  cbn [length] in HL.
  replace (Nat.min n0 4) with n0 in * by lia.
  apply tail_sweep_exact in E; [| cbn [length]; lia].
  destruct E as [[En _] | (b & Hb & En & Hge & _)].
  - subst n0. change (2 - 2) with 0 in D. cbn [firstn] in D.
    unfold sum_of_squares in D. cbn [fold_left] in D. r_unfold. lra.
  - assert (b = 1) by lia. subst b.
    unfold tail_mass in Hge.
    destruct n0 as [| [| [| [| [| n0]]]]]; try lia;
      cbn [Nat.sub skipn firstn mass] in Hge; lra.
Qed.

(** C3, as the claim states it.  On [S = [0, 1]] with a cap of one, for no
    [CHOP_THRESHOLD >= 0] is the value returned the sum of the squares of
    all the entries from the new rank on: the entry [1] at index 1 is
    dropped and its square is not returned, since only one entry was
    counted as significant. *)
Lemma discarded_weight_misses_dropped_entries :
  ~ exists chop,
      (0 <= chop)%R /\
      exists U V lapack U' S' V' d,
        reduce_zeros chop U [0; 1]%R V 1 0%R lapack = Ok (U', S', V', d) /\
        d = sum_of_squares (skipn (length S') [0; 1]%R).
Proof.
  intros (chop & Hc & U & V & lapack & U' & S' & V' & d & H & Hd).
  assert (N : num_of_SV [0; 1]%R chop <= 1).
  { unfold num_of_SV. cbn [fold_left]. r_unfold.
    rewrite (@Rltb_false_intro chop (0 * 0)%R) by lra.
    destruct (Rltb chop (1 * 1)); lia. }
  apply reduce_zeros_inv in H.
  destruct H as (sum & new & E & B1 & B2 & _ & _ & _ & L & D).
  rewrite L in Hd. clear L.
  remember (num_of_SV [0; 1]%R chop) as n0 eqn:N0. clear N0.
  assert (new = n0) by lia. subst new.
  rewrite Nat.sub_diag in D. cbn [firstn] in D.
  rewrite D in Hd. clear D.
  unfold sum_of_squares in Hd.
  destruct n0 as [| [| n0]]; try lia; cbn [skipn fold_left] in Hd; r_unfold; lra.
Qed.

(** The same with a sorted vector, for the threshold [1e-16]: on
    [S = [1, 1e-9]] one entry is significant, the entry [1e-9] is
    dropped, and the value returned is 0. *)
Lemma discarded_weight_misses_an_insignificant_entry :
  ~ exists U V lapack U' S' V' d,
      reduce_zeros 1e-16%R U [1; 1e-9]%R V 2 0%R lapack = Ok (U', S', V', d) /\
      d = sum_of_squares (skipn (length S') [1; 1e-9]%R).
Proof.
  intros (U & V & lapack & U' & S' & V' & d & H & Hd).
  assert (N : num_of_SV [1; 1e-9]%R 1e-16%R = 1).
  { unfold num_of_SV. cbn [fold_left]. r_unfold. r_tests. reflexivity. }
  apply reduce_zeros_inv in H.
  destruct H as (sum & new & E & B1 & B2 & _ & _ & _ & L & D).
  rewrite L in Hd. clear L. rewrite N in *. change (Nat.min 1 2) with 1 in *.
  assert (new = 1) by lia. subst new.
  change (1 - 1) with 0 in D. cbn [firstn] in D.
  rewrite D in Hd. clear D.
  unfold sum_of_squares in Hd. cbn [skipn fold_left] in Hd.
  r_unfold. lra.
Qed.

(** ** Renormalisation *)

Section Renormalisation.
Local Open Scope R_scope.

Lemma mass_map_div (c : R) (l : list R) :
  c <> 0 -> mass (map (fun s => s / c) l) = mass l / (c * c).
Proof.
  intro Hc. induction l as [| s l IH]; simpl.
  - unfold Rdiv. ring.
  - rewrite IH. field. exact Hc.
Qed.

Lemma Rabs_le_iff (x t : R) : Rabs x <= t <-> - t <= x <= t.
Proof.
  unfold Rabs. destruct (Rcase_abs x); split; intro; lra.
Qed.

(** What [renormalize] does to a vector [kept], by the distance of its sum
    of squares from 1. *)
Lemma renormalize_exact (kept : list R) :
  (Rabs (1 - sum_of_squares kept) <= 1e-9 -> renormalize kept = kept) /\
  (1e-9 < Rabs (1 - sum_of_squares kept) ->
   renormalize kept = map (fun s => s / sqrt (sum_of_squares kept)) kept) /\
  (0 < sum_of_squares kept ->
   Rabs (1 - sum_of_squares (renormalize kept)) <= 1e-9).
Proof.
  unfold renormalize. r_unfold.
  rewrite Rminus_0_r.
  destruct (Rleb (Rabs (1 - sum_of_squares kept)) 1e-9) eqn:T; cbn [negb].
  - apply Rleb_true_iff in T. repeat split; auto. intro; lra.
  - apply Rleb_false_iff in T. split; [intro; lra |]. split; [reflexivity |].
    intro Hpos. rewrite (sum_of_squares_mass (map _ kept)).
    rewrite sum_of_squares_mass in *.
    assert (Hs : sqrt (mass kept) * sqrt (mass kept) = mass kept)
      by (apply sqrt_sqrt; lra).
    assert (Hne : sqrt (mass kept) <> 0).
    { intro Z. rewrite Z in Hs. lra. }
    rewrite mass_map_div by exact Hne. rewrite Hs.
    replace (1 - mass kept / mass kept) with 0 by (field; lra).
    rewrite Rabs_R0. lra.
Qed.

End Renormalisation.

(** C4, as the code has it.  The vector [S'] that [reduce_zeros] leaves is
    the retained prefix [kept] of [S], as it is when its sum of squares
    [s2] is within [THRESHOLD] of 1, and with every entry divided by
    [sqrt s2] otherwise; whenever [s2] is positive, the sum of the squares
    of [S'] is within [THRESHOLD] of 1. *)
Theorem retained_vector_is_normalised
  (chop : R) (U : cmatrix_t R) (S : rvector_t R) (V : cmatrix_t R)
  (max_rank : nat) (thr : R) (lapack : bool) U' S' V' d :
  reduce_zeros chop U S V max_rank thr lapack = Ok (U', S', V', d) ->
  (Rabs (1 - sum_of_squares (firstn (length S') S)) <= THRESHOLD ->
   S' = firstn (length S') S)%R /\
  (THRESHOLD < Rabs (1 - sum_of_squares (firstn (length S') S)) ->
   S' = map (fun s => s / sqrt (sum_of_squares (firstn (length S') S)))
          (firstn (length S') S))%R /\
  (0 < sum_of_squares (firstn (length S') S) ->
   Rabs (1 - sum_of_squares S') <= THRESHOLD)%R.
Proof.
  intro H. apply reduce_zeros_inv in H.
  destruct H as (sum & new & _ & _ & _ & _ & _ & ES & L & _).
  rewrite L. rewrite ES. change (@THRESHOLD R R_scalar) with 1e-9%R.
  apply renormalize_exact.
Qed.

(** The second scenario of the spec: [S = [1, 1]] is kept whole and
    divided by [sqrt 2]. *)
Lemma retained_vector_is_normalised_run :
  exists U' S' V' d,
    reduce_zeros 0%R (identity 2) [1; 1]%R (identity 2) 2 0%R false = Ok (U', S', V', d) /\
    (0 < sum_of_squares (firstn (length S') [1; 1]%R) ->
     Rabs (1 - sum_of_squares S') <= THRESHOLD)%R.
Proof.
  destruct (@reduce_zeros_returns R R_scalar 0%R (identity 2) [1; 1]%R (identity 2)
              2 0%R false) as (U' & S' & V' & d & E).
  { etransitivity; [apply Nat.le_min_r | cbn; lia]. }
  { etransitivity; [apply Nat.le_min_r | cbn; lia]. }
  exists U', S', V', d. split; [exact E |].
  apply (@retained_vector_is_normalised 0%R (identity 2) [1; 1]%R (identity 2)
           2 0%R false U' S' V' d E).
Defined.

(** C4, as the claim states it.  On [S = [0]] no [CHOP_THRESHOLD] and no
    [U], [V] make [reduce_zeros] leave a vector whose sum of squares is
    within [THRESHOLD] of 1: the sum of squares retained is 0, and so is
    the sum after the division. *)
Lemma zero_vector_is_not_normalised :
  ~ exists chop U V lapack U' S' V' d,
      reduce_zeros chop U [0]%R V 1 0%R lapack = Ok (U', S', V', d) /\
      (Rabs (1 - sum_of_squares S') <= THRESHOLD)%R.
Proof.
  intros (chop & U & V & lapack & U' & S' & V' & d & H & Hn).
  pose proof (num_of_SV_le_length [0]%R chop) as HL. cbn [length] in HL.
  apply reduce_zeros_inv in H.
  destruct H as (sum & new & _ & B1 & _ & _ & _ & ES & _ & _).
  assert (Hnew : new <= 1) by lia.
  change (@THRESHOLD R R_scalar) with 1e-9%R in Hn.
  assert (Z : sum_of_squares S' = 0%R).
  { subst S'. unfold renormalize.
    destruct (negb _); destruct new as [| [| new]]; try lia;
      cbn [firstn map]; unfold sum_of_squares; cbn [fold_left]; r_unfold; lra. }
  rewrite Z in Hn. apply Rabs_le_iff in Hn. lra.
Qed.

(** ** Rank idempotence *)

Lemma resize_same {F : Type} {SF : Scalar F} (M : cmatrix_t F) :
  well_formed M -> resize M (GetRows M) (GetColumns M) = Ok M.
Proof.
  intros [HR HC]. unfold resize.
  rewrite !Nat.leb_refl. cbn [andb].
  destruct M as [r c rows]. cbn [GetRows GetColumns elems] in *.
  f_equal. f_equal.
  rewrite <- HR, firstn_all.
  clear HR. induction rows as [| row rows IH]; [reflexivity |].
  inversion HC; subst. cbn [map]. rewrite firstn_all. f_equal. apply IH. assumption.
Qed.

Section Idempotence.
Local Open Scope R_scope.

Lemma num_of_SV_all_significant (chop : R) (S : list R) :
  Forall (fun s => chop < s * s) S -> num_of_SV S chop = length S.
Proof.
  intro H. unfold num_of_SV.
  assert (G : forall l a,
             Forall (fun s => chop < s * s) l ->
             fold_left (fun sum s => if (chop <? norm s)%sc then Datatypes.S sum else sum) l a
             = (a + length l)%nat).
  { induction l as [| s l IH]; intros a Hl; cbn [fold_left length]; [lia |].
    inversion Hl; subst. r_unfold.
    rewrite (@Rltb_true_intro chop (s * s)) by assumption.
    rewrite IH by assumption. lia. }
  apply (G S 0%nat H).
Qed.

(** With a budget of zero the sweep drops nothing. *)
Lemma tail_sweep_zero_budget (S : list R) (n : nat) (sum : R) (new : nat) :
  (n <= length S)%nat -> tail_sweep S 0 n = Ok (sum, new) -> new = n.
Proof.
  intros Hn E. apply tail_sweep_exact in E; [| exact Hn].
  destruct E as [[En _] | (b & Hb & En & _ & Hall)]; [exact En |].
  destruct (Nat.eq_dec (b + 1) n) as [Heq | Hne]; [lia |].
  specialize (Hall (b + 1)%nat ltac:(lia)).
  pose proof (tail_mass_nonneg S (b + 1) n). lra.
Qed.

End Idempotence.

(** C6, as the code has it.  When every entry of [S] is significant
    ([|S_i|^2 > CHOP_THRESHOLD]), [max_rank >= len(S)], the budget is 0, the
    sum of squares of [S] is within [THRESHOLD] of 1, and [U] and [V] have
    [len(S)] columns (rows, for [V] with [mps_lapack]), [reduce_zeros]
    leaves [U], [S] and [V] as they are and returns 0. *)
Theorem rank_idempotence
  (chop : R) (U : cmatrix_t R) (S : rvector_t R) (V : cmatrix_t R)
  (max_rank : nat) (lapack : bool) :
  Forall (fun s => chop < s * s)%R S ->
  length S <= max_rank ->
  (Rabs (1 - sum_of_squares S) <= THRESHOLD)%R ->
  well_formed U -> GetColumns U = length S ->
  well_formed V -> (if lapack then GetRows V else GetColumns V) = length S ->
  reduce_zeros chop U S V max_rank 0%R lapack = Ok (U, S, V, 0%R).
Proof.
  intros Hsig Hmax Hnorm WU CU WV CV.
  pose proof (num_of_SV_all_significant Hsig) as N.
  destruct (@reduce_zeros_returns R R_scalar chop U S V max_rank 0%R lapack)
    as (U' & S' & V' & d & E).
  { rewrite N. lia. }
  { rewrite N. destruct lapack; lia. }
  rewrite E. apply reduce_zeros_inv in E.
  destruct E as (sum & new & E & _ & _ & EU & EV & ES & _ & D).
  rewrite N in *. replace (Nat.min (length S) max_rank) with (length S) in E by lia.
  apply tail_sweep_zero_budget in E; [| lia]. subst new.
  rewrite <- CU in EU. rewrite (resize_same WU) in EU.
  assert (EV' : Ok V = Ok V').
  { destruct lapack; rewrite <- CV in EV; rewrite (resize_same WV) in EV; exact EV. }
  rewrite firstn_all in ES.
  rewrite Nat.sub_diag in D. cbn [firstn] in D.
  change (@THRESHOLD R R_scalar) with 1e-9%R in Hnorm.
  rewrite (proj1 (renormalize_exact S) Hnorm) in ES.
  inversion EU; inversion EV'; subst. reflexivity.
Qed.

(** On [S = [0.6, 0.8]]: both entries are significant, the squares add up
    to 1, and nothing changes. *)
Lemma rank_idempotence_run :
  reduce_zeros 0%R (identity 2) [0.6; 0.8]%R (identity 2) 2 0%R false
  = Ok (identity 2, [0.6; 0.8]%R, identity 2, 0%R).
Proof.
  apply rank_idempotence.
  - repeat constructor; lra.
  - cbn [length]. lia.
  - unfold sum_of_squares. cbn [fold_left]. r_unfold.
    apply Rabs_le_iff. lra.
  - unfold well_formed, identity, mk_matrix. cbn [elems GetRows GetColumns seq map length].
    split; [reflexivity | repeat constructor].
  - reflexivity.
  - unfold well_formed, identity, mk_matrix. cbn [elems GetRows GetColumns seq map length].
    split; [reflexivity | repeat constructor].
  - reflexivity.
Defined.

(** C6, as the claim states it.  On [S = [1, 0]], whose squares add up to
    1, with [max_rank = 2], a budget of 0 and [U = V] the identity of order
    2, for no [CHOP_THRESHOLD >= 0] does [reduce_zeros] leave the triple
    as it is: the entry 0 is not significant and is cut. *)
Lemma rank_idempotence_fails_on_a_zero_entry :
  ~ exists chop,
      (0 <= chop)%R /\
      reduce_zeros chop (identity 2) [1; 0]%R (identity 2) 2 0%R false
      = Ok (identity 2, [1; 0]%R, identity 2, 0%R).
Proof.
  intros (chop & Hc & H).
  assert (N : num_of_SV [1; 0]%R chop <= 1).
  { unfold num_of_SV. cbn [fold_left]. r_unfold.
    rewrite (@Rltb_false_intro chop (0 * 0)%R) by lra.
    destruct (Rltb chop (1 * 1)); lia. }
  apply reduce_zeros_inv in H.
  destruct H as (sum & new & _ & B1 & _ & _ & _ & _ & L & _).
  cbn [length] in L. lia.
Qed.

(** ** [diag] *)

(** A loop that returns: an invariant that every round re-establishes holds
    at the end. *)
Lemma iterate_computes {St} (P : nat -> St -> Prop) (body : Z -> St -> result St) :
  forall count a st,
    P a st ->
    (forall k s, a <= k < a + count -> P k s ->
                 exists s', body (Z.of_nat k) s = Ok s' /\ P (S k) s') ->
    exists st', iterate count (Z.of_nat a) 1 body st = Ok st' /\ P (a + count) st'.
Proof.
  induction count as [| count IH]; intros a st HP Hbody.
  - exists st. split; [reflexivity |]. rewrite Nat.add_0_r. exact HP.
  - destruct (Hbody a st ltac:(lia) HP) as (s' & E & HP').
    cbn [iterate]. rewrite E. cbn [bind].
    replace (Z.of_nat a + 1)%Z with (Z.of_nat (S a)) by lia.
    destruct (IH (S a) s' HP') as (st' & E' & HP'').
    { intros k s Hk. apply Hbody. lia. }
    exists st'. split; [exact E' |].
    replace (a + S count) with (S a + count) by lia. exact HP''.
Qed.

(** A loop whose round [a + k] fails, after [k] rounds that keep the
    invariant, fails the same way. *)
Lemma iterate_fails {St} (P : nat -> St -> Prop) (body : Z -> St -> result St)
  (e : fault) :
  forall k count a st,
    k < count ->
    P a st ->
    (forall j s, a <= j < a + k -> P j s ->
                 exists s', body (Z.of_nat j) s = Ok s' /\ P (S j) s') ->
    (forall s, P (a + k) s -> body (Z.of_nat (a + k)) s = Err e) ->
    iterate count (Z.of_nat a) 1 body st = Err e.
Proof.
  induction k as [| k IH]; intros count a st Hk HP Hbody Hfail.
  - destruct count as [| count]; [lia |].
    cbn [iterate]. rewrite Nat.add_0_r in Hfail. rewrite (Hfail st HP). reflexivity.
  - destruct count as [| count]; [lia |].
    destruct (Hbody a st ltac:(lia) HP) as (s' & E & HP').
    cbn [iterate]. rewrite E. cbn [bind].
    replace (Z.of_nat a + 1)%Z with (Z.of_nat (S a)) by lia.
    apply (IH count (S a) s'); auto; try lia.
    + intros j s Hj. apply Hbody. lia.
    + intros s Hs. replace (S a + k) with (a + S k) in * by lia. apply Hfail. exact Hs.
Qed.

Lemma list_set_middle {A} (l1 l2 : list A) (x y : A) (n : nat) :
  length l1 = n -> list_set (l1 ++ x :: l2) n y = l1 ++ y :: l2.
Proof.
  intros <-. induction l1 as [| h t IH]; simpl; [reflexivity | f_equal; exact IH].
Qed.

Lemma nth_error_middle {A} (l1 l2 : list A) (x : A) (n : nat) :
  length l1 = n -> nth_error (l1 ++ x :: l2) n = Some x.
Proof.
  intros <-. induction l1 as [| h t IH]; simpl; [reflexivity | exact IH].
Qed.

Lemma map_const_seq {A} (x : A) (n : nat) :
  forall a, map (fun _ => x) (seq a n) = repeat x n.
Proof.
  induction n as [| n IH]; intro a; simpl; [reflexivity | f_equal; apply IH].
Qed.

Section Diag.
Context {F : Type} {SF : Scalar F}.

Lemma mset_diag_rows (S : rvector_t F) (m n a k : nat) (x : complex_t F) :
  a < m -> k < n -> x = diag_entry S a k ->
  mset (Matrix m n (diag_rows S m n a k)) (Z.of_nat a) (Z.of_nat k) x
  = Ok (Matrix m n (diag_rows S m n a (Datatypes.S k))).
Proof.
  intros Ha Hk Hx. unfold mset. cbn [GetRows GetColumns elems].
  assert (R1 : in_range (Z.of_nat a) m = true) by (apply in_range_iff; lia).
  assert (R2 : in_range (Z.of_nat k) n = true) by (apply in_range_iff; lia).
  rewrite R1, R2. cbn [andb]. rewrite !Nat2Z.id.
  unfold diag_rows.
  set (pre := map (fun i => map (diag_entry S i) (seq 0 n)) (seq 0 a)).
  assert (Lp : length pre = a) by (unfold pre; rewrite length_map, length_seq; reflexivity).
  rewrite (nth_error_middle pre _ _ Lp).
  assert (R3 : in_range (Z.of_nat k)
                 (length (map (diag_entry S a) (seq 0 k) ++ repeat c0 (n - k))) = true).
  { apply in_range_iff. rewrite length_app, length_map, length_seq, repeat_length. lia. }
  rewrite R3. f_equal. f_equal.
  rewrite (list_set_middle pre _ _ _ Lp). f_equal. f_equal.
  replace (n - k) with (Datatypes.S (n - Datatypes.S k)) by lia. cbn [repeat].
  set (l1 := map (diag_entry S a) (seq 0 k)).
  assert (L1 : length l1 = k) by (unfold l1; rewrite length_map, length_seq; reflexivity).
  rewrite (list_set_middle l1 _ _ _ L1).
  rewrite seq_S, map_app. cbn [map Nat.add]. rewrite <- app_assoc. cbn [app].
  rewrite Hx. reflexivity.
Qed.

(** A row that is done is the next row not yet begun. *)
Lemma diag_rows_next (S : rvector_t F) (m n a : nat) :
  Datatypes.S a < m ->
  diag_rows S m n a n = diag_rows S m n (Datatypes.S a) 0.
Proof.
  intro Ha. unfold diag_rows.
  rewrite Nat.sub_diag, Nat.sub_0_r.
  rewrite seq_S, map_app. cbn [map Nat.add]. rewrite <- app_assoc. cbn [app].
  change (seq 0 0) with (@nil nat). cbn [repeat map app].
  rewrite app_nil_r.
  replace (m - a - 1) with (Datatypes.S (m - Datatypes.S a - 1)) by lia.
  reflexivity.
Qed.

Lemma diag_rows_start (S : rvector_t F) (m n : nat) :
  0 < m -> elems (zeros m n) = diag_rows S m n 0 0.
Proof.
  intro Hm. unfold zeros, mk_matrix, diag_rows. cbn [elems seq map app].
  rewrite Nat.sub_0_r.
  rewrite (map_ext _ (fun _ => repeat c0 n)) by (intro; apply map_const_seq).
  rewrite map_const_seq.
  replace m with (Datatypes.S (m - 0 - 1)) at 1 by lia. reflexivity.
Qed.

Lemma diag_rows_end (S : rvector_t F) (m n : nat) :
  0 < m ->
  Matrix m n (diag_rows S m n (m - 1) n) = mk_matrix m n (diag_entry S).
Proof.
  intro Hm. unfold mk_matrix, diag_rows. f_equal.
  rewrite Nat.sub_diag. cbn [repeat]. rewrite app_nil_r.
  replace (m - (m - 1) - 1) with 0 by lia. cbn [repeat].
  replace m with (Datatypes.S (m - 1)) at 3 by lia.
  rewrite seq_S, map_app. reflexivity.
Qed.

Lemma diag_round_ok (S : rvector_t F) (m n a k : nat) :
  a < m -> k < n -> (a = k -> a < length S) ->
  diag_round S (Z.of_nat a) (Z.of_nat k) (Matrix m n (diag_rows S m n a k))
  = Ok (Matrix m n (diag_rows S m n a (Datatypes.S k))).
Proof.
  intros Ha Hk HS. unfold diag_round.
  destruct (Z.of_nat a =? Z.of_nat k)%Z eqn:E.
  - apply Z.eqb_eq in E. assert (a = k) by lia. subst k.
    rewrite (vget_nat "S" S f0 (HS eq_refl)). cbn [bind].
    apply mset_diag_rows; auto.
    unfold diag_entry. rewrite Nat.eqb_refl. reflexivity.
  - apply Z.eqb_neq in E. cbn [bind].
    apply mset_diag_rows; auto.
    unfold diag_entry. replace (Nat.eqb a k) with false; [reflexivity |].
    symmetry. apply Nat.eqb_neq. lia.
Qed.

Lemma diag_row_ok (S : rvector_t F) (m n a : nat) :
  a < m -> (a < n -> a < length S) ->
  for_up 0 (Z.of_nat n) (diag_round S (Z.of_nat a)) (Matrix m n (diag_rows S m n a 0))
  = Ok (Matrix m n (diag_rows S m n a n)).
Proof.
  intros Ha HS. unfold for_up.
  replace (Z.to_nat (Z.of_nat n - 0)) with n by lia.
  destruct (@iterate_computes _
              (fun k Res => Res = Matrix m n (diag_rows S m n a k))
              (diag_round S (Z.of_nat a)) n 0 (Matrix m n (diag_rows S m n a 0)) eq_refl)
    as (st' & E & HP).
  - intros k s Hk ->. eexists. split; [| reflexivity].
    apply diag_round_ok; auto; try lia.
  - change (Z.of_nat 0) with 0%Z in E. rewrite E. f_equal. exact HP.
Qed.

Lemma diag_row_fails (S : rvector_t F) (m n a : nat) :
  a < m -> a < n -> a = length S ->
  for_up 0 (Z.of_nat n) (diag_round S (Z.of_nat a)) (Matrix m n (diag_rows S m n a 0))
  = Err (OutOfRange "S" (Z.of_nat a)).
Proof.
  intros Ha Hn HS. unfold for_up.
  replace (Z.to_nat (Z.of_nat n - 0)) with n by lia.
  change 0%Z with (Z.of_nat 0).
  apply (@iterate_fails _
           (fun k Res => Res = Matrix m n (diag_rows S m n a k))
           (diag_round S (Z.of_nat a)) _ a n 0); auto.
  - intros k s Hk ->. eexists. split; [| reflexivity].
    apply diag_round_ok; auto; lia.
  - intros s ->. cbn [Nat.add]. unfold diag_round.
    rewrite Z.eqb_refl. rewrite vget_out_of_range by lia. reflexivity.
Qed.

Lemma diag_in_range (S : rvector_t F) (m n : nat) :
  Nat.min m n <= length S ->
  diag S m n = Ok (mk_matrix m n (diag_entry S)).
Proof.
  intro H. unfold diag, for_up at 1.
  replace (Z.to_nat (Z.of_nat m - 0)) with m by lia.
  change 0%Z with (Z.of_nat 0) at 1.
  destruct m as [| m']; [reflexivity |].
  set (m := Datatypes.S m') in *.
  destruct (@iterate_computes _
              (fun a Res =>
                 (a < m /\ Res = Matrix m n (diag_rows S m n a 0)) \/
                 (a = m /\ Res = Matrix m n (diag_rows S m n (m - 1) n)))
              (fun i Res => for_up 0 (Z.of_nat n) (diag_round S i) Res)
              m 0 (zeros m n)) as (st' & E & HP).
  - left. split; [lia |].
    unfold zeros, mk_matrix. f_equal.
    apply (diag_rows_start S (m := m) n). lia.
  - intros a s Ha [[_ ->] | [Hm _]]; [| lia].
    rewrite diag_row_ok by lia.
    eexists. split; [reflexivity |].
    destruct (Nat.eq_dec (Datatypes.S a) m) as [Heq | Hne].
    + right. split; [exact Heq |]. replace (m - 1) with a by lia. reflexivity.
    + left. split; [lia |]. rewrite diag_rows_next by lia. reflexivity.
  - cbn [Nat.add] in HP. rewrite E. f_equal.
    destruct HP as [[Hlt _] | [_ ->]]; [lia |].
    apply diag_rows_end. lia.
Qed.

Lemma diag_past_the_end (S : rvector_t F) (m n : nat) :
  length S < Nat.min m n ->
  diag S m n = Err (OutOfRange "S" (Z.of_nat (length S))).
Proof.
  intro H. unfold diag, for_up at 1.
  replace (Z.to_nat (Z.of_nat m - 0)) with m by lia.
  change 0%Z with (Z.of_nat 0) at 1.
  apply (@iterate_fails _
           (fun a Res => Res = Matrix m n (diag_rows S m n a 0))
           (fun i Res => for_up 0 (Z.of_nat n) (diag_round S i) Res)
           _ (length S) m 0); try lia.
  - unfold zeros, mk_matrix. f_equal.
    apply (diag_rows_start S (m := m) n). lia.
  - intros a s Ha ->. rewrite diag_row_ok by lia.
    eexists. split; [reflexivity |].
    rewrite diag_rows_next by lia. reflexivity.
  - intros s ->. cbn [Nat.add]. apply diag_row_fails; lia.
Qed.

(** C9, as the code has it.  When [S] has at least [min(m, n)] entries,
    [diag(S, m, n)] returns the m x n matrix with [S_i] at [(i, i)] for
    every [i < min(m, n)] and zero elsewhere.  When [S] is shorter, line 75
    reads [S[len(S)]], one past the end of the vector: no zero is put
    there. *)
Theorem diag_fills_the_diagonal_from_S (S : rvector_t F) (m n : nat) :
  (Nat.min m n <= length S ->
   diag S m n = Ok (mk_matrix m n (diag_entry S))) /\
  (length S < Nat.min m n ->
   diag S m n = Err (OutOfRange "S" (Z.of_nat (length S)))).
Proof.
  split; [apply diag_in_range | apply diag_past_the_end].
Qed.

End Diag.

(** [diag] on a vector of two entries, for a 2x3 and for a 3x3 matrix. *)
Lemma diag_fills_the_diagonal_from_S_run :
  diag [1; 2]%float 2 3 = Ok (mk_matrix 2 3 (diag_entry [1; 2]%float)) /\
  diag [1; 2]%float 3 3 = Err (OutOfRange "S" 2).
Proof.
  split.
  - apply (proj1 (@diag_fills_the_diagonal_from_S float float_scalar [1; 2]%float 2 3)).
    cbn. lia.
  - apply (proj2 (@diag_fills_the_diagonal_from_S float float_scalar [1; 2]%float 3 3)).
    cbn. lia.
Defined.

(** C9, as the claim states it.  [diag([1], 2, 2)] does not return the
    matrix with a zero at the diagonal position [(1, 1)]: it reads [S[1]],
    past the end of [S]. *)
Lemma diag_of_a_short_vector_reads_past_the_end :
  diag [1]%float 2 2 = Err (OutOfRange "S" 1) /\
  diag [1]%float 2 2
  <> Ok (real_matrix [[1; 0]; [0; 0]]%float).
Proof.
  split; [vm_compute; reflexivity | vm_compute; discriminate].
Qed.

(** ** [validate_SVD_result] *)

(** A loop with an empty state whose rounds return or fail with [e]: it
    returns when every round returns, and fails with [e] when one does. *)
Lemma iterate_unit_search (body : Z -> unit -> result unit) (e : fault) :
  forall count a,
    (forall k, a <= k < a + count ->
               body (Z.of_nat k) tt = Ok tt \/ body (Z.of_nat k) tt = Err e) ->
    (iterate count (Z.of_nat a) 1 body tt = Ok tt /\
     forall k, a <= k < a + count -> body (Z.of_nat k) tt = Ok tt) \/
    (iterate count (Z.of_nat a) 1 body tt = Err e /\
     exists k, a <= k < a + count /\ body (Z.of_nat k) tt = Err e).
Proof.
  induction count as [| count IH]; intros a H.
  - left. split; [reflexivity | intros k Hk; lia].
  - cbn [iterate].
    destruct (H a ltac:(lia)) as [E | E]; rewrite E; cbn [bind].
    + replace (Z.of_nat a + 1)%Z with (Z.of_nat (S a)) by lia.
      destruct (IH (S a)) as [[E1 Hall] | [E1 (k & Hk & Ek)]].
      * intros k Hk. apply H. lia.
      * left. split; [exact E1 |].
        intros k Hk. destruct (Nat.eq_dec k a) as [-> | Hne]; [exact E |].
        apply Hall. lia.
      * right. split; [exact E1 |]. exists k. split; [lia | exact Ek].
    + right. split; [reflexivity |]. exists a. split; [lia | exact E].
Qed.

Section Matrices.
Context {F : Type} {SF : Scalar F}.

Lemma mget_entry (M : cmatrix_t F) (i j : nat) :
  well_formed M -> i < GetRows M -> j < GetColumns M ->
  mget M (Z.of_nat i) (Z.of_nat j) = Ok (entry M i j).
Proof.
  intros [HR HC] Hi Hj. unfold mget, entry.
  assert (R1 : in_range (Z.of_nat i) (GetRows M) = true) by (apply in_range_iff; lia).
  assert (R2 : in_range (Z.of_nat j) (GetColumns M) = true) by (apply in_range_iff; lia).
  rewrite R1, R2. cbn [andb]. rewrite !Nat2Z.id.
  destruct (nth_error (elems M) i) as [row |] eqn:N.
  - assert (Hrow : length row = GetColumns M).
    { rewrite Forall_forall in HC. apply HC. eapply nth_error_In. exact N. }
    rewrite (nth_error_nth (elems M) i [] N).
    destruct (nth_error row j) as [x |] eqn:N'.
    + rewrite (nth_error_nth row j c0 N'). reflexivity.
    + apply nth_error_None in N'. lia.
  - apply nth_error_None in N. lia.
Qed.

Lemma well_formed_mk_matrix (r c : nat) (f : nat -> nat -> complex_t F) :
  well_formed (mk_matrix r c f).
Proof.
  unfold well_formed, mk_matrix. cbn [elems GetRows GetColumns]. split.
  - rewrite length_map, length_seq. reflexivity.
  - apply Forall_forall. intros row Hin. apply in_map_iff in Hin.
    destruct Hin as (i & <- & _). rewrite length_map, length_seq. reflexivity.
Qed.

End Matrices.

Section Validate.
Local Open Scope R_scope.

Lemma check_entry_exact (A P : cmatrix_t R) (i j : nat) :
  well_formed A -> well_formed P ->
  (i < GetRows A)%nat -> (j < GetColumns A)%nat ->
  (i < GetRows P)%nat -> (j < GetColumns P)%nat ->
  (magnitude_gap A P i j <= 1e-9 /\
   check_entry A P (Z.of_nat i) (Z.of_nat j) tt = Ok tt) \/
  (1e-9 < magnitude_gap A P i j /\
   check_entry A P (Z.of_nat i) (Z.of_nat j) tt = Err wrong_svd).
Proof.
  intros WA WP Hi Hj Hi' Hj'. unfold check_entry.
  rewrite (mget_entry WA Hi Hj), (mget_entry WP Hi' Hj'). cbn [bind].
  unfold almost_equal, THRESHOLD. cbv [fleb fabs fsub lit_1e_9 R_scalar].
  match goal with
  | |- context [Rleb ?x ?y] => destruct (Rleb x y) eqn:T
  end; cbn [negb].
  - left. apply Rleb_true_iff in T. split; [exact T | reflexivity].
  - right. apply Rleb_false_iff in T. split; [exact T | reflexivity].
Qed.

Lemma check_row_exact (A P : cmatrix_t R) (i : nat) :
  well_formed A -> well_formed P ->
  (i < GetRows A)%nat -> GetRows P = GetRows A -> GetColumns P = GetColumns A ->
  (for_up 0 (Z.of_nat (GetColumns A)) (check_entry A P (Z.of_nat i)) tt = Ok tt /\
   forall j, (j < GetColumns A)%nat -> magnitude_gap A P i j <= 1e-9) \/
  (for_up 0 (Z.of_nat (GetColumns A)) (check_entry A P (Z.of_nat i)) tt = Err wrong_svd /\
   exists j, (j < GetColumns A)%nat /\ 1e-9 < magnitude_gap A P i j).
Proof.
  intros WA WP Hi HR HC. unfold for_up.
  replace (Z.to_nat (Z.of_nat (GetColumns A) - 0)) with (GetColumns A) by lia.
  change 0%Z with (Z.of_nat 0).
  destruct (@iterate_unit_search (check_entry A P (Z.of_nat i)) wrong_svd
              (GetColumns A) 0) as [[E Hall] | [E (j & Hj & Ej)]].
  - intros j Hj.
    destruct (@check_entry_exact A P i j) as [[_ E] | [_ E]]; auto; lia.
  - left. split; [exact E |]. intros j Hj.
    destruct (@check_entry_exact A P i j) as [[G _] | [_ E']]; auto; try lia.
    rewrite Hall in E' by lia. discriminate.
  - right. split; [exact E |]. exists j. split; [lia |].
    destruct (@check_entry_exact A P i j) as [[_ E'] | [G _]]; auto; try lia.
    rewrite Ej in E'. discriminate.
Qed.

Lemma check_all_exact (A P : cmatrix_t R) :
  well_formed A -> well_formed P ->
  GetRows P = GetRows A -> GetColumns P = GetColumns A ->
  (for_up 0 (Z.of_nat (GetRows A))
     (fun ii _ => for_up 0 (Z.of_nat (GetColumns A)) (check_entry A P ii) tt) tt = Ok tt /\
   forall i j, (i < GetRows A)%nat -> (j < GetColumns A)%nat ->
               magnitude_gap A P i j <= 1e-9) \/
  (for_up 0 (Z.of_nat (GetRows A))
     (fun ii _ => for_up 0 (Z.of_nat (GetColumns A)) (check_entry A P ii) tt) tt
   = Err wrong_svd /\
   exists i j, (i < GetRows A)%nat /\ (j < GetColumns A)%nat /\
               1e-9 < magnitude_gap A P i j).
Proof.
  intros WA WP HR HC. unfold for_up at 1 3.
  replace (Z.to_nat (Z.of_nat (GetRows A) - 0)) with (GetRows A) by lia.
  change 0%Z with (Z.of_nat 0) at 1 4.
  destruct (@iterate_unit_search
              (fun ii _ => for_up 0 (Z.of_nat (GetColumns A)) (check_entry A P ii) tt)
              wrong_svd (GetRows A) 0) as [[E Hall] | [E (i & Hi & Ei)]].
  - intros i Hi. cbv beta.
    destruct (@check_row_exact A P i) as [[E _] | [E _]]; auto; lia.
  - left. split; [exact E |]. intros i j Hi Hj.
    destruct (@check_row_exact A P i) as [[_ G] | [E' _]]; auto; try lia.
    cbv beta in Hall. rewrite Hall in E' by lia. discriminate.
  - right. split; [exact E |].
    destruct (@check_row_exact A P i) as [[E' _] | [_ (j & Hj & G)]]; auto; try lia.
    + cbv beta in Ei. rewrite Ei in E'. discriminate.
    + exists i, j. repeat split; auto; lia.
Qed.

End Validate.

(** C8.  For [U] and [V] of the shapes of an SVD of [A] (m x m and n x n)
    and [S] of at least [min(m, n)] entries, [validate_SVD_result] raises
    its error exactly when some entry [(i, j)] has
    [| |A(i,j)| - |P(i,j)| | > THRESHOLD], with
    [P = U . diag(S) . V^dagger], and returns otherwise; it takes its
    arguments by constant reference and returns nothing. *)
Theorem validate_raises_iff_some_entry_differs
  (A U : cmatrix_t R) (S : rvector_t R) (V : cmatrix_t R) :
  well_formed A ->
  Nat.min (GetRows A) (GetColumns A) <= length S ->
  GetRows U = GetRows A -> GetColumns U = GetRows A ->
  GetRows V = GetColumns A -> GetColumns V = GetColumns A ->
  (validate_SVD_result A U S V = Err wrong_svd <->
   exists i j, i < GetRows A /\ j < GetColumns A /\
               (THRESHOLD < magnitude_gap A (reconstruction A U S V) i j)%R) /\
  (validate_SVD_result A U S V = Ok tt <->
   forall i j, i < GetRows A -> j < GetColumns A ->
               (magnitude_gap A (reconstruction A U S V) i j <= THRESHOLD)%R).
Proof.
  intros WA HS RU CU RV CV.
  change (@THRESHOLD R R_scalar) with 1e-9%R.
  assert (E : validate_SVD_result A U S V
              = for_up 0 (Z.of_nat (GetRows A))
                  (fun ii _ => for_up 0 (Z.of_nat (GetColumns A))
                                 (check_entry A (reconstruction A U S V) ii) tt) tt).
  { unfold validate_SVD_result.
    rewrite (diag_in_range S (GetRows A) (GetColumns A) HS).
    cbn [bind]. unfold mat_mul at 1.
    cbn [GetRows GetColumns mk_matrix].
    rewrite CU, Nat.eqb_refl. cbn [bind]. unfold mat_mul.
    cbn [GetRows GetColumns mk_matrix dagger].
    rewrite CV, Nat.eqb_refl. cbn [bind].
    unfold reconstruction. cbn [GetRows GetColumns mk_matrix dagger].
    reflexivity. }
  rewrite E.
  assert (WP : well_formed (reconstruction A U S V))
    by apply well_formed_mk_matrix.
  assert (RP : GetRows (reconstruction A U S V) = GetRows A)
    by (unfold reconstruction; cbn [GetRows GetColumns mk_matrix]; exact RU).
  assert (CP : GetColumns (reconstruction A U S V) = GetColumns A)
    by (unfold reconstruction; cbn [GetRows GetColumns mk_matrix dagger]; exact RV).
  destruct (check_all_exact WA WP RP CP) as [[E' Hall] | [E' Hex]].
  - rewrite E'. split; split; auto; try discriminate.
    intros (i & j & Hi & Hj & G). specialize (Hall i j Hi Hj). lra.
  - rewrite E'. split; split; auto; try discriminate.
    intros Hall. destruct Hex as (i & j & Hi & Hj & G). specialize (Hall i j Hi Hj). lra.
Qed.

(** The statement for [A = U = V] the identity of order 2 and [S = [1, 1]]. *)
Lemma validate_raises_iff_some_entry_differs_run :
  (validate_SVD_result (identity 2) (identity 2) [1; 1]%R (identity 2) = Err wrong_svd <->
   exists i j, i < 2 /\ j < 2 /\
     (THRESHOLD < magnitude_gap (identity 2)
                    (reconstruction (identity 2) (identity 2) [1; 1]%R (identity 2)) i j)%R) /\
  (validate_SVD_result (identity 2) (identity 2) [1; 1]%R (identity 2) = Ok tt <->
   forall i j, i < 2 -> j < 2 ->
     (magnitude_gap (identity 2)
        (reconstruction (identity 2) (identity 2) [1; 1]%R (identity 2)) i j
      <= THRESHOLD)%R).
Proof.
  apply (@validate_raises_iff_some_entry_differs
           (identity 2) (identity 2) [1; 1]%R (identity 2)).
  - apply well_formed_mk_matrix.
  - cbn [identity mk_matrix GetRows GetColumns length Nat.min]. lia.
  - reflexivity.
  - reflexivity.
  - reflexivity.
  - reflexivity.
Defined.

(** Two runs on binary64: the identity with [S = [1, 1]] passes, with
    [S = [1, 0.5]] the entry [(1, 1)] is off by [0.5] and the error is
    raised. *)
Lemma validate_SVD_result_runs :
  validate_SVD_result identity_2 identity_2 [1; 1]%float identity_2 = Ok tt /\
  validate_SVD_result identity_2 identity_2 [1; 0.5]%float identity_2
  = Err (RuntimeError "Error: Wrong SVD calculations: A != USV*").
Proof.
  split; vm_compute; reflexivity.
Qed.

(** ** The singular values that [csvd] returns

    Loops whose invariant looks at the round. *)

Lemma iterate_within {St} (P : St -> Prop) (step : Z)
  (body : Z -> St -> result St) :
  forall count i st st',
    P st ->
    (forall m s s', m < count -> P s ->
       body (i + Z.of_nat m * step)%Z s = Ok s' -> P s') ->
    iterate count i step body st = Ok st' ->
    P st'.
Proof.
  induction count as [| count IH]; intros i st st' HP Hb H; simpl in H.
  - inv_ok. exact HP.
  - apply bind_ok in H. destruct H as (s & E & H).
    apply (IH (i + step)%Z s st'); auto.
    + apply (Hb 0 st s); [lia | exact HP |].
      replace (i + Z.of_nat 0 * step)%Z with i by lia. exact E.
    + intros m s0 s' Hm HP0 E0. apply (Hb (S m) s0 s'); [lia | exact HP0 |].
      replace (i + Z.of_nat (S m) * step)%Z
        with (i + step + Z.of_nat m * step)%Z by lia.
      exact E0.
Qed.

Lemma iterate_break_within {St} (P : St -> Prop) (step : Z)
  (body : Z -> St -> result (flow St)) :
  forall count i st st',
    P st ->
    (forall m s r, m < count -> P s ->
       body (i + Z.of_nat m * step)%Z s = Ok r ->
       P match r with Continue s' => s' | Break s' => s' end) ->
    iterate_break count i step body st = Ok st' ->
    P st'.
Proof.
  induction count as [| count IH]; intros i st st' HP Hb H; simpl in H.
  - inv_ok. exact HP.
  - apply bind_ok in H. destruct H as (r & E & H).
    assert (HP' : P match r with Continue s' => s' | Break s' => s' end).
    { apply (Hb 0 st r); [lia | exact HP |].
      replace (i + Z.of_nat 0 * step)%Z with i by lia. exact E. }
    destruct r as [s | s].
    + apply (IH (i + step)%Z s st'); auto.
      intros m s0 r Hm HP0 E0. apply (Hb (S m) s0 r); [lia | exact HP0 |].
      replace (i + Z.of_nat (S m) * step)%Z
        with (i + step + Z.of_nat m * step)%Z by lia.
      exact E0.
    + inv_ok. exact HP'.
Qed.

(** A loop with [break] and an invariant that follows the rounds: [P m]
    holds before round [m]; [Q] holds on leaving, by [break] or at the
    end. *)
Lemma iterate_break_rounds {St} (Q : St -> Prop) (step : Z)
  (body : Z -> St -> result (flow St)) :
  forall count (P : nat -> St -> Prop) i st st',
    P 0 st ->
    (forall m s r, m < count -> P m s ->
       body (i + Z.of_nat m * step)%Z s = Ok r ->
       match r with Continue s' => P (S m) s' | Break s' => Q s' end) ->
    (forall s, P count s -> Q s) ->
    iterate_break count i step body st = Ok st' ->
    Q st'.
Proof.
  induction count as [| count IH]; intros P i st st' HP Hb HQ H; simpl in H.
  - inv_ok. apply HQ. exact HP.
  - apply bind_ok in H. destruct H as (r & E & H).
    pose proof (Hb 0 st r) as H0.
    replace (i + Z.of_nat 0 * step)%Z with i in H0 by lia.
    specialize (H0 ltac:(lia) HP E).
    destruct r as [s | s].
    + apply (IH (fun m => P (S m)) (i + step)%Z s st'); auto.
      intros m s0 r Hm HP0 E0. apply (Hb (S m) s0 r); [lia | exact HP0 |].
      replace (i + Z.of_nat (S m) * step)%Z
        with (i + step + Z.of_nat m * step)%Z by lia.
      exact E0.
    + inv_ok. exact H0.
Qed.

Lemma iterate_rounds {St} (step : Z) (body : Z -> St -> result St) :
  forall count (P : nat -> St -> Prop) i st st',
    P 0 st ->
    (forall m s s', m < count -> P m s ->
       body (i + Z.of_nat m * step)%Z s = Ok s' -> P (S m) s') ->
    iterate count i step body st = Ok st' ->
    P count st'.
Proof.
  induction count as [| count IH]; intros P i st st' HP Hb H; simpl in H.
  - inv_ok. exact HP.
  - apply bind_ok in H. destruct H as (s & E & H).
    apply (IH (fun m => P (S m)) (i + step)%Z s st'); auto.
    + apply (Hb 0 st s); [lia | exact HP |].
      replace (i + Z.of_nat 0 * step)%Z with i by lia. exact E.
    + intros m s0 s' Hm HP0 E0. apply (Hb (S m) s0 s'); [lia | exact HP0 |].
      replace (i + Z.of_nat (S m) * step)%Z
        with (i + step + Z.of_nat m * step)%Z by lia.
      exact E0.
Qed.

Lemma kept_above_refl {A} (k : Z) (S : list A) : kept_above k S S.
Proof. intros i _. reflexivity. Qed.

Lemma kept_above_trans {A} (k : Z) (S1 S2 S3 : list A) :
  kept_above k S1 S2 -> kept_above k S2 S3 -> kept_above k S1 S3.
Proof. intros H1 H2 i Hi. rewrite (H2 i Hi). apply H1. exact Hi. Qed.

Lemma kept_above_le {A} (j k : Z) (S S' : list A) :
  (j <= k)%Z -> kept_above j S S' -> kept_above k S S'.
Proof. intros Hjk H i Hi. apply H. lia. Qed.

Lemma vset_kept_above {A} (name : string) (v : list A) (j k : Z) (x : A) (v' : list A) :
  vset name v j x = Ok v' -> (j <= k)%Z -> kept_above k v v'.
Proof.
  intros H Hjk. apply vset_ok in H. destruct H as [Hr ->].
  intros i Hi. apply nth_error_list_set_other. lia.
Qed.

(** *** Phase 2 writes [S] at the index [k] it works on and below *)

Section Frame.
Context {F : Type} {SF : Scalar F}.

Lemma cancellation_kept (n l k : Z) (eps : F) (st st' : qr_state) :
  cancellation n l k eps st = Ok st' -> kept_above k (qS st) (qS st').
Proof.
  unfold cancellation, for_up_break. intro H. inv_all.
  match goal with
  | E : iterate_break _ _ _ _ _ = Ok _ |- _ =>
      apply (iterate_break_within
               (fun s : F * F * qr_state => kept_above k (qS st) (qS (snd s)))) in E
  end; auto.
  - apply kept_above_refl.
  - intros m [[cs sn] s] r Hm HK Hb. cbv beta iota in Hb. simpl in HK.
    inv_all; simpl; auto.
    match goal with
    | E : vset "S" _ _ _ = Ok _ |- _ =>
        apply (@vset_kept_above _ _ _ _ k) in E; [| lia]
    end.
    eapply kept_above_trans; eauto.
Qed.

Lemma chase_round_kept (n i : Z) acc (r : flow (bool * F * F * F * F * qr_state)) :
  chase_round n i acc = Ok r ->
  kept_above (i - 1) (qS (snd acc))
    (qS (snd match r with Continue a => a | Break a => a end)).
Proof.
  unfold chase_round. destruct acc as [[[[[failed f] x] cs] sn] st]. intro H.
  inv_all; simpl.
  - apply kept_above_refl.
  - match goal with
    | E : vset "S" _ _ _ = Ok _ |- _ =>
        apply (@vset_kept_above _ _ _ _ (i - 1)%Z) in E; [exact E | lia]
    end.
Qed.

Lemma qr_step_kept (n l k : Z) (w : F) (st st' : qr_state) outcome :
  qr_step n l k w st = Ok (outcome, st') -> kept_above k (qS st) (qS st').
Proof.
  unfold qr_step, for_up_break. intro H. inv_all.
  all: match goal with
  | E : iterate_break _ _ _ _ _ = Ok _ |- _ =>
      apply (iterate_break_within
               (fun s : bool * F * F * F * F * qr_state =>
                  kept_above k (qS st) (qS (snd s)))) in E;
      [ | apply kept_above_refl
        | intros m s r Hm HK Hb; apply chase_round_kept in Hb;
          apply (kept_above_trans HK);
          apply (@kept_above_le _ (l + 1 + Z.of_nat m * 1 - 1)%Z); [lia | exact Hb] ]
  end.
  - simpl in *. auto.
  - simpl in *.
    match goal with
    | E : vset "S" _ _ _ = Ok _ |- _ =>
        apply (@vset_kept_above _ _ _ _ k) in E; [| lia]
    end.
    eapply kept_above_trans; eauto.
Qed.

Lemma qr_iterate_kept (fuel : nat) (n k : Z) (eps : F) :
  forall (st st' : qr_state) outcome w,
    qr_iterate fuel n k eps st = Ok (outcome, w, st') ->
    kept_above k (qS st) (qS st').
Proof.
  induction fuel as [| fuel IH]; intros st st' outcome w H; simpl in H; [discriminate |].
  inv_all.
  all: repeat match goal with
       | E : cancellation _ _ _ _ _ = Ok _ |- _ => apply cancellation_kept in E
       | E : qr_step _ _ _ _ _ = Ok _ |- _ => apply qr_step_kept in E
       | E : qr_iterate _ _ _ _ _ = Ok _ |- _ => apply IH in E
       end.
  all: repeat (try apply kept_above_refl; try assumption;
               try (eapply kept_above_trans; [eassumption |])).
Qed.

(** On [SUCCESS] the value [w] of line 379 is [S[k]]. *)
Lemma qr_iterate_w (fuel : nat) (n k : Z) (eps : F) :
  forall (st st' : qr_state) w,
    qr_iterate fuel n k eps st = Ok (SUCCESS, w, st') ->
    (0 <= k)%Z /\ nth_error (qS st') (Z.to_nat k) = Some w.
Proof.
  induction fuel as [| fuel IH]; intros st st' w H; simpl in H; [discriminate |].
  inv_all.
  all: try match goal with
       | E : qr_iterate _ _ _ _ _ = Ok _ |- _ => apply IH in E; exact E
       end.
  all: match goal with
       | E : vget "S" _ _ = Ok _ |- _ =>
           apply vget_ok in E; destruct E; split; [lia | assumption]
       end.
Qed.

End Frame.

(** *** After the sign sweep no entry is below [-1e-13] *)

Section LowerBound.
Context {F : Type} {SF : Scalar F}.
Hypothesis laws : order_laws F.

Lemma splitting_tolerance_kept (n : Z) (b c S t : rvector_t F) eps S' t' :
  splitting_tolerance n b c S t = Ok (eps, S', t') -> kept_above (n - 1) S S'.
Proof.
  unfold splitting_tolerance, for_up. intro H. inv_all.
  match goal with
  | E : iterate _ _ _ _ _ = Ok _ |- _ =>
      apply (iterate_within
               (fun s : F * rvector_t F * rvector_t F =>
                  kept_above (n - 1) S (snd (fst s)))) in E
  end.
  - simpl in *. assumption.
  - apply kept_above_refl.
  - intros m [[e s] t0] [[e' s'] t0'] Hm HK Hb. simpl in *. inv_all.
    match goal with
    | E : vset "S" _ _ _ = Ok _ |- _ =>
        apply (@vset_kept_above _ _ _ _ (n - 1)%Z) in E; [| lia]
    end.
    eapply kept_above_trans; eauto.
Qed.

Lemma sign_sweep_S (n k : Z) (w : F) (st st' : qr_state) :
  sign_sweep n k w st = Ok st' ->
  (0 <= k)%Z -> nth_error (qS st) (Z.to_nat k) = Some w ->
  (exists w', nth_error (qS st') (Z.to_nat k) = Some w' /\
              fltb w' (fopp lit_1e_13) = false) /\
  (forall i, i <> Z.to_nat k -> nth_error (qS st') i = nth_error (qS st) i).
Proof.
  unfold sign_sweep. intros H Hk Hw.
  destruct (fltb w (fopp lit_1e_13)) eqn:T.
  - inv_all. simpl.
    match goal with
    | E : vset "S" _ _ _ = Ok _ |- _ => apply vset_ok in E; destruct E as [Hr ->]
    end.
    split.
    + exists (fopp w). split.
      * apply nth_error_list_set_same. lia.
      * apply (fopp_clears laws). exact T.
    + intros i Hi. apply nth_error_list_set_other. lia.
  - inv_ok. split; [exists w; auto | auto].
Qed.

Lemma diagonalize_lower_bound (fuel : nat) (n : Z) (eps : F) (st st' : qr_state) :
  diagonalize fuel n eps st = Ok (SUCCESS, st') ->
  kept_above (n - 1) (qS st) (qS st') /\
  forall i x, (Z.of_nat i < n)%Z -> nth_error (qS st') i = Some x ->
              fltb x (fopp lit_1e_13) = false.
Proof.
  unfold diagonalize, for_down_break. intro H.
  apply (@iterate_break_rounds _
           (fun s : status * qr_state =>
              fst s = SUCCESS ->
              kept_above (n - 1) (qS st) (qS (snd s)) /\
              forall i x, (Z.of_nat i < n)%Z -> nth_error (qS (snd s)) i = Some x ->
                          fltb x (fopp lit_1e_13) = false)
           _ _ _
           (fun m (s : status * qr_state) =>
              kept_above (n - 1) (qS st) (qS (snd s)) /\
              forall i x, (n - 1 - Z.of_nat m < Z.of_nat i)%Z -> (Z.of_nat i < n)%Z ->
                          nth_error (qS (snd s)) i = Some x ->
                          fltb x (fopp lit_1e_13) = false)) in H.
  - exact H.
  - simpl. split; [apply kept_above_refl |]. intros; lia.
  - intros m [o s] r Hm [HK HB] Hb. simpl in HK, HB.
    apply bind_ok in Hb. destruct Hb as ([[outcome w] s1] & E1 & Hb).
    cbv beta iota in Hb. destruct outcome.
    + apply bind_ok in Hb. destruct Hb as (s2 & E2 & Hb). inv_ok. simpl.
      pose proof E1 as K1. apply qr_iterate_kept in K1.
      apply qr_iterate_w in E1. destruct E1 as [Hk Hw].
      destruct (@sign_sweep_S _ _ _ _ _ E2 Hk Hw) as [(w' & Hw' & Bw') Hother].
      split.
      * intros i Hi. rewrite Hother by lia. rewrite K1 by lia. apply HK. exact Hi.
      * intros i x Hlo Hhi Hx.
        destruct (Nat.eq_dec i (Z.to_nat (n - 1 + Z.of_nat m * -1))) as [-> | Hne].
        -- rewrite Hw' in Hx. inversion Hx; subst. exact Bw'.
        -- rewrite Hother in Hx by exact Hne. rewrite K1 in Hx by lia.
           apply (HB i x); auto. lia.
    + inv_ok. simpl. discriminate.
  - intros [o s] [HK HB] _. simpl in *. split; [exact HK |].
    intros i x Hi Hx. apply (HB i x); auto. lia.
  - reflexivity.
Qed.

End LowerBound.

(** *** Entries of a matrix after a write *)

Lemma exchange_involutive (j k i : nat) : exchange j k (exchange j k i) = i.
Proof.
  unfold exchange.
  destruct (Nat.eqb_spec i k), (Nat.eqb_spec i j); subst;
    repeat match goal with
    | |- context [Nat.eqb ?a ?b] => destruct (Nat.eqb_spec a b); subst
    end; congruence.
Qed.

Lemma exchange_fixes (j k i : nat) : i <> j -> i <> k -> exchange j k i = i.
Proof.
  unfold exchange. intros Hj Hk.
  destruct (Nat.eqb_spec i k), (Nat.eqb_spec i j); congruence.
Qed.

Lemma nth_list_set {A} (l : list A) (n k : nat) (x d : A) :
  nth k (list_set l n x) d
  = if Nat.eqb n k && Nat.ltb n (length l) then x else nth k l d.
Proof.
  revert n k; induction l as [| h t IH]; intros [| n] [| k]; simpl; auto.
  all: try (destruct (Nat.eqb n k); reflexivity).
Qed.

(** The two writes of lines 515-516 exchange [S[j]] and [S[k]]. *)
Lemma exchange_lookup {A} (S : list A) (j k : nat) (g sk : A) :
  j < length S -> k < length S ->
  nth_error S j = Some g -> nth_error S k = Some sk ->
  forall i, nth_error (list_set (list_set S j sk) k g) i
            = nth_error S (exchange j k i).
Proof.
  intros Hj Hk Gj Gk i. unfold exchange.
  destruct (Nat.eqb_spec i k) as [-> | Nk].
  - rewrite nth_error_list_set_same by (rewrite length_list_set; exact Hk).
    symmetry. exact Gj.
  - rewrite nth_error_list_set_other by congruence.
    destruct (Nat.eqb_spec i j) as [-> | Nj].
    + rewrite nth_error_list_set_same by exact Hj. symmetry. exact Gk.
    + apply nth_error_list_set_other. congruence.
Qed.

Section MatrixEntries.
Context {F : Type} {SF : Scalar F}.

Lemma mget_is_entry (M : cmatrix_t F) (i j : Z) (x : complex_t F) :
  mget M i j = Ok x ->
  (0 <= i < Z.of_nat (GetRows M))%Z /\ (0 <= j < Z.of_nat (GetColumns M))%Z /\
  x = entry M (Z.to_nat i) (Z.to_nat j).
Proof.
  unfold mget, entry. intro H.
  destruct (in_range i (GetRows M)) eqn:Ri; [| discriminate].
  destruct (in_range j (GetColumns M)) eqn:Rj; [| discriminate].
  cbn [andb] in H.
  destruct (nth_error (elems M) (Z.to_nat i)) as [row |] eqn:Erow; [| discriminate].
  destruct (nth_error row (Z.to_nat j)) as [y |] eqn:Ey; [| discriminate].
  inv_ok. apply in_range_iff in Ri. apply in_range_iff in Rj.
  split; [exact Ri | split; [exact Rj |]].
  rewrite (nth_error_nth _ _ _ Erow). rewrite (nth_error_nth _ _ _ Ey). reflexivity.
Qed.

Lemma mset_entry (M : cmatrix_t F) (i j : Z) (x : complex_t F) (M' : cmatrix_t F) :
  mset M i j x = Ok M' ->
  (0 <= i)%Z /\ (0 <= j)%Z /\
  GetRows M' = GetRows M /\ GetColumns M' = GetColumns M /\
  forall r c, entry M' r c
              = if Nat.eqb r (Z.to_nat i) && Nat.eqb c (Z.to_nat j)
                then x else entry M r c.
Proof.
  unfold mset. intro H.
  destruct (in_range i (GetRows M)) eqn:Ri; [| discriminate].
  destruct (in_range j (GetColumns M)) eqn:Rj; [| discriminate].
  cbn [andb] in H.
  destruct (nth_error (elems M) (Z.to_nat i)) as [row |] eqn:Erow; [| discriminate].
  destruct (in_range j (length row)) eqn:Rl; [| discriminate].
  inv_ok. apply in_range_iff in Ri. apply in_range_iff in Rj.
  apply in_range_iff in Rl.
  split; [lia | split; [lia | split; [reflexivity | split; [reflexivity |]]]].
  intros r c. unfold entry. cbn [elems].
  assert (Hlen : Z.to_nat i < length (elems M)).
  { apply nth_error_Some. rewrite Erow. discriminate. }
  rewrite nth_list_set.
  destruct (Nat.eqb_spec (Z.to_nat i) r) as [<- | Nr].
  - apply Nat.ltb_lt in Hlen. rewrite Hlen. cbn [andb].
    rewrite Nat.eqb_refl. cbn [andb].
    rewrite nth_list_set.
    rewrite (nth_error_nth _ _ [] Erow).
    assert (Hj : Nat.ltb (Z.to_nat j) (length row) = true) by (apply Nat.ltb_lt; lia).
    rewrite Hj, andb_true_r.
    rewrite (Nat.eqb_sym c). reflexivity.
  - cbn [andb].
    destruct (Nat.eqb_spec r (Z.to_nat i)); [congruence | reflexivity].
Qed.

(** lines 518-528 exchange the columns [j] and [k] in the rows below [n]. *)
Lemma swap_columns_entry (M : cmatrix_t F) (n j k : Z) (M' : cmatrix_t F) :
  swap_columns M n j k = Ok M' ->
  forall r c, entry M' r c
              = if Nat.ltb r (Z.to_nat n)
                then entry M r (exchange (Z.to_nat j) (Z.to_nat k) c)
                else entry M r c.
Proof.
  unfold swap_columns, for_up. replace (n - 0)%Z with n by lia.
  set (P := fun m (M1 : cmatrix_t F) =>
              forall r c, entry M1 r c
                          = if Nat.ltb r m
                            then entry M r (exchange (Z.to_nat j) (Z.to_nat k) c)
                            else entry M r c).
  change (iterate (Z.to_nat n) 0 1
            (fun i M0 =>
               q <- mget M0 i j ;;
               mik <- mget M0 i k ;;
               M1 <- mset M0 i j mik ;;
               mset M1 i k q) M = Ok M' -> P (Z.to_nat n) M').
  apply iterate_rounds; unfold P.
  - intros r c. reflexivity.
  - intros m M1 M2 Hm HP Hb. inv_ok.
    repeat match goal with
    | E : mget _ _ _ = Ok _ |- _ => apply mget_is_entry in E; destruct E as (? & ? & ?)
    | E : mset _ _ _ _ = Ok _ |- _ =>
        apply mset_entry in E; destruct E as (? & ? & ? & ? & ?)
    end.
    subst. intros r c.
    match goal with
    | E : forall r c, entry M2 r c = _ |- _ => rewrite E
    end.
    match goal with
    | E : forall r c, entry ?M3 r c = if _ && Nat.eqb c (Z.to_nat j) then _ else _ |- _ =>
        rewrite !E
    end.
    replace (Z.to_nat (0 + Z.of_nat m * 1)) with m by lia.
    rewrite !HP. unfold exchange.
    destruct (Nat.eqb_spec r m) as [-> | Nr]; cbn [andb].
    + assert (T : Nat.ltb m (S m) = true) by (apply Nat.ltb_lt; lia).
      rewrite T, Nat.ltb_irrefl.
      destruct (Nat.eqb_spec c (Z.to_nat k)) as [-> | Nk]; [reflexivity |].
      destruct (Nat.eqb_spec c (Z.to_nat j)) as [-> | Nj]; reflexivity.
    + destruct (Nat.ltb_spec r m) as [Lt | Ge].
      * assert (T : Nat.ltb r (S m) = true) by (apply Nat.ltb_lt; lia).
        rewrite T. reflexivity.
      * assert (T : Nat.ltb r (S m) = false) by (apply Nat.ltb_ge; lia).
        rewrite T. reflexivity.
Qed.

End MatrixEntries.

(** *** The selection sort *)

Section SelectMax.
Context {F : Type} {SF : Scalar F}.

(** [select_max] returns [-1.0] and [k] when no entry was above, and an
    entry of [S[k..n-1]] with its index otherwise. *)
Lemma select_max_index (S : rvector_t F) (n k : Z) (g : F) (j : Z) :
  select_max S n k = Ok (g, j) ->
  (g = fopp f1 /\ j = k) \/
  ((0 <= j)%Z /\ (k <= j < n)%Z /\ nth_error S (Z.to_nat j) = Some g).
Proof.
  unfold select_max, for_up. intro H.
  apply (iterate_within
           (fun s : F * Z =>
              (fst s = fopp f1 /\ snd s = k) \/
              ((0 <= snd s)%Z /\ (k <= snd s < n)%Z /\
               nth_error S (Z.to_nat (snd s)) = Some (fst s)))) in H.
  - exact H.
  - left. split; reflexivity.
  - intros m [g0 j0] [g1 j1] Hm HP Hb. simpl in HP. inv_all; simpl.
    + right.
      match goal with
      | E : vget "S" _ _ = Ok _ |- _ => apply vget_ok in E; destruct E as [Hr Hx]
      end.
      split; [lia | split; [lia | exact Hx]].
    + exact HP.
Qed.

Hypothesis laws : order_laws F.

Lemma select_max_largest (S : rvector_t F) (n k : Z) (g : F) (j : Z) :
  select_max S n k = Ok (g, j) ->
  forall (i : nat) (x : F), (k <= Z.of_nat i < n)%Z -> nth_error S i = Some x ->
                            fltb g x = false.
Proof.
  unfold select_max, for_up. intro H.
  enough (G : forall (i : nat) (x : F),
             (k <= Z.of_nat i < k + Z.of_nat (Z.to_nat (n - k)))%Z ->
             nth_error S i = Some x -> fltb g x = false).
  { intros i x Hi Hx. apply (G i x); [lia | exact Hx]. }
  refine (@iterate_rounds _ 1 _ _
            (fun m (s : F * Z) =>
               forall (i : nat) (x : F),
                 (k <= Z.of_nat i < k + Z.of_nat m)%Z -> nth_error S i = Some x ->
                 fltb (fst s) x = false) _ _ (g, j) _ _ H).
  - intros i x Hi. lia.
  - intros m [g0 j0] [g1 j1] Hm HP Hb. simpl in HP.
    apply bind_ok in Hb. destruct Hb as (si & E & Hb).
    apply vget_ok in E. destruct E as [Hr Hsi].
    destruct (fltb g0 si) eqn:T; inv_ok; simpl; intros i x Hi Hx.
    + destruct (Z.eq_dec (Z.of_nat i) (k + Z.of_nat m * 1)) as [Heq | Hne].
      * replace (Z.to_nat (k + Z.of_nat m * 1)) with i in Hsi by lia.
        rewrite Hx in Hsi. inversion Hsi; subst. apply (fltb_irrefl laws).
      * destruct (fltb g1 x) eqn:T'; [| reflexivity].
        rewrite <- (HP i x); [| lia | exact Hx].
        symmetry. apply (fltb_trans laws g0 g1 x); assumption.
    + destruct (Z.eq_dec (Z.of_nat i) (k + Z.of_nat m * 1)) as [Heq | Hne].
      * replace (Z.to_nat (k + Z.of_nat m * 1)) with i in Hsi by lia.
        rewrite Hx in Hsi. inversion Hsi; subst. exact T.
      * apply (HP i x); [lia | exact Hx].
Qed.

End SelectMax.

Section SortOrder.
Context {F : Type} {SF : Scalar F}.

(** One round of the sort either leaves its state or exchanges the
    entries [j] and [k] of [S] and the columns [j] and [k] of [U] and
    [V], for the [j] that [select_max] returns. *)
Lemma sort_round (n k : Z) (S S' : rvector_t F) (U V U' V' : cmatrix_t F) :
  ('(g, j) <- select_max S n k ;;
   if negb (j =? k)%Z then
     sk <- vget "S" S k ;;
     S <- vset "S" S j sk ;;
     S <- vset "S" S k g ;;
     V <- swap_columns V n j k ;;
     U <- swap_columns U n j k ;;
     Ok (S, U, V)
   else Ok (S, U, V)) = Ok (S', U', V') ->
  exists g j, select_max S n k = Ok (g, j) /\
    ((j = k /\ S' = S /\ U' = U /\ V' = V) \/
     ((0 <= k < j)%Z /\ (j < n)%Z /\
      (forall i, nth_error S' i = nth_error S (exchange (Z.to_nat j) (Z.to_nat k) i)) /\
      swap_columns U n j k = Ok U' /\ swap_columns V n j k = Ok V')).
Proof.
  intro H. apply bind_ok in H. destruct H as ([g j] & E & H).
  exists g, j. split; [exact E |].
  destruct (Z.eqb_spec j k) as [-> | Hne]; cbn [negb] in H.
  - inv_ok. left. auto.
  - right. inv_ok.
    apply select_max_index in E. destruct E as [[_ Hjk] | (Hj0 & Hj & Gj)]; [congruence |].
    repeat match goal with
    | E : vget _ _ _ = Ok _ |- _ => apply vget_ok in E; destruct E as [? ?]
    | E : vset _ _ _ _ = Ok _ |- _ => apply vset_ok in E; destruct E as [? ?]
    end.
    subst. rewrite length_list_set in *.
    split; [lia | split; [lia | split; [| split; assumption]]].
    apply exchange_lookup; auto; lia.
Qed.

Hypothesis laws : order_laws F.

Lemma sort_orders (n : Z) (S S' : rvector_t F) (U V U' V' : cmatrix_t F) :
  (forall i x, (Z.of_nat i < n)%Z -> nth_error S i = Some x ->
               fltb x (fopp lit_1e_13) = false) ->
  sort_singular_values n S U V = Ok (S', U', V') ->
  kept_above (n - 1) S S' /\
  (forall i x, (Z.of_nat i < n)%Z -> nth_error S' i = Some x ->
               fltb x (fopp lit_1e_13) = false) /\
  (forall i j x y, i < j -> (Z.of_nat j < n)%Z ->
     nth_error S' i = Some x -> nth_error S' j = Some y -> fltb x y = false).
Proof.
  intros HB0 H. unfold sort_singular_values, for_up in H.
  enough (G : kept_above (n - 1) S S' /\
              (forall i x, (Z.of_nat i < n)%Z -> nth_error S' i = Some x ->
                           fltb x (fopp lit_1e_13) = false) /\
              (forall i j x y, i < Z.to_nat (n - 0) -> i < j -> (Z.of_nat j < n)%Z ->
                 nth_error S' i = Some x -> nth_error S' j = Some y ->
                 fltb x y = false)).
  { destruct G as (G1 & G2 & G3). split; [exact G1 | split; [exact G2 |]].
    intros i j x y Hij Hj. apply G3; lia. }
  refine (@iterate_rounds _ 1 _ _
            (fun m (s : rvector_t F * cmatrix_t F * cmatrix_t F) =>
               kept_above (n - 1) S (fst (fst s)) /\
               (forall i x, (Z.of_nat i < n)%Z -> nth_error (fst (fst s)) i = Some x ->
                            fltb x (fopp lit_1e_13) = false) /\
               (forall i j x y, i < m -> i < j -> (Z.of_nat j < n)%Z ->
                  nth_error (fst (fst s)) i = Some x ->
                  nth_error (fst (fst s)) j = Some y -> fltb x y = false))
            _ _ (S', U', V') _ _ H).
  - simpl. split; [apply kept_above_refl | split; [exact HB0 |]]. intros; lia.
  - intros m [[S1 U1] V1] [[S2 U2] V2] Hm (HK & HB & HO) Hb. simpl in HK, HB, HO.
    cbv beta iota in Hb. apply sort_round in Hb.
    destruct Hb as (g & j & Emax & Hcase).
    replace (0 + Z.of_nat m * 1)%Z with (Z.of_nat m) in * by lia.
    pose proof (@select_max_largest _ _ laws _ _ _ _ _ Emax) as Hlargest.
    simpl.
    destruct Hcase as [(-> & -> & -> & ->) | (Hkj & Hjn & Hex & _ & _)].
    + split; [exact HK | split; [exact HB |]].
      intros i j x y Hi Hij Hj Hx Hy.
      destruct (Nat.eq_dec i m) as [-> | Hne]; [| apply (HO i j x y); auto; lia].
      apply select_max_index in Emax.
      destruct Emax as [[-> _] | (_ & _ & Gk)].
      * apply (fltb_unordered laws).
        -- apply (HB m x); [lia | exact Hx].
        -- apply (Hlargest m x); [lia | exact Hx].
      * rewrite Nat2Z.id in Gk. rewrite Hx in Gk. inversion Gk; subst.
        apply (Hlargest j y); [lia | exact Hy].
    + rewrite Nat2Z.id in Hex.
      assert (Gj : nth_error S1 (Z.to_nat j) = Some g).
      { apply select_max_index in Emax.
        destruct Emax as [[_ ->] | (_ & _ & Gj)]; [lia | exact Gj]. }
      split; [| split].
      * intros i Hi. rewrite Hex. rewrite exchange_fixes by lia. apply HK. exact Hi.
      * intros i x Hi Hx. rewrite Hex in Hx.
        apply (HB (exchange (Z.to_nat j) m i) x); [| exact Hx].
        unfold exchange. destruct (Nat.eqb_spec i m); [lia |].
        destruct (Nat.eqb_spec i (Z.to_nat j)); lia.
      * intros i j' x y Hi Hij Hj Hx Hy. rewrite Hex in Hx, Hy.
        destruct (Nat.eq_dec i m) as [-> | Hne].
        -- unfold exchange in Hx at 1. rewrite Nat.eqb_refl in Hx.
           rewrite Gj in Hx. inversion Hx; subst.
           apply (Hlargest (exchange (Z.to_nat j) m j') y); [| exact Hy].
           unfold exchange. destruct (Nat.eqb_spec j' m); [lia |].
           destruct (Nat.eqb_spec j' (Z.to_nat j)); lia.
        -- rewrite (@exchange_fixes (Z.to_nat j) m i) in Hx by lia.
           apply (HO i (exchange (Z.to_nat j) m j') x y); auto; try lia.
           ++ unfold exchange. destruct (Nat.eqb_spec j' m); [lia |].
              destruct (Nat.eqb_spec j' (Z.to_nat j)); lia.
           ++ unfold exchange. destruct (Nat.eqb_spec j' m); [lia |].
              destruct (Nat.eqb_spec j' (Z.to_nat j)); lia.
Qed.

End SortOrder.

Section Lockstep.
Context {F : Type} {SF : Scalar F}.

Lemma sort_lockstep (n : Z) (S S' : rvector_t F) (U V U' V' : cmatrix_t F) :
  sort_singular_values n S U V = Ok (S', U', V') ->
  exists p, in_lockstep (Z.to_nat n) p S S' U U' V V'.
Proof.
  unfold sort_singular_values, for_up. intro H.
  apply (iterate_within
           (fun s : rvector_t F * cmatrix_t F * cmatrix_t F =>
              exists p, in_lockstep (Z.to_nat n) p S (fst (fst s))
                          U (snd (fst s)) V (snd s))) in H.
  - exact H.
  - exists (fun i => i). unfold in_lockstep. simpl.
    split; [exists (fun i => i); auto |].
    split; [auto | split; [auto |]].
    split; intros r c; destruct (Nat.ltb r (Z.to_nat n)); reflexivity.
  - intros m [[S1 U1] V1] [[S2 U2] V2] Hm (p & (q & Hqp & Hpq) & Hfix & HS & HU & HV) Hb.
    simpl in HS, HU, HV. cbv beta iota in Hb. apply sort_round in Hb.
    destruct Hb as (g & j & _ & Hcase). simpl.
    destruct Hcase as [(_ & -> & -> & ->) | (Hkj & Hjn & Hex & EU & EV)].
    + exists p. unfold in_lockstep. split; [exists q; auto | auto].
    + set (k := (0 + Z.of_nat m * 1)%Z) in *.
      pose proof (swap_columns_entry _ _ _ _ EU) as HU2.
      pose proof (swap_columns_entry _ _ _ _ EV) as HV2.
      exists (fun i => p (exchange (Z.to_nat j) (Z.to_nat k) i)).
      unfold in_lockstep. split; [| split; [| split; [| split]]].
      * exists (fun i => exchange (Z.to_nat j) (Z.to_nat k) (q i)). split; intro i.
        -- rewrite Hqp. apply exchange_involutive.
        -- rewrite exchange_involutive. apply Hpq.
      * intros i Hi. rewrite exchange_fixes by lia. apply Hfix. exact Hi.
      * intro i. rewrite Hex. apply HS.
      * intros r c. rewrite HU2, !HU.
        destruct (Nat.ltb r (Z.to_nat n)); reflexivity.
      * intros r c. rewrite HV2, !HV.
        destruct (Nat.ltb r (Z.to_nat n)); reflexivity.
Qed.

(** lines 492-498: below [-1e-13] the sweep negates [S[k]] and the
    column [k] of [V]; it does nothing else. *)
Lemma sign_sweep_flips (n k : Z) (w : F) (st st' : qr_state) :
  sign_sweep n k w st = Ok st' ->
  (fltb w (fopp lit_1e_13) = true ->
   (0 <= k < Z.of_nat (length (qS st)))%Z /\
   qS st' = list_set (qS st) (Z.to_nat k) (fopp w) /\
   qt st' = qt st /\ qU st' = qU st /\
   forall r c, entry (qV st') r c
               = if Nat.ltb r (Z.to_nat n) && Nat.eqb c (Z.to_nat k)
                 then cneg (entry (qV st) r c) else entry (qV st) r c) /\
  (fltb w (fopp lit_1e_13) = false -> st' = st).
Proof.
  unfold sign_sweep. intro H.
  destruct (fltb w (fopp lit_1e_13)) eqn:T; split; intro T'; try discriminate.
  - inv_ok. simpl.
    match goal with
    | E : vset "S" _ _ _ = Ok _ |- _ => apply vset_ok in E; destruct E as [Hr ->]
    end.
    split; [exact Hr | split; [reflexivity | split; [reflexivity | split; [reflexivity |]]]].
    match goal with
    | E : for_up _ _ _ _ = Ok ?V1 |- _ => revert E; generalize V1
    end.
    intros V1 E. unfold for_up in E. replace (n - 0)%Z with n in E by lia.
    revert E.
    set (P := fun m (V2 : cmatrix_t F) =>
                forall r c, entry V2 r c
                            = if Nat.ltb r m && Nat.eqb c (Z.to_nat k)
                              then cneg (entry (qV st) r c) else entry (qV st) r c).
    change (iterate (Z.to_nat n) 0 1
              (fun j V0 => v <- mget V0 j k ;; mset V0 j k (cneg v)) (qV st) = Ok V1 ->
            P (Z.to_nat n) V1).
    apply iterate_rounds; unfold P.
    + intros r c. reflexivity.
    + intros m V2 V3 Hm HP Hb. inv_ok.
      repeat match goal with
      | E : mget _ _ _ = Ok _ |- _ => apply mget_is_entry in E; destruct E as (? & ? & ?)
      | E : mset _ _ _ _ = Ok _ |- _ =>
          apply mset_entry in E; destruct E as (? & ? & ? & ? & ?)
      end.
      subst. intros r c.
      match goal with
      | E : forall r c, entry V3 r c = _ |- _ => rewrite E
      end.
      replace (Z.to_nat (0 + Z.of_nat m * 1)) with m by lia.
      rewrite !HP.
      destruct (Nat.eqb_spec r m) as [-> | Nr]; cbn [andb].
      * assert (T1 : Nat.ltb m (S m) = true) by (apply Nat.ltb_lt; lia).
        rewrite T1, Nat.ltb_irrefl. cbn [andb].
        destruct (Nat.eqb_spec c (Z.to_nat k)) as [-> | Nk]; reflexivity.
      * destruct (Nat.ltb_spec r m) as [Lt | Ge].
        -- assert (T1 : Nat.ltb r (S m) = true) by (apply Nat.ltb_lt; lia).
           rewrite T1. reflexivity.
        -- assert (T1 : Nat.ltb r (S m) = false) by (apply Nat.ltb_ge; lia).
           rewrite T1. reflexivity.
  - inv_ok. reflexivity.
Qed.

End Lockstep.

(** ** The laws of [<] on the two carriers *)

Lemma R_order_laws : order_laws R.
Proof.
  split.
  - intro a. apply Rltb_false_iff. lra.
  - intros a b c. cbn [fltb R_scalar]. rewrite !Rltb_true_iff. lra.
  - intro w. cbn [fltb fopp lit_1e_13 R_scalar].
    rewrite Rltb_true_iff, Rltb_false_iff. lra.
  - intros x. cbn [fltb fopp lit_1e_13 f1 R_scalar].
    rewrite !Rltb_false_iff. intros H1 H2. exfalso. lra.
Qed.

Lemma SFltb_finite_neg (m1 m2 : positive) (e1 e2 : Z) :
  SFltb (S754_finite true m1 e1) (S754_finite true m2 e2) = true <->
  (e2 < e1 \/ (e1 = e2 /\ (m2 < m1)%positive))%Z.
Proof.
  unfold SFltb, SFcompare.
  destruct (Z.compare_spec e1 e2) as [E | E | E].
  - change (PosDef.Pos.compare_cont Eq m1 m2) with (Pos.compare m1 m2).
    destruct (Pos.compare_spec m1 m2) as [M | M | M]; cbn [CompOpp];
      split; intro H; try discriminate; try reflexivity; try lia.
  - split; intro H; try discriminate; lia.
  - split; intro H; try reflexivity; lia.
Qed.

Lemma SFltb_finite_pos (m1 m2 : positive) (e1 e2 : Z) :
  SFltb (S754_finite false m1 e1) (S754_finite false m2 e2) = true <->
  (e1 < e2 \/ (e1 = e2 /\ (m1 < m2)%positive))%Z.
Proof.
  unfold SFltb, SFcompare.
  destruct (Z.compare_spec e1 e2) as [E | E | E].
  - change (PosDef.Pos.compare_cont Eq m1 m2) with (Pos.compare m1 m2).
    destruct (Pos.compare_spec m1 m2) as [M | M | M];
      split; intro H; try discriminate; try reflexivity; try lia.
  - split; intro H; try reflexivity; lia.
  - split; intro H; try discriminate; lia.
Qed.

Lemma SFltb_trans (a b c : spec_float) :
  SFltb a b = true -> SFltb b c = true -> SFltb a c = true.
Proof.
  destruct a as [sa | sa | | sa ma ea], b as [sb | sb | | sb mb eb],
           c as [sc | sc | | sc mc ec];
    try (destruct sa); try (destruct sb); try (destruct sc);
    try (cbn; intros; (discriminate || reflexivity)).
  - rewrite !SFltb_finite_neg. lia.
  - rewrite !SFltb_finite_pos. lia.
Qed.

Lemma SFltb_irrefl (a : spec_float) : SFltb a a = false.
Proof.
  destruct a as [s | s | | s m e]; try destruct s; try reflexivity.
  - apply not_true_is_false. rewrite SFltb_finite_neg. lia.
  - apply not_true_is_false. rewrite SFltb_finite_pos. lia.
Qed.

Lemma float_order_laws : order_laws float.
Proof.
  split; cbn [fltb fopp lit_1e_13 f1 float_scalar].
  - intro a. rewrite ltb_spec. apply SFltb_irrefl.
  - intros a b c. rewrite !ltb_spec. apply SFltb_trans.
  - intro w. rewrite !ltb_spec. rewrite (opp_spec w).
    assert (E13 : Prim2SF (PrimFloat.opp 1e-13%float)
                  = S754_finite true 7922816251426434 (-96)) by (vm_compute; reflexivity).
    rewrite E13.
    destruct (Prim2SF w) as [s | s | | s m e]; try destruct s;
      cbn [SFopp SFltb SFcompare negb]; intro H; (discriminate H || reflexivity).
  - intros x. rewrite !ltb_spec.
    assert (E13 : Prim2SF (PrimFloat.opp 1e-13%float)
                  = S754_finite true 7922816251426434 (-96)) by (vm_compute; reflexivity).
    assert (E1 : Prim2SF (PrimFloat.opp 1%float)
                 = S754_finite true 4503599627370496 (-52)) by (vm_compute; reflexivity).
    rewrite E13, E1. intros H1 H2 y. rewrite ltb_spec.
    destruct (Prim2SF x) as [s | s | | s m e]; try destruct s;
      try discriminate; try reflexivity.
    exfalso.
    apply not_true_iff_false in H1, H2.
    rewrite SFltb_finite_neg in H1, H2.
    assert (L1 : (e <= -96)%Z).
    { destruct (Z.le_gt_cases e (-96)) as [L | G]; [exact L |].
      exfalso. apply H1. left. exact G. }
    assert (L2 : (-52 <= e)%Z).
    { destruct (Z.le_gt_cases (-52) e) as [L | G]; [exact L |].
      exfalso. apply H2. left. exact G. }
    clear H1 H2. lia.
Qed.

(** *** The phases of [csvd] together *)

Section Leading.
Context {F : Type} {SF : Scalar F}.
Hypothesis laws : order_laws F.

Lemma csvd_leading_entries (fuel : nat) (A U : cmatrix_t F) (S : rvector_t F)
  (V : cmatrix_t F) (args : svd_args) :
  csvd fuel A U S V = Ok (SUCCESS, args) ->
  non_increasing (arg_S args) (Nat.min (GetRows A) (GetColumns A)) /\
  none_below (fopp lit_1e_13) (arg_S args) (Nat.min (GetRows A) (GetColumns A)) /\
  forall i, Nat.min (GetRows A) (GetColumns A) <= i ->
            nth_error (arg_S args) i = nth_error S i.
Proof.
  unfold csvd. intro H.
  destruct (Z.of_nat (GetRows A) <? Z.of_nat (GetColumns A))%Z eqn:T;
    [apply Z.ltb_lt in T | apply Z.ltb_ge in T].
  all: inv_all.
  all: repeat match goal with
       | E : splitting_tolerance _ _ _ _ _ = Ok _ |- _ =>
           apply splitting_tolerance_kept in E
       | E : diagonalize _ _ _ _ = Ok _ |- _ =>
           apply (diagonalize_lower_bound laws) in E; destruct E as [? ?]
       end.
  all: match goal with
       | E : sort_singular_values _ _ _ _ = Ok _ |- _ =>
           apply (sort_orders laws) in E; [destruct E as (? & ? & ?) | assumption]
       end.
  all: simpl in *.
  all: unfold non_increasing, none_below.
  all: split;
         [ intros ia ja va vb Hij Hj Hva Hvb;
           match goal with
           | G : forall i j x y, i < j -> _ |- _ => apply (G ia ja va vb); auto; lia
           end
         | split;
           [ intros ia va Hi Hva;
             match goal with
             | G : forall i x, _ -> nth_error ?s i = Some x -> _,
               Hx : nth_error ?s _ = Some _ |- _ => apply (G ia va); auto; lia
             end
           | intros ia Hi;
             repeat match goal with
             | K : kept_above _ _ _ |- _ => rewrite (K ia) by lia; clear K
             end; reflexivity ] ].
Qed.

End Leading.

(** The spectrum that [csvd] returns.  Under the laws of [<] (they hold
    on binary64 and on the reals): when [csvd] returns [SUCCESS], the first
    [min(rows, cols)] entries of [S] never increase and none of them is
    below [-1e-13], and the entries of [S] past them are the caller's.
    The value [w] that the chase leaves for the index [k] is [S[k]]; when
    it is below [-1e-13] the sign sweep writes [-w] to [S[k]] and negates
    the column [k] of [V], and it does nothing otherwise.  The selection
    sort moves the entries of [S] and the columns of [U] and [V] by one
    permutation of the indices below [n]. *)
Theorem csvd_orders_the_leading_singular_values
  {F : Type} {SF : Scalar F} (laws : order_laws F) :
  (forall (fuel : nat) (A U : cmatrix_t F) (S : rvector_t F) (V : cmatrix_t F)
          (args : svd_args),
     csvd fuel A U S V = Ok (SUCCESS, args) ->
     non_increasing (arg_S args) (Nat.min (GetRows A) (GetColumns A)) /\
     none_below (fopp lit_1e_13) (arg_S args) (Nat.min (GetRows A) (GetColumns A)) /\
     forall i, Nat.min (GetRows A) (GetColumns A) <= i ->
               nth_error (arg_S args) i = nth_error S i) /\
  (forall (fuel : nat) (n k : Z) (eps w : F) (st st' : qr_state),
     qr_iterate fuel n k eps st = Ok (SUCCESS, w, st') ->
     (0 <= k)%Z /\ nth_error (qS st') (Z.to_nat k) = Some w) /\
  (forall (n k : Z) (w : F) (st st' : qr_state),
     sign_sweep n k w st = Ok st' ->
     (fltb w (fopp lit_1e_13) = true ->
      (0 <= k < Z.of_nat (length (qS st)))%Z /\
      qS st' = list_set (qS st) (Z.to_nat k) (fopp w) /\
      qt st' = qt st /\ qU st' = qU st /\
      forall r c, entry (qV st') r c
                  = if Nat.ltb r (Z.to_nat n) && Nat.eqb c (Z.to_nat k)
                    then cneg (entry (qV st) r c) else entry (qV st) r c) /\
     (fltb w (fopp lit_1e_13) = false -> st' = st)) /\
  (forall (n : Z) (S S' : rvector_t F) (U V U' V' : cmatrix_t F),
     sort_singular_values n S U V = Ok (S', U', V') ->
     exists p, in_lockstep (Z.to_nat n) p S S' U U' V V').
Proof.
  split; [| split; [| split]].
  - intros fuel A U S V args H. revert H. apply (csvd_leading_entries laws).
  - intros fuel n k eps w st st' H. revert H. apply qr_iterate_w.
  - intros n k w st st' H. revert H. apply sign_sweep_flips.
  - intros n S S' U V U' V' H. revert H. apply sort_lockstep.
Qed.

(** The statement on binary64, for the 2x3 matrix and a vector of three
    entries: the two singular values come out in order and the third
    entry, [9], stays where the caller put it. *)
Lemma csvd_orders_the_leading_singular_values_run :
  exists args,
    csvd 30 wide_2x3 no_matrix [0; 0; 9]%float no_matrix = Ok (SUCCESS, args) /\
    non_increasing (arg_S args) (Nat.min (GetRows wide_2x3) (GetColumns wide_2x3)) /\
    none_below (fopp lit_1e_13) (arg_S args)
      (Nat.min (GetRows wide_2x3) (GetColumns wide_2x3)) /\
    forall i, Nat.min (GetRows wide_2x3) (GetColumns wide_2x3) <= i ->
              nth_error (arg_S args) i = nth_error [0; 0; 9]%float i.
Proof.
  assert (E : exists args,
             csvd 30 wide_2x3 no_matrix [0; 0; 9]%float no_matrix
             = Ok (SUCCESS, args)).
  { eexists. vm_compute. reflexivity. }
  destruct E as [args E]. exists args. split; [exact E |].
  exact (proj1 (csvd_orders_the_leading_singular_values float_order_laws)
           30 wide_2x3 no_matrix [0; 0; 9]%float no_matrix args E).
Defined.

(** The entries past the smaller extent.  [csvd] writes [S[0]] alone for
    a 1x1 matrix: with [S = [0, 7]] it returns [S = [1, 7]], which
    increases, and with [S = [0, -5]] it returns [S = [1, -5]], which has
    a negative entry. *)
Lemma csvd_leaves_the_entries_past_the_smaller_extent :
  (exists args,
     csvd 10 one_1 no_matrix [0; 7]%float no_matrix = Ok (SUCCESS, args) /\
     arg_S args = [1; 7]%float /\
     ~ non_increasing (arg_S args) (length (arg_S args))) /\
  (exists args,
     csvd 10 one_1 no_matrix [0; -5]%float no_matrix = Ok (SUCCESS, args) /\
     arg_S args = [1; -5]%float /\
     ~ none_below f0 (arg_S args) (length (arg_S args))).
Proof.
  split.
  - eexists. split.
    + vm_compute. reflexivity.
    + split.
      * reflexivity.
      * intro H. specialize (H 0 1 1%float 7%float).
        cbn [arg_S length nth_error] in H.
        specialize (H ltac:(lia) ltac:(lia) eq_refl eq_refl).
        vm_compute in H. discriminate H.
  - eexists. split.
    + vm_compute. reflexivity.
    + split.
      * reflexivity.
      * intro H. specialize (H 1 (-5)%float).
        cbn [arg_S length nth_error] in H.
        specialize (H ltac:(lia) eq_refl).
        vm_compute in H. discriminate H.
Qed.

(** * Further properties of the code *)

(** ** What the loops of [csvd] keep of [U] and [V] *)

Lemma Forall_list_set {A} (P : A -> Prop) (l : list A) (n : nat) (x : A) :
  Forall P l -> P x -> Forall P (list_set l n x).
Proof.
  intros Hl Hx. revert n. induction Hl as [| h t Hh Ht IH]; intros [| n]; simpl; auto.
Qed.

Section Keeps.
Context {F : Type} {SF : Scalar F}.

Lemma mset_has_extents (r c : nat) (M : cmatrix_t F) (i j : Z) (x : complex_t F)
  (M' : cmatrix_t F) :
  mset M i j x = Ok M' -> has_extents r c M -> has_extents r c M'.
Proof.
  unfold mset. intros H (HR & HC & HL & HF).
  destruct (in_range i (GetRows M) && in_range j (GetColumns M)); [| discriminate].
  destruct (nth_error (elems M) (Z.to_nat i)) as [row |] eqn:Erow; [| discriminate].
  destruct (in_range j (length row)); [| discriminate].
  injection H as E. rewrite <- E.
  unfold has_extents, well_formed. cbn [GetRows GetColumns elems].
  split; [exact HR | split; [exact HC | split]].
  - rewrite length_list_set. exact HL.
  - apply Forall_list_set; [exact HF |].
    rewrite length_list_set.
    apply nth_error_In in Erow.
    rewrite Forall_forall in HF. apply HF. exact Erow.
Qed.

(** ** What the writes of [csvd] keep

    [P] is any property of a matrix that a write of one entry keeps. *)
Variable P : cmatrix_t F -> Prop.
Hypothesis P_mset : forall (M : cmatrix_t F) i j x M',
  mset M i j x = Ok M' -> P M -> P M'.

Ltac keeps :=
  inv_all;
  match goal with
  | H : P ?M |- P ?M => exact H
  | E : mset ?M _ _ _ = Ok ?M' |- P ?M' => apply (@P_mset _ _ _ _ _ E); keeps
  | E : for_up _ _ _ ?M = Ok ?M' |- P ?M' => unfold for_up in E; keeps
  | E : for_down _ _ _ ?M = Ok ?M' |- P ?M' => unfold for_down in E; keeps
  | E : iterate _ _ _ _ ?M = Ok ?M' |- P ?M' =>
      refine (@iterate_preserves _ P _ _ _ _ _ _ _ _ E);
      [ keeps | intros ? ? ? ? ?; keeps ]
  end.

Lemma rotate_columns_keeps (M : cmatrix_t F) (n p q : Z) (cs sn : F) (M' : cmatrix_t F) :
  rotate_columns M n p q cs sn = Ok M' -> P M -> P M'.
Proof. unfold rotate_columns. intros H HP. keeps. Qed.

Lemma swap_columns_keeps (M : cmatrix_t F) (n j k : Z) (M' : cmatrix_t F) :
  swap_columns M n j k = Ok M' -> P M -> P M'.
Proof. unfold swap_columns. intros H HP. keeps. Qed.

Lemma accumulate_U_keeps (m n : Z) (A : cmatrix_t F) (b : rvector_t F) (U U' : cmatrix_t F) :
  accumulate_U m n A b U = Ok U' -> P U -> P U'.
Proof.
  unfold accumulate_U. intros H HP. keeps.
Qed.

Lemma accumulate_V_keeps (n : Z) (A : cmatrix_t F) (c : rvector_t F) (V V' : cmatrix_t F) :
  accumulate_V n A c V = Ok V' -> P V -> P V'.
Proof.
  unfold accumulate_V. intros H HP. keeps.
Qed.

Ltac keeps_state :=
  inv_all; simpl in *;
  try match goal with
  | E : rotate_columns _ _ _ _ _ _ = Ok ?M' |- P ?M' =>
      eapply rotate_columns_keeps; [exact E |]
  | E : swap_columns _ _ _ _ = Ok ?M' |- P ?M' =>
      eapply swap_columns_keeps; [exact E |]
  end;
  try assumption.

Lemma cancellation_keeps (n l k : Z) (eps : F) (st st' : qr_state) :
  cancellation n l k eps st = Ok st' ->
  (P (qU st) -> P (qU st')) /\ (P (qV st) -> P (qV st')).
Proof.
  unfold cancellation, for_up_break. intro H. inv_all.
  split; intro HP.
  - match goal with
    | E : iterate_break _ _ _ _ _ = Ok _ |- _ =>
        apply (iterate_break_preserves
                 (fun s : F * F * qr_state => P (qU (snd s)))) in E
    end; auto.
    + intros j [[cs sn] s] [[cs' sn'] s'] HL Hb. keeps_state.
    + intros j [[cs sn] s] [[cs' sn'] s'] HL Hb. keeps_state.
  - match goal with
    | E : iterate_break _ _ _ _ _ = Ok _ |- _ =>
        apply (iterate_break_preserves
                 (fun s : F * F * qr_state => P (qV (snd s)))) in E
    end; auto.
    + intros j [[cs sn] s] [[cs' sn'] s'] HL Hb. keeps_state.
    + intros j [[cs sn] s] [[cs' sn'] s'] HL Hb. keeps_state.
Qed.

Lemma chase_round_keeps (n i : Z) acc (r : flow (bool * F * F * F * F * qr_state)) :
  chase_round n i acc = Ok r ->
  (P (qU (snd acc)) -> P (qU (snd match r with Continue a => a | Break a => a end))) /\
  (P (qV (snd acc)) -> P (qV (snd match r with Continue a => a | Break a => a end))).
Proof.
  unfold chase_round. destruct acc as [[[[[failed f] x] cs] sn] st]. intro H.
  inv_all; split; intro HP; keeps_state.
Qed.

Lemma qr_step_keeps (n l k : Z) (w : F) (st st' : qr_state) outcome :
  qr_step n l k w st = Ok (outcome, st') ->
  (P (qU st) -> P (qU st')) /\ (P (qV st) -> P (qV st')).
Proof.
  unfold qr_step, for_up_break. intro H. inv_all.
  all: split; intro HP.
  all: match goal with
  | E : iterate_break _ _ _ _ _ = Ok _ |- P (qU _) =>
      apply (iterate_break_preserves
               (fun s : bool * F * F * F * F * qr_state => P (qU (snd s)))) in E;
      [ simpl in E; exact E | exact HP
        | intros j s s' HL Hb; apply chase_round_keeps in Hb; apply (proj1 Hb HL)
        | intros j s s' HL Hb; apply chase_round_keeps in Hb; apply (proj1 Hb HL) ]
  | E : iterate_break _ _ _ _ _ = Ok _ |- P (qV _) =>
      apply (iterate_break_preserves
               (fun s : bool * F * F * F * F * qr_state => P (qV (snd s)))) in E;
      [ simpl in E; exact E | exact HP
        | intros j s s' HL Hb; apply chase_round_keeps in Hb; apply (proj2 Hb HL)
        | intros j s s' HL Hb; apply chase_round_keeps in Hb; apply (proj2 Hb HL) ]
  end.
Qed.

Lemma qr_iterate_keeps (fuel : nat) (n k : Z) (eps : F) :
  forall (st st' : qr_state) outcome w,
    qr_iterate fuel n k eps st = Ok (outcome, w, st') ->
    (P (qU st) -> P (qU st')) /\ (P (qV st) -> P (qV st')).
Proof.
  induction fuel as [| fuel IH]; intros st st' outcome w H; simpl in H; [discriminate |].
  inv_all.
  all: repeat match goal with
       | E : cancellation _ _ _ _ _ = Ok _ |- _ => apply cancellation_keeps in E
       | E : qr_step _ _ _ _ _ = Ok _ |- _ => apply qr_step_keeps in E
       | E : qr_iterate _ _ _ _ _ = Ok _ |- _ => apply IH in E
       end.
  all: split; intro HP; intuition.
Qed.

Lemma sign_sweep_keeps (n k : Z) (w : F) (st st' : qr_state) :
  sign_sweep n k w st = Ok st' ->
  (P (qU st) -> P (qU st')) /\ (P (qV st) -> P (qV st')).
Proof.
  unfold sign_sweep. intro H. inv_all; split; intro HP; simpl; auto.
  keeps.
Qed.

Lemma diagonalize_keeps (fuel : nat) (n : Z) (eps : F) (st st' : qr_state) outcome :
  diagonalize fuel n eps st = Ok (outcome, st') ->
  (P (qU st) -> P (qU st')) /\ (P (qV st) -> P (qV st')).
Proof.
  unfold diagonalize, for_down_break. intro H. split; intro HP.
  - apply (iterate_break_preserves
             (fun s : status * qr_state => P (qU (snd s)))) in H; auto.
    + intros j [o s] [o' s'] HL Hb. simpl in *. inv_all.
      repeat match goal with
      | E : qr_iterate _ _ _ _ _ = Ok _ |- _ => apply qr_iterate_keeps in E
      | E : sign_sweep _ _ _ _ = Ok _ |- _ => apply sign_sweep_keeps in E
      end. intuition.
    + intros j [o s] [o' s'] HL Hb. simpl in *. inv_all.
      repeat match goal with
      | E : qr_iterate _ _ _ _ _ = Ok _ |- _ => apply qr_iterate_keeps in E
      end. intuition.
  - apply (iterate_break_preserves
             (fun s : status * qr_state => P (qV (snd s)))) in H; auto.
    + intros j [o s] [o' s'] HL Hb. simpl in *. inv_all.
      repeat match goal with
      | E : qr_iterate _ _ _ _ _ = Ok _ |- _ => apply qr_iterate_keeps in E
      | E : sign_sweep _ _ _ _ = Ok _ |- _ => apply sign_sweep_keeps in E
      end. intuition.
    + intros j [o s] [o' s'] HL Hb. simpl in *. inv_all.
      repeat match goal with
      | E : qr_iterate _ _ _ _ _ = Ok _ |- _ => apply qr_iterate_keeps in E
      end. intuition.
Qed.

Lemma sort_singular_values_keeps (n : Z) (S S' : rvector_t F) (U V U' V' : cmatrix_t F) :
  sort_singular_values n S U V = Ok (S', U', V') ->
  (P U -> P U') /\ (P V -> P V').
Proof.
  unfold sort_singular_values, for_up. intro H. split; intro HP.
  - apply (iterate_preserves
             (fun s : rvector_t F * cmatrix_t F * cmatrix_t F => P (snd (fst s)))) in H;
      auto.
    intros j [[s u] v] [[s' u'] v'] HL Hb. keeps_state.
  - apply (iterate_preserves
             (fun s : rvector_t F * cmatrix_t F * cmatrix_t F => P (snd s))) in H;
      auto.
    intros j [[s u] v] [[s' u'] v'] HL Hb. keeps_state.
Qed.

Lemma column_reflector_keeps (m n k : Z) (A : cmatrix_t F) (b : rvector_t F) A' b' :
  column_reflector m n k A b = Ok (A', b') -> P A -> P A'.
Proof. unfold column_reflector. intros H HP. keeps. Qed.

Lemma row_reflector_keeps (m n k : Z) (A : cmatrix_t F) (c : rvector_t F) A' c' :
  row_reflector m n k A c = Ok (A', c') -> P A -> P A'.
Proof. unfold row_reflector. intros H HP. keeps. Qed.

Lemma bidiagonalize_keeps (rounds : nat) (m n : Z) :
  forall k (A : cmatrix_t F) (b c : rvector_t F) A' b' c',
    bidiagonalize rounds m n k A b c = Ok (A', b', c') -> P A -> P A'.
Proof.
  induction rounds as [| rounds IH]; intros k A b c A' b' c' H HP; simpl in H;
    [discriminate |].
  inv_all.
  - eapply column_reflector_keeps; eauto.
  - eapply IH; [eassumption |].
    eapply row_reflector_keeps; [eassumption |].
    eapply column_reflector_keeps; eauto.
Qed.

End Keeps.

(** ** The extents of the factors that [csvd] returns *)

Section Extents.
Context {F : Type} {SF : Scalar F}.

Lemma identity_has_extents (n : nat) : has_extents n n (identity n : cmatrix_t F).
Proof.
  unfold has_extents, identity. split; [reflexivity | split; [reflexivity |]].
  apply well_formed_mk_matrix.
Qed.

Lemma mset_keeps_dims (r c : nat) (M : cmatrix_t F) (i j : Z) (x : complex_t F)
  (M' : cmatrix_t F) :
  mset M i j x = Ok M' ->
  GetRows M = r /\ GetColumns M = c -> GetRows M' = r /\ GetColumns M' = c.
Proof.
  intros H [HR HC]. apply mset_entry in H. destruct H as (_ & _ & R & C & _).
  split; congruence.
Qed.

(** On [SUCCESS] [U] is square of the order of the rows of [A] and [V] is
    square of the order of its columns.  On [FAILURE] the return of line
    466 comes before the exchange of line 578: [U] has the order of the
    larger extent and [V] that of the smaller one. *)
Theorem csvd_returns_square_factors (fuel : nat) (A U : cmatrix_t F) (S : rvector_t F)
  (V : cmatrix_t F) (outcome : status) (args : svd_args) :
  csvd fuel A U S V = Ok (outcome, args) ->
  match outcome with
  | SUCCESS =>
      has_extents (GetRows A) (GetRows A) (arg_U args) /\
      has_extents (GetColumns A) (GetColumns A) (arg_V args)
  | FAILURE =>
      has_extents (Nat.max (GetRows A) (GetColumns A))
        (Nat.max (GetRows A) (GetColumns A)) (arg_U args) /\
      has_extents (Nat.min (GetRows A) (GetColumns A))
        (Nat.min (GetRows A) (GetColumns A)) (arg_V args)
  end.
Proof.
  unfold csvd. intro H.
  destruct (Z.of_nat (GetRows A) <? Z.of_nat (GetColumns A))%Z eqn:T;
    [apply Z.ltb_lt in T | apply Z.ltb_ge in T].
  all: inv_all.
  all: match goal with
       | E : diagonalize _ _ _ (QR _ _ (identity ?a) (identity ?b)) = Ok _ |- _ =>
           pose proof (proj1 (@diagonalize_keeps _ _ (has_extents a a)
                                (fun M i j x M' => @mset_has_extents _ _ a a M i j x M')
                                _ _ _ _ _ _ E) (identity_has_extents a));
           pose proof (proj2 (@diagonalize_keeps _ _ (has_extents b b)
                                (fun M i j x M' => @mset_has_extents _ _ b b M i j x M')
                                _ _ _ _ _ _ E) (identity_has_extents b));
           clear E
       end.
  all: repeat match goal with
       | E : sort_singular_values _ _ ?U0 ?V0 = Ok _,
         HU : has_extents ?a ?a ?U0, HV : has_extents ?b ?b ?V0 |- _ =>
           pose proof (proj1 (@sort_singular_values_keeps _ _ (has_extents a a)
                                (fun M i j x M' => @mset_has_extents _ _ a a M i j x M')
                                _ _ _ _ _ _ _ E) HU);
           pose proof (proj2 (@sort_singular_values_keeps _ _ (has_extents b b)
                                (fun M i j x M' => @mset_has_extents _ _ b b M i j x M')
                                _ _ _ _ _ _ _ E) HV);
           clear E
       | E : accumulate_U _ _ _ _ ?U0 = Ok _, HU : has_extents ?a ?a ?U0 |- _ =>
           pose proof (@accumulate_U_keeps _ _ (has_extents a a)
                         (fun M i j x M' => @mset_has_extents _ _ a a M i j x M')
                         _ _ _ _ _ _ E HU);
           clear E
       | E : accumulate_V _ _ _ ?V0 = Ok _, HV : has_extents ?b ?b ?V0 |- _ =>
           pose proof (@accumulate_V_keeps _ _ (has_extents b b)
                         (fun M i j x M' => @mset_has_extents _ _ b b M i j x M')
                         _ _ _ _ _ E HV);
           clear E
       end.
  all: simpl in *.
  all: rewrite ?Nat2Z.id in *.
  all: try (replace (Nat.max (GetRows A) (GetColumns A)) with (GetColumns A) by lia;
            replace (Nat.min (GetRows A) (GetColumns A)) with (GetRows A) by lia).
  all: try (replace (Nat.max (GetRows A) (GetColumns A)) with (GetRows A) by lia;
            replace (Nat.min (GetRows A) (GetColumns A)) with (GetColumns A) by lia).
  all: split; auto.
Qed.

End Extents.

(** A run on binary64: the 2x3 matrix comes back with [U] of order 2 and
    [V] of order 3. *)
Lemma csvd_returns_square_factors_run :
  exists args,
    csvd 30 wide_2x3 no_matrix [0; 0]%float no_matrix = Ok (SUCCESS, args) /\
    has_extents 2 2 (arg_U args) /\ has_extents 3 3 (arg_V args).
Proof.
  assert (E : exists args,
             csvd 30 wide_2x3 no_matrix [0; 0]%float no_matrix = Ok (SUCCESS, args)).
  { eexists. vm_compute. reflexivity. }
  destruct E as [args E]. exists args. split; [exact E |].
  exact (@csvd_returns_square_factors float float_scalar
           30 wide_2x3 no_matrix [0; 0]%float no_matrix SUCCESS args E).
Defined.

(** ** What [csvd] does to its argument [A] *)

Section Overwritten.
Context {F : Type} {SF : Scalar F}.

(** [csvd] works on [A] in place and, for a matrix with fewer rows than
    columns, on its conjugate transpose (line 223), which is never
    transposed back: whatever the status, the matrix the caller finds in
    [A] has the larger extent as its number of rows. *)
Theorem csvd_leaves_A_transposed (fuel : nat) (A U : cmatrix_t F) (S : rvector_t F)
  (V : cmatrix_t F) (outcome : status) (args : svd_args) :
  csvd fuel A U S V = Ok (outcome, args) ->
  GetRows (arg_A args) = Nat.max (GetRows A) (GetColumns A) /\
  GetColumns (arg_A args) = Nat.min (GetRows A) (GetColumns A).
Proof.
  unfold csvd. intro H.
  destruct (Z.of_nat (GetRows A) <? Z.of_nat (GetColumns A))%Z eqn:T;
    [apply Z.ltb_lt in T | apply Z.ltb_ge in T].
  all: inv_all.
  all: match goal with
       | E : bidiagonalize _ _ _ _ ?A0 _ _ = Ok _ |- _ =>
           pose proof (@bidiagonalize_keeps _ _
                         (fun M => GetRows M = GetRows A0 /\ GetColumns M = GetColumns A0)
                         (fun M i j x M' =>
                            @mset_keeps_dims _ _ (GetRows A0) (GetColumns A0) M i j x M')
                         _ _ _ _ _ _ _ _ _ _ E (Logic.conj eq_refl eq_refl)) as [HR HC]
       end.
  all: cbn [arg_A dagger mk_matrix GetRows GetColumns] in *.
  all: rewrite HR, HC; lia.
Qed.

Lemma column_norm2_without_columns (A : cmatrix_t F) (m : Z) :
  GetColumns A = 0 -> (0 < m)%Z ->
  column_norm2 A 0 m = Err (OutOfRange "matrix" 0).
Proof.
  intros HC Hm. unfold column_norm2, for_up.
  destruct (Z.to_nat (m - 0)) as [| count] eqn:E; [lia |].
  cbn [iterate]. unfold mget. rewrite HC.
  replace (in_range 0 0) with false by reflexivity.
  rewrite andb_false_r. reflexivity.
Qed.

Lemma bidiagonalize_first_read (rounds : nat) (m n k : Z) (A : cmatrix_t F)
  (b c : rvector_t F) (e : fault) :
  column_norm2 A k m = Err e ->
  bidiagonalize (Datatypes.S rounds) m n k A b c = Err e.
Proof.
  intro H. cbn [bidiagonalize]. unfold column_reflector. rewrite H. reflexivity.
Qed.

Lemma vset_first {A} (name : string) (x y : A) (n : nat) :
  vset name (repeat x (Datatypes.S n)) 0 y = Ok (y :: repeat x n).
Proof. reflexivity. Qed.

(** A matrix without rows or without columns is outside [csvd]: with
    neither, line 227 writes [c[0]] of an empty vector; with one of the
    two, line 232 reads the entry [(0, 0)] of a matrix that has none. *)
Theorem csvd_reads_outside_an_empty_matrix (fuel : nat) (A U : cmatrix_t F)
  (S : rvector_t F) (V : cmatrix_t F) :
  (GetRows A = 0 -> GetColumns A = 0 ->
   csvd fuel A U S V = Err (OutOfRange "c" 0)) /\
  (GetRows A = 0 \/ GetColumns A = 0 -> GetRows A + GetColumns A <> 0 ->
   csvd fuel A U S V = Err (OutOfRange "matrix" 0)).
Proof.
  split.
  - intros HR HC. unfold csvd. rewrite HR, HC. reflexivity.
  - intros H0 Hne. unfold csvd.
    destruct (Z.max (Z.of_nat (GetRows A)) (Z.of_nat (GetColumns A))) as [| p | p] eqn:M;
      try lia.
    destruct (Z.to_nat (Z.pos p)) as [| size] eqn:Esize; [lia |].
    rewrite vset_first. cbn [bind].
    destruct (Z.of_nat (GetRows A) <? Z.of_nat (GetColumns A))%Z eqn:T;
      [apply Z.ltb_lt in T | apply Z.ltb_ge in T]; cbv beta iota zeta.
    + rewrite bidiagonalize_first_read with (e := OutOfRange "matrix" 0);
        [reflexivity |].
      apply column_norm2_without_columns; [| lia].
      unfold dagger. cbn [mk_matrix GetColumns]. lia.
    + rewrite bidiagonalize_first_read with (e := OutOfRange "matrix" 0);
        [reflexivity |].
      apply column_norm2_without_columns; lia.
Qed.

End Overwritten.

(** A run on binary64: the 2x3 matrix comes back as a 3x2 one. *)
Lemma csvd_leaves_A_transposed_run :
  exists args,
    csvd 30 wide_2x3 no_matrix [0; 0]%float no_matrix = Ok (SUCCESS, args) /\
    GetRows (arg_A args) = 3 /\ GetColumns (arg_A args) = 2.
Proof.
  assert (E : exists args,
             csvd 30 wide_2x3 no_matrix [0; 0]%float no_matrix = Ok (SUCCESS, args)).
  { eexists. vm_compute. reflexivity. }
  destruct E as [args E]. exists args. split; [exact E |].
  exact (@csvd_leaves_A_transposed float float_scalar
           30 wide_2x3 no_matrix [0; 0]%float no_matrix SUCCESS args E).
Defined.

(** Two runs on binary64: the matrix without rows and columns, and the
    one with no row and three columns. *)
Lemma csvd_reads_outside_an_empty_matrix_run :
  csvd 10 (zeros 0 0 : cmatrix_t float) no_matrix [] no_matrix
  = Err (OutOfRange "c" 0) /\
  csvd 10 (zeros 0 3 : cmatrix_t float) no_matrix [] no_matrix
  = Err (OutOfRange "matrix" 0).
Proof.
  split.
  - apply (proj1 (@csvd_reads_outside_an_empty_matrix float float_scalar
                    10 (zeros 0 0) no_matrix [] no_matrix)); reflexivity.
  - apply (proj2 (@csvd_reads_outside_an_empty_matrix float float_scalar
                    10 (zeros 0 3) no_matrix [] no_matrix)).
    + left. reflexivity.
    + cbn. lia.
Defined.

(** ** The retries of [qiskit_csvd_wrapper] *)

Section Wrapper.
Context {F : Type} {SF : Scalar F}.
Local Open Scope scalar_scope.

Lemma csvd_keeps_length (fuel : nat) (A U : cmatrix_t F) (S : rvector_t F)
  (V : cmatrix_t F) (outcome : status) (args : svd_args) :
  csvd fuel A U S V = Ok (outcome, args) -> length (arg_S args) = length S.
Proof.
  unfold csvd. intro H.
  destruct (Z.of_nat (GetRows A) <? Z.of_nat (GetColumns A))%Z.
  all: inv_all.
  all: repeat match goal with
       | E : splitting_tolerance _ _ _ _ _ = Ok _ |- _ =>
           apply splitting_tolerance_length in E; destruct E
       | E : diagonalize _ _ _ _ = Ok _ |- _ => apply diagonalize_length in E
       | E : sort_singular_values _ _ _ _ = Ok _ |- _ =>
           apply sort_singular_values_length in E
       end; simpl in *; congruence.
Qed.

Lemma rescaled_next (A : cmatrix_t F) (k : nat) :
  rescaled (mat_scale A mul_factor) k = rescaled A (Datatypes.S k).
Proof. unfold rescaled. symmetry. apply Nat.iter_succ_r. Qed.

(** What the loop of lines 618-628 returns is what the last call of [csvd]
    left, and that call was made on [A] multiplied [times] times by
    [mul_factor]. *)
Lemma retry_loop_last_call (fuel rounds : nat) :
  forall times (copied_A : cmatrix_t F) current_status args times' copied_A' status' args',
    retry_loop rounds fuel times copied_A current_status args
    = Ok (times', copied_A', status', args') ->
    copied_A' = rescaled copied_A (times' - times) /\
    length (arg_S args') = length (arg_S args) /\
    (times' = times -> status' = current_status /\ args' = args) /\
    (times < times' ->
     exists before,
       csvd fuel copied_A' (arg_U before) (arg_S before) (arg_V before)
       = Ok (status', args')).
Proof.
  induction rounds as [| rounds IH]; intros until args'; intro H; simpl in H;
    [discriminate |].
  destruct (Nat.leb times NUM_SVD_TRIES && is_failure current_status) eqn:T.
  - apply bind_ok in H. destruct H as ([st1 args1] & E & H).
    pose proof (retry_loop_leaves _ _ _ _ _ _ H) as (_ & Hle & _).
    apply IH in H. destruct H as (HA & HL & Hsame & Hlast).
    split; [| split; [| split]].
    + rewrite HA, rescaled_next. f_equal. lia.
    + rewrite HL. revert E. apply csvd_keeps_length.
    + intro Heq. lia.
    + intros _. destruct (Nat.eq_dec times' (Datatypes.S times)) as [Heq | Hne].
      * destruct (Hsame Heq) as [-> ->]. exists args.
        rewrite HA, Heq, Nat.sub_diag. exact E.
      * apply Hlast. lia.
  - inv_ok. rewrite Nat.sub_diag.
    split; [reflexivity | split; [reflexivity | split; [auto | intro; lia]]].
Qed.

(** [qiskit_csvd_wrapper] after a first call that failed.  The loop makes
    between 1 and 16 more calls; what is returned comes from the last
    one, made on [A] times [mul_factor^times], with [S] divided by
    [mul_factor^times].  Line 629 raises exactly when [times] is 15, and
    then that last call had returned [SUCCESS]; when the last call failed
    too, [times] is 16 and the wrapper returns. *)
Theorem wrapper_returns_the_last_retry (fuel : nat) (A U : cmatrix_t F)
  (S : rvector_t F) (V : cmatrix_t F) args0 times copied_A current_status args :
  csvd fuel A U S V = Ok (FAILURE, args0) ->
  retry_loop (NUM_SVD_TRIES + 3) fuel 0 A FAILURE args0
  = Ok (times, copied_A, current_status, args) ->
  1 <= times <= Datatypes.S NUM_SVD_TRIES /\
  copied_A = rescaled A times /\
  (exists before,
     csvd fuel (rescaled A times) (arg_U before) (arg_S before) (arg_V before)
     = Ok (current_status, args)) /\
  (times = NUM_SVD_TRIES ->
   current_status = SUCCESS /\
   qiskit_csvd_wrapper fuel A U S V = Err (RuntimeError "SVD failed")) /\
  (times <> NUM_SVD_TRIES ->
   qiskit_csvd_wrapper fuel A U S V
   = Ok (Args (arg_A args) (arg_U args)
           (map (fun s => s / fpow mul_factor times) (arg_S args))
           (arg_V args))) /\
  (current_status = FAILURE -> times = Datatypes.S NUM_SVD_TRIES).
Proof.
  intros H0 HL.
  pose proof (retry_loop_leaves _ _ _ _ _ _ HL) as (Hexit & _ & Hle).
  pose proof HL as HL2. apply retry_loop_last_call in HL2.
  destruct HL2 as (HA & _ & Hsame & Hlast).
  rewrite Nat.sub_0_r in HA.
  assert (Hpos : 1 <= times).
  { destruct times as [| t]; [| lia].
    destruct (Hsame eq_refl) as [-> _]. discriminate Hexit. }
  split; [split; [exact Hpos | apply Hle; unfold NUM_SVD_TRIES; lia] |].
  split; [exact HA |].
  split.
  { destruct (Hlast ltac:(lia)) as [before E]. exists before. rewrite <- HA. exact E. }
  unfold qiskit_csvd_wrapper. rewrite H0. cbn [bind].
  rewrite HL. cbn [bind].
  split; [| split].
  - intro Ht. subst times. split.
    + destruct current_status; [reflexivity | discriminate Hexit].
    + reflexivity.
  - intro Ht. apply Nat.eqb_neq in Ht. rewrite Ht. reflexivity.
  - intro Hs. subst current_status.
    rewrite andb_true_r in Hexit. apply Nat.leb_gt in Hexit.
    unfold NUM_SVD_TRIES in *. lia.
Qed.

(** [qiskit_csvd_wrapper] never resizes [S] either: the retries hand the
    vector on to [csvd], and lines 636-637 divide its entries in place. *)
Theorem wrapper_keeps_the_length_of_S (fuel : nat) (A U : cmatrix_t F)
  (S : rvector_t F) (V : cmatrix_t F) (args : svd_args) :
  qiskit_csvd_wrapper fuel A U S V = Ok args ->
  length (arg_S args) = length S.
Proof.
  unfold qiskit_csvd_wrapper. intro H.
  apply bind_ok in H. destruct H as ([st0 args0] & E0 & H).
  pose proof E0 as L0. apply csvd_keeps_length in L0.
  destruct st0.
  - inv_ok. exact L0.
  - apply bind_ok in H. destruct H as ([[[times cA] st] args1] & EL & H).
    apply retry_loop_last_call in EL. destruct EL as (_ & L1 & _).
    destruct (Nat.eqb times NUM_SVD_TRIES); [discriminate |].
    inv_ok. cbn [arg_S]. rewrite length_map. congruence.
Qed.

End Wrapper.

(** A run on binary64: on [[57, 228], [0, 0]] the loop is left after
    retry 15. *)
Lemma wrapper_returns_the_last_retry_run :
  exists args0 copied_A args,
    csvd 60 rank_one_57 no_matrix [0; 0]%float no_matrix = Ok (FAILURE, args0) /\
    retry_loop (NUM_SVD_TRIES + 3) 60 0 rank_one_57 FAILURE args0
    = Ok (15, copied_A, SUCCESS, args) /\
    copied_A = rescaled rank_one_57 15 /\
    qiskit_csvd_wrapper 60 rank_one_57 no_matrix [0; 0]%float no_matrix
    = Err (RuntimeError "SVD failed").
Proof.
  assert (E : exists args0 copied_A args,
             csvd 60 rank_one_57 no_matrix [0; 0]%float no_matrix
             = Ok (FAILURE, args0) /\
             retry_loop (NUM_SVD_TRIES + 3) 60 0 rank_one_57 FAILURE args0
             = Ok (15, copied_A, SUCCESS, args)).
  { do 3 eexists. split.
    - vm_compute; reflexivity.
    - vm_compute; reflexivity. }
  destruct E as (args0 & copied_A & args & E0 & E1).
  exists args0, copied_A, args.
  pose proof (@wrapper_returns_the_last_retry float float_scalar
                60 rank_one_57 no_matrix [0; 0]%float no_matrix
                args0 15 copied_A SUCCESS args E0 E1) as (_ & HA & _ & H15 & _).
  split; [exact E0 |]. split; [exact E1 |]. split; [exact HA |].
  exact (proj2 (H15 eq_refl)).
Defined.

(** A run on binary64: on [[163, 326], [0, 0]] every call fails and the
    wrapper returns [S] with its two entries. *)
Lemma wrapper_keeps_the_length_of_S_run :
  exists args,
    qiskit_csvd_wrapper 60 rank_one_163 no_matrix [0; 0]%float no_matrix = Ok args /\
    length (arg_S args) = 2.
Proof.
  assert (E : exists args,
             qiskit_csvd_wrapper 60 rank_one_163 no_matrix [0; 0]%float no_matrix
             = Ok args).
  { eexists. vm_compute. reflexivity. }
  destruct E as [args E]. exists args. split; [exact E |].
  exact (@wrapper_keeps_the_length_of_S float float_scalar
           60 rank_one_163 no_matrix [0; 0]%float no_matrix args E).
Defined.

(** ** The rank that [reduce_zeros] keeps *)

(** [reduce_zeros] keeps at most [max_bond_dimension] entries of [S] and
    never more than are significant; it keeps at least one when one is
    significant and the cap is not zero.  It leaves [U] and [V] with as
    many columns (rows of [V] when it holds its conjugate transpose) as
    [S] has entries. *)
Theorem reduce_zeros_respects_the_cap {F : Type} {SF : Scalar F}
  (chop : F) (U : cmatrix_t F) (S : rvector_t F) (V : cmatrix_t F)
  (max_rank : nat) (thr : F) (lapack : bool) U' S' V' d :
  reduce_zeros chop U S V max_rank thr lapack = Ok (U', S', V', d) ->
  length S' <= max_rank /\
  length S' <= num_of_SV S chop /\
  num_of_SV S chop <= length S /\
  (1 <= max_rank -> 1 <= num_of_SV S chop -> 1 <= length S') /\
  GetRows U' = GetRows U /\ GetColumns U' = length S' /\
  (if lapack
   then GetRows V' = length S' /\ GetColumns V' = GetColumns V
   else GetRows V' = GetRows V /\ GetColumns V' = length S').
Proof.
  intro H. apply reduce_zeros_inv in H.
  destruct H as (sum & new & _ & B1 & B2 & EU & EV & _ & L & _).
  pose proof (num_of_SV_le_length S chop) as HL.
  rewrite L.
  split; [lia | split; [lia | split; [exact HL | split; [intros; apply B2; lia |]]]].
  unfold resize in EU, EV.
  destruct (Nat.leb (GetRows U) (GetRows U) && Nat.leb new (GetColumns U));
    [| discriminate].
  inversion EU; subst U'. cbn [GetRows GetColumns].
  split; [reflexivity | split; [reflexivity |]].
  destruct lapack.
  - destruct (Nat.leb new (GetRows V) && Nat.leb (GetColumns V) (GetColumns V));
      [| discriminate].
    inversion EV; subst V'. cbn [GetRows GetColumns]. split; reflexivity.
  - destruct (Nat.leb (GetRows V) (GetRows V) && Nat.leb new (GetColumns V));
      [| discriminate].
    inversion EV; subst V'. cbn [GetRows GetColumns]. split; reflexivity.
Qed.

Section Budget.
Local Open Scope R_scope.

(** When the cap does not bind, what [reduce_zeros] discards stays under
    the budget: the weight it returns is zero or less than
    [truncation_threshold]. *)
Theorem reduce_zeros_honours_the_budget
  (chop : R) (U : cmatrix_t R) (S : list R) (V : cmatrix_t R)
  (max_rank : nat) (thr : R) (lapack : bool) U' S' V' (d : R) :
  (num_of_SV S chop <= max_rank)%nat ->
  reduce_zeros chop U S V max_rank thr lapack = Ok (U', S', V', d) ->
  0 <= d /\ (d = 0 \/ d < thr).
Proof.
  intros Hcap H. apply reduce_zeros_inv in H.
  destruct H as (sum & new & E & B1 & _ & _ & _ & _ & _ & D).
  pose proof (num_of_SV_le_length S chop) as HL.
  replace (Nat.min (num_of_SV S chop) max_rank) with (num_of_SV S chop) in * by lia.
  set (n0 := num_of_SV S chop) in *.
  rewrite sum_of_squares_mass in D. fold (tail_mass S new n0) in D.
  split; [rewrite D; apply tail_mass_nonneg |].
  apply tail_sweep_exact in E; [| exact HL].
  destruct E as [[-> _] | (b & Hb & -> & _ & Hunder)].
  - left. rewrite D. apply tail_mass_end.
  - destruct (Nat.eq_dec (b + 1) n0) as [Heq | Hne].
    + left. rewrite D, Heq. apply tail_mass_end.
    + right. rewrite D. apply Hunder. lia.
Qed.

End Budget.

(** A run on binary64: of three values, two significant, a cap of 1 keeps
    one. *)
Lemma reduce_zeros_respects_the_cap_run :
  exists U' S' V' d,
    reduce_zeros 1e-16%float (identity 3) [1; 0.5; 1e-9]%float (identity 3) 1 0%float false
    = Ok (U', S', V', d) /\
    length S' <= 1 /\ GetRows U' = 3 /\ GetColumns U' = length S' /\
    GetRows V' = 3 /\ GetColumns V' = length S'.
Proof.
  assert (E : exists U' S' V' d,
             reduce_zeros 1e-16%float (identity 3) [1; 0.5; 1e-9]%float (identity 3)
               1 0%float false = Ok (U', S', V', d)).
  { do 4 eexists. vm_compute. reflexivity. }
  destruct E as (U' & S' & V' & d & E). exists U', S', V', d.
  pose proof (@reduce_zeros_respects_the_cap float float_scalar
                1e-16%float (identity 3) [1; 0.5; 1e-9]%float (identity 3)
                1 0%float false U' S' V' d E) as (H1 & _ & _ & _ & H2 & H3 & H4 & H5).
  repeat split; assumption.
Defined.

(** With a budget of [0.1] the value [0.1] of [[1, 0.5, 0.1]] is dropped
    and [0.5] is not: the rank retained is 2, and the weight returned is
    the square [0.01], above zero and under the budget. *)
Lemma reduce_zeros_honours_the_budget_run :
  exists U' S' V' d,
    reduce_zeros 0%R (identity 3) [1; 0.5; 0.1]%R (identity 3) 3 0.1%R false
    = Ok (U', S', V', d) /\
    length S' = 2 /\ (0 < d)%R /\
    (0 <= d /\ (d = 0 \/ d < 0.1))%R.
Proof.
  assert (N : num_of_SV [1; 0.5; 0.1]%R 0%R = 3).
  { unfold num_of_SV. cbn [fold_left]. r_unfold. r_tests. reflexivity. }
  destruct (@reduce_zeros_returns R R_scalar 0%R (identity 3) [1; 0.5; 0.1]%R (identity 3)
              3 0.1%R false) as (U' & S' & V' & d & E).
  { rewrite N. cbn. lia. }
  { rewrite N. cbn. lia. }
  exists U', S', V', d. split; [exact E |].
  pose proof (@reduce_zeros_inv R R_scalar _ _ _ _ _ _ _ _ _ _ _ E)
    as (sum & new & Esw & _ & _ & _ & _ & _ & L & D).
  rewrite N in Esw, D. change (Nat.min 3 3) with 3 in Esw.
  apply tail_sweep_exact in Esw; [| cbn [length]; lia].
  assert (Hnew : new = 2).
  { destruct Esw as [[_ Hall] | (b & Hb & En & Hge & _)].
    - exfalso. specialize (Hall 1 ltac:(lia)).
      unfold tail_mass in Hall. cbn [Nat.sub skipn firstn mass] in Hall. lra.
    - destruct (Nat.eq_dec b 1) as [-> | Hne]; [exact En |].
      exfalso. replace b with 2 in Hge by lia.
      unfold tail_mass in Hge. cbn [Nat.sub skipn firstn mass] in Hge. lra. }
  rewrite Hnew in L, D.
  assert (Hd : d = (0.1 * 0.1)%R).
  { rewrite D. cbn [Nat.sub skipn firstn]. rewrite sum_of_squares_mass.
    cbn [mass]. lra. }
  split; [exact L |]. split; [rewrite Hd; lra |].
  apply (@reduce_zeros_honours_the_budget 0%R (identity 3) [1; 0.5; 0.1]%R (identity 3)
           3 0.1%R false U' S' V' d); [| exact E].
  rewrite N. lia.
Defined.

(** ** The order of the values that [reduce_zeros] keeps *)

Section Counting.
Context {F : Type} {SF : Scalar F}.

Lemma count_significant_from (threshold : F) (S : rvector_t F) :
  forall a : nat,
    a <= fold_left (fun sum s => if fltb threshold (norm s) then Datatypes.S sum else sum) S a /\
    (a < fold_left (fun sum s => if fltb threshold (norm s) then Datatypes.S sum else sum) S a ->
     exists i x, nth_error S i = Some x /\ fltb threshold (norm x) = true).
Proof.
  induction S as [| s S IH]; intro a; cbn [fold_left].
  - split; [lia | intro; lia].
  - destruct (fltb threshold (norm s)) eqn:T.
    + destruct (IH (Datatypes.S a)) as [Hle _]. split; [lia |].
      intros _. exists 0, s. split; [reflexivity | exact T].
    + destruct (IH a) as [Hle Hex]. split; [exact Hle |].
      intro Hlt. destruct (Hex Hlt) as (i & x & Hi & Hx).
      exists (Datatypes.S i), x. split; [exact Hi | exact Hx].
Qed.

(** A positive count has a significant entry behind it. *)
Lemma num_of_SV_positive (S : rvector_t F) (threshold : F) :
  1 <= num_of_SV S threshold ->
  exists i x, nth_error S i = Some x /\ fltb threshold (norm x) = true.
Proof.
  intro H. unfold num_of_SV in H.
  apply (proj2 (count_significant_from threshold S 0)). lia.
Qed.

End Counting.

Section Order.
Local Open Scope R_scope.

Lemma mass_firstn_head (S : list R) (n : nat) :
  (1 <= n)%nat -> nth 0 S 0 * nth 0 S 0 <= mass (firstn n S).
Proof.
  intro Hn. destruct n as [| n]; [lia |].
  destruct S as [| s S]; cbn [firstn nth mass].
  - lra.
  - pose proof (mass_nonneg (firstn n S)). lra.
Qed.

Lemma nth_error_map_firstn (f : R -> R) (S : list R) (n i : nat) (y : R) :
  nth_error (map f (firstn n S)) i = Some y ->
  (i < n)%nat /\ exists x, nth_error S i = Some x /\ y = f x.
Proof.
  rewrite nth_error_map. intro H.
  destruct (nth_error (firstn n S) i) as [x |] eqn:E; [| discriminate].
  inversion H; subst. clear H.
  assert (Hi : (i < n)%nat).
  { assert (L : (i < length (firstn n S))%nat) by (apply nth_error_Some; congruence).
    rewrite length_firstn in L. lia. }
  split; [exact Hi |]. exists x. split; [| reflexivity].
  rewrite nth_error_firstn in E.
  destruct (Nat.ltb_spec i n); [exact E | lia].
Qed.

(** [reduce_zeros] keeps the order and the sign of the singular values:
    on a vector that never increases, has no negative entry and has one
    significant entry, what it leaves in [S] is the leading entries of
    [S], each divided by one positive number, and never increases and has
    no negative entry either. *)
Theorem reduce_zeros_keeps_the_order
  (chop : R) (U : cmatrix_t R) (S : list R) (V : cmatrix_t R)
  (max_rank : nat) (thr : R) (lapack : bool) U' S' V' (d : R) :
  0 <= chop -> (1 <= max_rank)%nat -> (1 <= num_of_SV S chop)%nat ->
  non_increasing S (length S) -> none_below 0 S (length S) ->
  reduce_zeros chop U S V max_rank thr lapack = Ok (U', S', V', d) ->
  (exists c, 0 < c /\ S' = map (fun s => s / c) (firstn (length S') S)) /\
  non_increasing S' (length S') /\ none_below 0 S' (length S').
Proof.
  intros Hchop Hcap Hsig Hord Hpos H. apply reduce_zeros_inv in H.
  destruct H as (sum & new & _ & B1 & B2 & _ & _ & ES & L & _).
  pose proof (num_of_SV_le_length S chop) as HL.
  assert (Hnew : (1 <= new)%nat) by (apply B2; lia).
  (* the leading entry is positive *)
  assert (H0 : 0 < nth 0 S 0).
  { destruct (num_of_SV_positive S chop Hsig) as (i & x & Hi & Hx).
    assert (Li : (i < length S)%nat) by (apply nth_error_Some; congruence).
    assert (Px : 0 <= x).
    { apply Rltb_false_iff. apply (Hpos i x Li Hi). }
    cbv [fltb norm fmul R_scalar] in Hx. apply Rltb_true_iff in Hx.
    assert (Qx : 0 < x) by nra.
    destruct S as [| s0 S0]; [simpl in Li; lia |].
    cbn [nth]. destruct i as [| i].
    - simpl in Hi. inversion Hi; subst. exact Qx.
    - assert (G : Rltb s0 x = false).
      { apply (Hord 0%nat (Datatypes.S i) s0 x); auto. lia. }
      apply Rltb_false_iff in G. lra. }
  assert (Hmass : 0 < sum_of_squares (firstn new S)).
  { rewrite sum_of_squares_mass.
    pose proof (mass_firstn_head S Hnew). nra. }
  (* the common divisor *)
  assert (Hc : exists c, 0 < c /\ S' = map (fun s => s / c) (firstn new S)).
  { destruct (renormalize_exact (firstn new S)) as (Same & Divided & _).
    destruct (Rle_dec (Rabs (1 - sum_of_squares (firstn new S))) 1e-9) as [Hle | Hgt].
    - exists 1. split; [lra |]. rewrite ES, (Same Hle).
      rewrite <- (map_id (firstn new S)) at 1. apply map_ext. intro a. field.
    - exists (sqrt (sum_of_squares (firstn new S))).
      split; [apply sqrt_lt_R0; exact Hmass |].
      rewrite ES. apply Divided. lra. }
  rewrite L. split; [exact Hc |].
  destruct Hc as (c & Hc & ->).
  split.
  - intros i j x y Hij Hj Hx Hy.
    apply nth_error_map_firstn in Hx. destruct Hx as (_ & x0 & Hx0 & ->).
    apply nth_error_map_firstn in Hy. destruct Hy as (_ & y0 & Hy0 & ->).
    assert (G : Rltb x0 y0 = false).
    { apply (Hord i j x0 y0); auto. lia. }
    apply Rltb_false_iff in G. apply Rltb_false_iff.
    unfold Rdiv. apply Rmult_le_compat_r; [| exact G].
    left. apply Rinv_0_lt_compat. exact Hc.
  - intros i x Hi Hx.
    apply nth_error_map_firstn in Hx. destruct Hx as (_ & x0 & Hx0 & ->).
    assert (G : Rltb x0 0 = false).
    { apply (Hpos i x0); [lia | exact Hx0]. }
    apply Rltb_false_iff in G. apply Rltb_false_iff.
    unfold Rdiv. apply Rmult_le_pos; [exact G |].
    left. apply Rinv_0_lt_compat. exact Hc.
Qed.

End Order.

(** The vector [[1, 1/2]] never increases and has no negative entry. *)
Lemma one_and_a_half_is_ordered :
  non_increasing [1; / 2]%R 2 /\ none_below 0%R [1; / 2]%R 2.
Proof.
  split.
  - intros i j x y Hij Hj Hx Hy.
    destruct i as [| i]; [| lia]. destruct j as [| [| j]]; try lia.
    cbn in Hx, Hy. injection Hx as <-. injection Hy as <-.
    r_unfold. apply Rltb_false_intro. lra.
  - intros i x Hi Hx.
    destruct i as [| [| i]]; try lia; cbn in Hx; injection Hx as <-;
      r_unfold; apply Rltb_false_intro; lra.
Qed.

(** The call on [[1, 1/2]] with a budget of 1/2 returns an ordered
    vector. *)
Lemma reduce_zeros_keeps_the_order_run :
  exists U' S' V' d,
    reduce_zeros 0%R (identity 2) [1; / 2]%R (identity 2) 2 (/ 2)%R false
    = Ok (U', S', V', d) /\
    non_increasing S' (length S') /\ none_below 0%R S' (length S').
Proof.
  destruct (@reduce_zeros_returns R R_scalar 0%R (identity 2) [1; / 2]%R (identity 2)
              2 (/ 2)%R false) as (U' & S' & V' & d & E).
  { etransitivity; [apply Nat.le_min_r | cbn; lia]. }
  { etransitivity; [apply Nat.le_min_r | cbn; lia]. }
  exists U', S', V', d. split; [exact E |].
  apply (@reduce_zeros_keeps_the_order 0%R (identity 2) [1; / 2]%R (identity 2)
           2 (/ 2)%R false U' S' V' d).
  - lra.
  - lia.
  - unfold num_of_SV. cbn [fold_left]. r_unfold. r_tests. lia.
  - exact (proj1 one_and_a_half_is_ordered).
  - exact (proj2 one_and_a_half_is_ordered).
  - exact E.
Defined.

(** ** [validate_SVdD_result] *)

(** For [U] of order [m], [VH] of order [n] and [S] of at least
    [min(m, n)] entries, [validate_SVdD_result] raises its error exactly
    when some entry of [A] and of [U . diag(S) . VH] differ in magnitude
    by more than [THRESHOLD], and returns otherwise. *)
Theorem validate_SVdD_raises_iff_some_entry_differs
  (A U : cmatrix_t R) (S : rvector_t R) (VH : cmatrix_t R) :
  well_formed A ->
  Nat.min (GetRows A) (GetColumns A) <= length S ->
  GetRows U = GetRows A -> GetColumns U = GetRows A ->
  GetRows VH = GetColumns A -> GetColumns VH = GetColumns A ->
  (validate_SVdD_result A U S VH = Err wrong_svd <->
   exists i j, i < GetRows A /\ j < GetColumns A /\
               (THRESHOLD < magnitude_gap A (reconstruction_VH A U S VH) i j)%R) /\
  (validate_SVdD_result A U S VH = Ok tt <->
   forall i j, i < GetRows A -> j < GetColumns A ->
               (magnitude_gap A (reconstruction_VH A U S VH) i j <= THRESHOLD)%R).
Proof.
  intros WA HS RU CU RV CV.
  change (@THRESHOLD R R_scalar) with 1e-9%R.
  assert (E : validate_SVdD_result A U S VH
              = for_up 0 (Z.of_nat (GetRows A))
                  (fun ii _ => for_up 0 (Z.of_nat (GetColumns A))
                                 (check_entry A (reconstruction_VH A U S VH) ii) tt) tt).
  { unfold validate_SVdD_result.
    rewrite (diag_in_range S (GetRows A) (GetColumns A) HS).
    cbn [bind]. unfold mat_mul at 1.
    cbn [GetRows GetColumns mk_matrix].
    rewrite CU, Nat.eqb_refl. cbn [bind]. unfold mat_mul.
    cbn [GetRows GetColumns mk_matrix].
    rewrite RV, Nat.eqb_refl. cbn [bind].
    unfold reconstruction_VH. cbn [GetRows GetColumns mk_matrix].
    reflexivity. }
  rewrite E.
  assert (WP : well_formed (reconstruction_VH A U S VH))
    by apply well_formed_mk_matrix.
  assert (RP : GetRows (reconstruction_VH A U S VH) = GetRows A)
    by (unfold reconstruction_VH; cbn [GetRows GetColumns mk_matrix]; exact RU).
  assert (CP : GetColumns (reconstruction_VH A U S VH) = GetColumns A)
    by (unfold reconstruction_VH; cbn [GetRows GetColumns mk_matrix]; exact CV).
  destruct (check_all_exact WA WP RP CP) as [[E' Hall] | [E' Hex]].
  - rewrite E'. split; split; auto; try discriminate.
    intros (i & j & Hi & Hj & G). specialize (Hall i j Hi Hj). lra.
  - rewrite E'. split; split; auto; try discriminate.
    intros Hall. destruct Hex as (i & j & Hi & Hj & G). specialize (Hall i j Hi Hj). lra.
Qed.

(** The statement for [A = U = VH] the identity of order 2 and
    [S = [1, 1]]. *)
Lemma validate_SVdD_raises_iff_some_entry_differs_run :
  (validate_SVdD_result (identity 2) (identity 2) [1; 1]%R (identity 2) = Err wrong_svd <->
   exists i j, i < 2 /\ j < 2 /\
     (THRESHOLD < magnitude_gap (identity 2)
                    (reconstruction_VH (identity 2) (identity 2) [1; 1]%R (identity 2))
                    i j)%R) /\
  (validate_SVdD_result (identity 2) (identity 2) [1; 1]%R (identity 2) = Ok tt <->
   forall i j, i < 2 -> j < 2 ->
     (magnitude_gap (identity 2)
        (reconstruction_VH (identity 2) (identity 2) [1; 1]%R (identity 2)) i j
      <= THRESHOLD)%R).
Proof.
  apply (@validate_SVdD_raises_iff_some_entry_differs
           (identity 2) (identity 2) [1; 1]%R (identity 2)).
  - apply well_formed_mk_matrix.
  - cbn [identity mk_matrix GetRows GetColumns length Nat.min]. lia.
  - reflexivity.
  - reflexivity.
  - reflexivity.
  - reflexivity.
Defined.

(** ** The sort on an ordered vector *)

Section Sorted.
Local Open Scope R_scope.

(** On a vector that never increases no entry after [S[k]] is above the
    running maximum: [select_max] returns the index [k] it started from. *)
Lemma select_max_of_an_ordered_vector (S : list R) (n k : nat) :
  non_increasing S n -> (k < n)%nat -> (n <= length S)%nat ->
  exists g, select_max S (Z.of_nat n) (Z.of_nat k) = Ok (g, Z.of_nat k).
Proof.
  intros Hord Hk Hn. unfold select_max, for_up.
  replace (Z.to_nat (Z.of_nat n - Z.of_nat k)) with (n - k)%nat by lia.
  destruct (@vget_in_range _ "S" S (Z.of_nat k)) as (sk & _ & Hsk); [lia |].
  rewrite Nat2Z.id in Hsk.
  destruct (@iterate_computes _
              (fun i (s : R * Z) =>
                 snd s = Z.of_nat k /\
                 ((fst s = -1 /\ ((k < i)%nat -> sk <= -1)) \/ fst s = sk))
              (fun i '(g, j) =>
                 si <- vget "S" S i ;;
                 if fltb g si then Ok (si, i) else Ok (g, j))
              (n - k) k (fopp f1, Z.of_nat k)) as ([g j] & E & Hj & _).
  - split; [reflexivity |]. left. split; [reflexivity | intro; lia].
  - intros i [g j] Hi [Hj Hg]. simpl in Hj, Hg. subst j.
    destruct (@vget_in_range _ "S" S (Z.of_nat i)) as (si & Ei & Hsi); [lia |].
    rewrite Nat2Z.id in Hsi. rewrite Ei. cbn [bind].
    cbv [fltb R_scalar].
    destruct (Rltb g si) eqn:T.
    + apply Rltb_true_iff in T.
      destruct (Nat.eq_dec i k) as [-> | Hne].
      * eexists. split; [reflexivity |]. simpl. split; [reflexivity |].
        right. congruence.
      * exfalso.
        assert (G : Rltb sk si = false).
        { apply (Hord k i sk si); auto; lia. }
        apply Rltb_false_iff in G.
        destruct Hg as [[-> Hlow] | ->]; [| lra].
        specialize (Hlow ltac:(lia)). lra.
    + apply Rltb_false_iff in T.
      eexists. split; [reflexivity |]. simpl. split; [reflexivity |].
      destruct Hg as [[-> Hlow] | ->]; [| right; reflexivity].
      left. split; [reflexivity |]. intros _.
      destruct (Nat.eq_dec i k) as [-> | Hne].
      * rewrite Hsk in Hsi. inversion Hsi; subst. exact T.
      * apply Hlow. lia.
  - simpl in Hj. subst j. exists g. exact E.
Qed.

(** The sort leaves what is in order alone: on a vector whose first [n]
    entries never increase it makes no exchange, in [S], in [U] or in
    [V]. *)
Theorem sort_leaves_an_ordered_vector (S : list R) (U V : cmatrix_t R) (n : nat) :
  non_increasing S n -> (n <= length S)%nat ->
  sort_singular_values (Z.of_nat n) S U V = Ok (S, U, V).
Proof.
  intros Hord Hn. unfold sort_singular_values, for_up.
  replace (Z.to_nat (Z.of_nat n - 0)) with n by lia.
  destruct (@iterate_computes _
              (fun _ (s : list R * cmatrix_t R * cmatrix_t R) => s = (S, U, V))
              (fun k '(S0, U0, V0) =>
                 '(g, j) <- select_max S0 (Z.of_nat n) k ;;
                 if negb (j =? k)%Z then
                   sk <- vget "S" S0 k ;;
                   S1 <- vset "S" S0 j sk ;;
                   S2 <- vset "S" S1 k g ;;
                   V1 <- swap_columns V0 (Z.of_nat n) j k ;;
                   U1 <- swap_columns U0 (Z.of_nat n) j k ;;
                   Ok (S2, U1, V1)
                 else Ok (S0, U0, V0))
              n 0%nat (S, U, V)) as (st' & E & ->).
  - reflexivity.
  - intros k s Hk ->.
    destruct (select_max_of_an_ordered_vector Hord (k := k)) as (g & Eg); [lia | lia |].
    rewrite Eg. cbn [bind]. rewrite Z.eqb_refl. cbn [negb].
    eexists. split; reflexivity.
  - exact E.
Qed.

End Sorted.

(** The ordered vector [[1, 1/2]] comes back as it went in. *)
Lemma sort_leaves_an_ordered_vector_run :
  sort_singular_values 2 [1; / 2]%R (identity 2) (identity 2)
  = Ok ([1; / 2]%R, identity 2, identity 2).
Proof.
  apply (@sort_leaves_an_ordered_vector [1; / 2]%R (identity 2) (identity 2) 2).
  - exact (proj1 one_and_a_half_is_ordered).
  - cbn [length]. lia.
Defined.

(** ** [csvd] on a matrix of zeros *)

Lemma list_set_repeat {A} (x : A) (n k : nat) :
  list_set (repeat x n) k x = repeat x n.
Proof.
  revert k; induction n as [| n IH]; intros [| k]; simpl; auto.
  rewrite IH. reflexivity.
Qed.

Lemma nth_error_repeat_Some {A} (x : A) (n k : nat) :
  k < n -> nth_error (repeat x n) k = Some x.
Proof.
  revert k; induction n as [| n IH]; intros [| k] H; simpl; try lia; auto.
  apply IH. lia.
Qed.

Section Null.
Context {F : Type} {SF : Scalar F}.
Hypothesis laws : null_laws F.

Lemma entry_mk_matrix (r c : nat) (f : nat -> nat -> complex_t F) (i j : nat) :
  i < r -> j < c -> entry (mk_matrix r c f) i j = f i j.
Proof.
  intros Hi Hj. unfold entry, mk_matrix. cbn [elems].
  rewrite (nth_indep _ [] (map (fun j0 => f 0 j0) (seq 0 c)))
    by (rewrite length_map, length_seq; exact Hi).
  rewrite (map_nth (fun i0 => map (fun j0 => f i0 j0) (seq 0 c)) (seq 0 r) 0 i).
  rewrite seq_nth by exact Hi. cbn [Nat.add].
  rewrite (nth_indep _ c0 (f i 0)) by (rewrite length_map, length_seq; exact Hj).
  rewrite (map_nth (fun j0 => f i j0) (seq 0 c) 0 j).
  rewrite seq_nth by exact Hj. reflexivity.
Qed.

Lemma mget_uniform (r c : nat) (a : complex_t F) (i j : nat) :
  i < r -> j < c ->
  mget (mk_matrix r c (fun _ _ => a)) (Z.of_nat i) (Z.of_nat j) = Ok a.
Proof.
  intros Hi Hj.
  rewrite (@mget_entry _ _ (mk_matrix r c (fun _ _ => a)) i j);
    [| apply well_formed_mk_matrix | exact Hi | exact Hj].
  rewrite entry_mk_matrix by assumption. reflexivity.
Qed.

Lemma mk_matrix_ext (r c : nat) (f g : nat -> nat -> complex_t F) :
  (forall i j, i < r -> j < c -> f i j = g i j) ->
  mk_matrix r c f = mk_matrix r c g.
Proof.
  intro H. unfold mk_matrix. f_equal.
  apply map_ext_in. intros i Hi. apply map_ext_in. intros j Hj.
  apply in_seq in Hi. apply in_seq in Hj. apply H; lia.
Qed.

Lemma dagger_zeros (m n : nat) :
  dagger (zeros m n : cmatrix_t F) = mk_matrix n m (fun _ _ => conj c0).
Proof.
  unfold dagger. change (GetColumns (zeros m n : cmatrix_t F)) with n.
  change (GetRows (zeros m n : cmatrix_t F)) with m.
  apply mk_matrix_ext. intros i j Hi Hj.
  unfold zeros. rewrite entry_mk_matrix by lia. reflexivity.
Qed.

(** The matrices of one entry [a] with [|a|^2 = 0]. *)
Variable a : complex_t F.
Hypothesis a_null : cnorm a = f0.
Variable rows : nat.
Variable cols : nat.
Local Abbreviation A := (mk_matrix rows cols (fun _ _ => a)).

Lemma column_norm2_null (k : nat) :
  k < cols ->
  column_norm2 A (Z.of_nat k) (Z.of_nat rows) = Ok f0.
Proof.
  intro Hk. unfold column_norm2, for_up.
  destruct (@iterate_computes _ (fun _ (z : F) => z = f0)
              (fun i z => x <- mget A i (Z.of_nat k) ;; Ok (fadd z (cnorm x)))
              (Z.to_nat (Z.of_nat rows - Z.of_nat k)) k f0) as (z & E & ->).
  - reflexivity.
  - intros i z Hi ->. rewrite mget_uniform by lia. cbn [bind].
    eexists. split; [reflexivity |].
    rewrite a_null. apply (zero_plus_zero laws).
  - exact E.
Qed.

Lemma row_norm2_null (k : nat) :
  k < rows ->
  row_norm2 A (Z.of_nat k) (Z.of_nat k + 1) (Z.of_nat cols) = Ok f0.
Proof.
  intro Hk. unfold row_norm2, for_up.
  replace (Z.of_nat k + 1)%Z with (Z.of_nat (Datatypes.S k)) by lia.
  destruct (@iterate_computes _ (fun _ (z : F) => z = f0)
              (fun j z => x <- mget A (Z.of_nat k) j ;; Ok (fadd z (cnorm x)))
              (Z.to_nat (Z.of_nat cols - Z.of_nat (Datatypes.S k))) (Datatypes.S k) f0)
    as (z & E & ->).
  - reflexivity.
  - intros j z Hj ->. rewrite mget_uniform by lia. cbn [bind].
    eexists. split; [reflexivity |].
    rewrite a_null. apply (zero_plus_zero laws).
  - exact E.
Qed.

Lemma vset_repeat (name : string) (size k : nat) :
  k < size ->
  vset name (repeat (f0 : F) size) (Z.of_nat k) f0 = Ok (repeat f0 size).
Proof.
  intro Hk. unfold vset.
  replace (in_range (Z.of_nat k) (length (repeat (f0 : F) size))) with true
    by (symmetry; apply in_range_iff; rewrite repeat_length; lia).
  rewrite Nat2Z.id, list_set_repeat. reflexivity.
Qed.

(** Phase 1 finds every column and row below [tol]: it leaves [A], [b]
    and [c] as they are. *)
Lemma bidiagonalize_null (size : nat) :
  cols <= rows -> rows <= size ->
  forall d rounds k,
    k + d = cols - 1 -> 1 <= cols -> d < rounds ->
    bidiagonalize rounds (Z.of_nat rows) (Z.of_nat cols) (Z.of_nat k) A
      (repeat f0 size) (repeat f0 size)
    = Ok (A, repeat f0 size, repeat f0 size).
Proof.
  intros Hcr Hrs. induction d as [| d IH]; intros rounds k Hk Hc Hr.
  - destruct rounds as [| rounds]; [lia |]. cbn [bidiagonalize].
    unfold column_reflector. rewrite column_norm2_null by lia. cbn [bind].
    rewrite vset_repeat by lia. cbn [bind].
    unfold tol. rewrite (tol_above_zero laws). cbn [bind].
    replace (Z.of_nat k =? Z.of_nat cols - 1)%Z with true
      by (symmetry; apply Z.eqb_eq; lia).
    reflexivity.
  - destruct rounds as [| rounds]; [lia |]. cbn [bidiagonalize].
    unfold column_reflector. rewrite column_norm2_null by lia. cbn [bind].
    rewrite vset_repeat by lia. cbn [bind].
    unfold tol. rewrite (tol_above_zero laws). cbn [bind].
    replace (Z.of_nat k =? Z.of_nat cols - 1)%Z with false
      by (symmetry; apply Z.eqb_neq; lia).
    unfold row_reflector. rewrite row_norm2_null by lia. cbn [bind].
    replace (Z.of_nat k + 1)%Z with (Z.of_nat (Datatypes.S k)) by lia.
    rewrite vset_repeat by lia. cbn [bind].
    unfold tol. rewrite (tol_above_zero laws). cbn [bind].
    apply IH; lia.
Qed.

End Null.

Section NullSpectrum.
Context {F : Type} {SF : Scalar F}.
Hypothesis laws : null_laws F.

Lemma splitting_tolerance_null (size n : nat) (S : rvector_t F) :
  n <= size -> n <= length S ->
  splitting_tolerance (Z.of_nat n) (repeat f0 size) (repeat f0 size) S (repeat f0 size)
  = Ok (f0, repeat f0 n ++ skipn n S, repeat f0 size).
Proof.
  intros Hs HS. unfold splitting_tolerance, for_up.
  replace (Z.to_nat (Z.of_nat n - 0)) with n by lia.
  match goal with
  | |- context [iterate _ _ _ ?body ?st0] =>
      destruct (@iterate_computes _
                  (fun k (s : F * rvector_t F * rvector_t F) =>
                     s = (f0, repeat f0 k ++ skipn k S, repeat f0 size))
                  body n 0 st0) as (st & E & ->)
  end.
  - reflexivity.
  - intros k s Hk ->.
    assert (Gz : forall name, vget name (repeat (f0 : F) size) (Z.of_nat k) = Ok f0).
    { intro name. destruct (@vget_in_range _ name (repeat (f0 : F) size) (Z.of_nat k))
        as (x & E & N); [rewrite repeat_length; lia |].
      rewrite Nat2Z.id, nth_error_repeat_Some in N by lia.
      inversion N; subst. exact E. }
    rewrite Gz. cbn [bind].
    assert (Lk : length (repeat (f0 : F) k) = k) by apply repeat_length.
    assert (ES : vset "S" (repeat f0 k ++ skipn k S) (Z.of_nat k) f0
                 = Ok (repeat f0 (Datatypes.S k) ++ skipn (Datatypes.S k) S)).
    { unfold vset.
      replace (in_range (Z.of_nat k) (length (repeat (f0 : F) k ++ skipn k S))) with true
        by (symmetry; apply in_range_iff;
            rewrite length_app, repeat_length, length_skipn; lia).
      rewrite Nat2Z.id.
      rewrite (skipn_nth S f0 (a := k)) by lia.
      rewrite (list_set_middle _ _ _ f0 Lk).
      replace (repeat (f0 : F) (Datatypes.S k)) with (repeat (f0 : F) k ++ [f0])
        by (symmetry; apply repeat_cons).
      rewrite <- app_assoc. reflexivity. }
    rewrite ES. cbn [bind]. rewrite Gz. cbn [bind].
    rewrite vset_repeat by lia. cbn [bind].
    assert (Gs : vget "S" (repeat f0 (Datatypes.S k) ++ skipn (Datatypes.S k) S)
                   (Z.of_nat k) = Ok (f0 : F)).
    { destruct (@vget_in_range _ "S"
                  (repeat (f0 : F) (Datatypes.S k) ++ skipn (Datatypes.S k) S)
                  (Z.of_nat k)) as (x & E & N);
        [rewrite length_app, repeat_length; lia |].
      rewrite Nat2Z.id in N.
      rewrite nth_error_app1 in N by (rewrite repeat_length; lia).
      rewrite nth_error_repeat_Some in N by lia.
      inversion N; subst. exact E. }
    rewrite Gs. cbn [bind]. rewrite Gz. cbn [bind].
    eexists. split; [reflexivity |].
    unfold fmax. rewrite (zero_plus_zero laws), (zero_below_zero laws). reflexivity.
  - match goal with
    | |- bind ?m _ = _ =>
        replace m with (Ok (f0 : F, repeat (f0 : F) (0 + n) ++ skipn (0 + n) S,
                            repeat (f0 : F) size))
          by (symmetry; exact E)
    end.
    cbn [bind Nat.add].
    unfold eta. rewrite (zero_times_eta laws). reflexivity.
Qed.

(** With [eps = 0] no test of the scan holds: it walks down to [l = 0]
    and reads [S[-1]]. *)
Lemma scan_null (size n : nat) (rest : rvector_t F) :
  forall l count,
    l < n -> l < size -> l < count ->
    scan count (Z.of_nat l) f0 (repeat f0 n ++ rest) (repeat f0 size)
    = Err (OutOfRange "S" (-1)).
Proof.
  induction l as [| l IH]; intros count Hn Hs Hc;
    (destruct count as [| count]; [lia |]).
  - apply (@scan_at_zero_reads_before_S _ _ count f0 _ _ f0).
    + apply nth_error_repeat_Some. exact Hs.
    + apply (abs_zero_below_zero laws).
  - cbn [scan].
    destruct (@vget_in_range _ "t" (repeat (f0 : F) size) (Z.of_nat (Datatypes.S l)))
      as (x & E & N); [rewrite repeat_length; lia |].
    rewrite Nat2Z.id, nth_error_repeat_Some in N by lia. inversion N; subst x.
    rewrite E. cbn [bind]. rewrite (abs_zero_below_zero laws).
    replace (Z.of_nat (Datatypes.S l) - 1)%Z with (Z.of_nat l) by lia.
    destruct (@vget_in_range _ "S" (repeat (f0 : F) n ++ rest) (Z.of_nat l))
      as (y & E' & N'); [rewrite length_app, repeat_length; lia |].
    rewrite Nat2Z.id in N'.
    rewrite nth_error_app1 in N' by (rewrite repeat_length; lia).
    rewrite nth_error_repeat_Some in N' by lia. inversion N'; subst y.
    rewrite E'. cbn [bind]. rewrite (abs_zero_below_zero laws).
    apply IH; lia.
Qed.

Lemma diagonalize_null (fuel size n : nat) (rest : rvector_t F) (U V : cmatrix_t F) :
  1 <= n -> n <= size ->
  diagonalize (Datatypes.S fuel) (Z.of_nat n) f0
    (QR (repeat f0 n ++ rest) (repeat f0 size) U V)
  = Err (OutOfRange "S" (-1)).
Proof.
  intros Hn Hs. unfold diagonalize, for_down_break.
  replace (Z.to_nat (Z.of_nat n - 1 - 0 + 1)) with (Datatypes.S (n - 1)) by lia.
  cbn [iterate_break qr_iterate qS qt].
  replace (Z.of_nat n - 1)%Z with (Z.of_nat (n - 1)) by lia.
  rewrite scan_null by lia. reflexivity.
Qed.

End NullSpectrum.

Lemma float_null_laws : null_laws float.
Proof. split; vm_compute; reflexivity. Qed.

Lemma R_null_laws : null_laws R.
Proof.
  split; cbn [fadd fmul fopp fabs fltb f0 lit_1e_10 lit_1_5e_34 R_scalar].
  - ring.
  - ring.
  - ring.
  - ring.
  - apply Rltb_false_iff. lra.
  - apply Rltb_false_iff. lra.
  - apply Rltb_false_iff. rewrite Rabs_R0. lra.
Qed.

(** [csvd] on a matrix of zeros, whatever its extents: every [b[k]] and
    [c[k]] stays zero, [eps] is zero, and no test of the scan of lines
    344-352 holds, so that it reaches [l = 0] and reads [S[-1]]. *)
Theorem csvd_of_zeros_reads_before_S {F : Type} {SF : Scalar F} (laws : null_laws F)
  (fuel m n : nat) (U : cmatrix_t F) (S : rvector_t F) (V : cmatrix_t F) :
  1 <= m -> 1 <= n -> Nat.min m n <= length S ->
  csvd (Datatypes.S fuel) (zeros m n) U S V = Err (OutOfRange "S" (-1)).
Proof.
  intros Hm Hn HS. unfold csvd.
  change (GetRows (zeros m n : cmatrix_t F)) with m.
  change (GetColumns (zeros m n : cmatrix_t F)) with n.
  set (size := Z.to_nat (Z.max (Z.of_nat m) (Z.of_nat n))).
  assert (Hsize : size = Nat.max m n) by (unfold size; lia).
  clearbody size.
  change 0%Z with (Z.of_nat 0) at 1.
  rewrite (vset_repeat "c" (size := size) (k := 0)) by lia. cbn [bind].
  destruct (Z.of_nat m <? Z.of_nat n)%Z eqn:T;
    [apply Z.ltb_lt in T | apply Z.ltb_ge in T]; cbv beta iota zeta.
  - rewrite dagger_zeros. rewrite Nat2Z.id.
    change 0%Z with (Z.of_nat 0) at 1.
    rewrite (@bidiagonalize_null _ _ laws (conj c0) (norm_of_zero_conj laws) n m size)
      with (d := m - 1) by lia.
    cbn [bind]. rewrite (splitting_tolerance_null laws) by lia. cbn [bind].
    rewrite (diagonalize_null laws) by lia. reflexivity.
  - rewrite Nat2Z.id.
    change 0%Z with (Z.of_nat 0) at 1.
    unfold zeros.
    rewrite (@bidiagonalize_null _ _ laws c0 (norm_of_zero laws) m n size)
      with (d := n - 1) by lia.
    cbn [bind]. rewrite (splitting_tolerance_null laws) by lia. cbn [bind].
    rewrite (diagonalize_null laws) by lia. reflexivity.
Qed.

(** The statement on binary64, for the 3x2 matrix of zeros. *)
Lemma csvd_of_zeros_reads_before_S_run :
  csvd 1 (zeros 3 2 : cmatrix_t float) no_matrix [0; 0]%float no_matrix
  = Err (OutOfRange "S" (-1)).
Proof.
  apply (csvd_of_zeros_reads_before_S float_null_laws 0 (m := 3) (n := 2));
    cbn [length Nat.min]; lia.
Defined.

(** ** The sign sweep and the product of the factors *)

Section Entries.
Context {F : Type} {SF : Scalar F}.

Lemma entry_outside (M : cmatrix_t F) (i j : nat) :
  well_formed M -> GetRows M <= i \/ GetColumns M <= j -> entry M i j = c0.
Proof.
  intros [HL HF] H. unfold entry.
  destruct (Nat.lt_ge_cases i (GetRows M)) as [Hi | Hi].
  - destruct H as [H | H]; [lia |].
    apply nth_overflow.
    rewrite Forall_forall in HF. rewrite (HF (nth i (elems M) [])); [exact H |].
    apply nth_In. lia.
  - rewrite (nth_overflow (elems M) []) by lia. destruct j; reflexivity.
Qed.

Lemma entry_dagger (M : cmatrix_t F) (i j : nat) :
  entry (dagger M) i j
  = if Nat.ltb i (GetColumns M) && Nat.ltb j (GetRows M)
    then conj (entry M j i) else c0.
Proof.
  unfold dagger.
  destruct (Nat.ltb_spec i (GetColumns M)) as [Hi | Hi];
    destruct (Nat.ltb_spec j (GetRows M)) as [Hj | Hj]; cbn [andb].
  - rewrite entry_mk_matrix by assumption. reflexivity.
  - apply entry_outside; [apply well_formed_mk_matrix |]. cbn [mk_matrix GetRows GetColumns]. lia.
  - apply entry_outside; [apply well_formed_mk_matrix |]. cbn [mk_matrix GetRows GetColumns]. lia.
  - apply entry_outside; [apply well_formed_mk_matrix |]. cbn [mk_matrix GetRows GetColumns]. lia.
Qed.

Lemma entry_mk_matrix_all (r c : nat) (f : nat -> nat -> complex_t F) (i j : nat) :
  entry (mk_matrix r c f) i j = if Nat.ltb i r && Nat.ltb j c then f i j else c0.
Proof.
  destruct (Nat.ltb_spec i r) as [Hi | Hi];
    destruct (Nat.ltb_spec j c) as [Hj | Hj]; cbn [andb].
  - rewrite entry_mk_matrix by assumption. reflexivity.
  - apply entry_outside; [apply well_formed_mk_matrix |]. cbn [mk_matrix GetRows GetColumns]. lia.
  - apply entry_outside; [apply well_formed_mk_matrix |]. cbn [mk_matrix GetRows GetColumns]. lia.
  - apply entry_outside; [apply well_formed_mk_matrix |]. cbn [mk_matrix GetRows GetColumns]. lia.
Qed.

Lemma fold_left_ext_in {A B} (f g : A -> B -> A) (l : list B) :
  (forall a x, In x l -> f a x = g a x) ->
  forall a, fold_left f l a = fold_left g l a.
Proof.
  induction l as [| x l IH]; intros H a; cbn [fold_left]; [reflexivity |].
  rewrite (H a x) by (left; reflexivity).
  apply IH. intros a' y Hy. apply H. right. exact Hy.
Qed.

End Entries.

Section Product.
Local Open Scope R_scope.

Lemma complex_eq (a b : complex_t R) : re a = re b -> im a = im b -> a = b.
Proof. destruct a, b; simpl; intros -> ->; reflexivity. Qed.

(** A sum whose terms all change sign changes sign. *)
Lemma negated_sum (u f g : nat -> complex_t R) (l : list nat) :
  (forall i, g i = cneg (f i)) ->
  forall a,
    fold_left (fun acc i => cadd acc (cmul (u i) (g i))) l (cneg a)
    = cneg (fold_left (fun acc i => cadd acc (cmul (u i) (f i))) l a).
Proof.
  intro H. induction l as [| i l IH]; intro a; cbn [fold_left]; [reflexivity |].
  rewrite <- IH. f_equal. rewrite H.
  apply complex_eq; cbn [re im cadd cmul cneg fadd fsub fmul fopp R_scalar]; ring.
Qed.

(** The sign sweep does not change [U . diag(S) . V^dagger]: the sign it
    takes from [S[k]] it gives to the column [k] of [V]. *)
Theorem sign_sweep_keeps_the_product (n k : Z) (w : R) (st st' : qr_state)
  (A : cmatrix_t R) :
  sign_sweep n k w st = Ok st' ->
  nth_error (qS st) (Z.to_nat k) = Some w ->
  GetRows (qV st) = Z.to_nat n ->
  reconstruction A (qU st') (qS st') (qV st')
  = reconstruction A (qU st) (qS st) (qV st).
Proof.
  intros H Hw HV.
  destruct (sign_sweep_flips _ _ _ _ H) as [Flip Same].
  destruct (Rltb w (fopp lit_1e_13)) eqn:T; [| rewrite (Same T); reflexivity].
  clear Same. destruct (Flip T) as (Hk & ES & _ & EU & EV). clear Flip.
  pose proof (@sign_sweep_keeps _ _
                (fun M => GetRows M = GetRows (qV st) /\ GetColumns M = GetColumns (qV st))
                (fun M i j x M' =>
                   @mset_keeps_dims _ _ (GetRows (qV st)) (GetColumns (qV st)) M i j x M')
                _ _ _ _ _ H) as [_ HD].
  destruct (HD (Logic.conj eq_refl eq_refl)) as [HR HC]. clear HD.
  unfold reconstruction. rewrite EU.
  cbn [GetRows GetColumns mk_matrix dagger]. rewrite HR.
  apply mk_matrix_ext. intros r j Hr Hj.
  unfold dot at 1 3. cbn [GetColumns mk_matrix].
  apply fold_left_ext_in. intros acc c Hc. apply in_seq in Hc. f_equal.
  rewrite !entry_mk_matrix by lia.
  rewrite !entry_dagger. rewrite HR, HC.
  destruct (Nat.eq_dec c (Z.to_nat k)) as [-> | Hne].
  - (* the column of the sweep *)
    assert (ED : dot (qU st) (mk_matrix (GetRows A) (GetColumns A) (diag_entry (qS st')))
                   r (Z.to_nat k)
                 = cneg (dot (qU st) (mk_matrix (GetRows A) (GetColumns A)
                                        (diag_entry (qS st))) r (Z.to_nat k))).
    { unfold dot.
      replace (c0 : complex_t R) with (cneg (c0 : complex_t R)) at 1
        by (apply complex_eq; cbn [re im cneg c0 fopp f0 R_scalar]; ring).
      apply (negated_sum (fun i => entry (qU st) r i)
               (fun i => entry (mk_matrix (GetRows A) (GetColumns A)
                                  (diag_entry (qS st))) i (Z.to_nat k))).
      intro i. rewrite !entry_mk_matrix_all.
      destruct (Nat.ltb i (GetRows A) && Nat.ltb (Z.to_nat k) (GetColumns A));
        [| apply complex_eq; cbn [re im cneg c0 fopp f0 R_scalar]; ring].
      unfold diag_entry.
      destruct (Nat.eqb_spec i (Z.to_nat k)) as [-> | Hi];
        [| apply complex_eq; cbn [re im cneg c0 fopp f0 R_scalar]; ring].
      rewrite ES.
      assert (Hin : (Z.to_nat k < length (qS st))%nat) by lia.
      rewrite (nth_error_nth _ _ _ (nth_error_list_set_same _ (fopp w) Hin)).
      rewrite (nth_error_nth _ _ _ Hw).
      apply complex_eq; cbn [re im cneg of_real fopp f0 R_scalar]; ring. }
    rewrite ED.
    destruct (Nat.ltb (Z.to_nat k) (GetColumns (qV st)) && Nat.ltb j (GetRows (qV st)));
      [| apply complex_eq; cbn [re im cmul cneg c0 fadd fsub fmul fopp f0 R_scalar]; ring].
    rewrite EV.
    replace (Nat.ltb j (Z.to_nat n)) with true by (symmetry; apply Nat.ltb_lt; lia).
    rewrite Nat.eqb_refl. cbn [andb].
    apply complex_eq; cbn [re im cmul cneg conj fadd fsub fmul fopp R_scalar]; ring.
  - (* the other columns *)
    assert (ED : dot (qU st) (mk_matrix (GetRows A) (GetColumns A) (diag_entry (qS st'))) r c
                 = dot (qU st) (mk_matrix (GetRows A) (GetColumns A)
                                  (diag_entry (qS st))) r c).
    { unfold dot. apply fold_left_ext_in. intros a i _. f_equal. f_equal.
      rewrite !entry_mk_matrix_all.
      destruct (Nat.ltb i (GetRows A) && Nat.ltb c (GetColumns A)); [| reflexivity].
      unfold diag_entry. destruct (Nat.eqb_spec i c) as [-> | Hi]; [| reflexivity].
      rewrite ES. unfold of_real. f_equal.
      assert (G : nth_error (list_set (qS st) (Z.to_nat k) (fopp w)) c
                  = nth_error (qS st) c)
        by (apply nth_error_list_set_other; congruence).
      destruct (nth_error (qS st) c) as [x |] eqn:N.
      - rewrite (nth_error_nth _ _ _ G), (nth_error_nth _ _ _ N). reflexivity.
      - apply nth_error_None in N. apply nth_error_None in G.
        rewrite !nth_overflow by assumption. reflexivity. }
    rewrite ED. f_equal.
    destruct (Nat.ltb c (GetColumns (qV st)) && Nat.ltb j (GetRows (qV st)));
      [| reflexivity].
    rewrite EV.
    replace (Nat.eqb c (Z.to_nat k)) with false by (symmetry; apply Nat.eqb_neq; exact Hne).
    rewrite andb_false_r. reflexivity.
Qed.

End Product.

(** The sweep on the 1x1 state with [S = [-1]]: the value becomes 1, the
    entry of [V] becomes -1, and the product is the one before. *)
Lemma sign_sweep_keeps_the_product_run :
  exists st',
    sign_sweep 1 0 (-1)%R (QR [(-1)%R] [0%R] (identity 1) (identity 1)) = Ok st' /\
    qS st' = [(- -1)%R] /\
    reconstruction (identity 1) (qU st') (qS st') (qV st')
    = reconstruction (identity 1) (identity 1) [(-1)%R] (identity 1).
Proof.
  assert (E : exists st',
             sign_sweep 1 0 (-1)%R (QR [(-1)%R] [0%R] (identity 1) (identity 1))
             = Ok st' /\ qS st' = [(- -1)%R]).
  { eexists. unfold sign_sweep. r_unfold. r_tests.
    cbn [qS qV qt qU vset in_range length Z.leb Z.ltb Z.compare Z.of_nat
         Pos.of_succ_nat andb bind list_set Z.to_nat].
    split; reflexivity. }
  destruct E as (st' & E & ES). exists st'. split; [exact E |]. split; [exact ES |].
  apply (@sign_sweep_keeps_the_product 1 0 (-1)%R
           (QR [(-1)%R] [0%R] (identity 1) (identity 1)) st' (identity 1) E);
    reflexivity.
Defined.

(** ** The sort within bounds *)

Section Within.
Context {F : Type} {SF : Scalar F}.

Lemma vset_in_range {A} (name : string) (v : list A) (i : nat) (x : A) :
  i < length v -> vset name v (Z.of_nat i) x = Ok (list_set v i x).
Proof.
  intro H. unfold vset.
  assert (E : in_range (Z.of_nat i) (length v) = true) by (apply in_range_iff; lia).
  rewrite E, Nat2Z.id. reflexivity.
Qed.

Lemma mset_in_range (r c : nat) (M : cmatrix_t F) (i j : nat) (x : complex_t F) :
  has_extents r c M -> i < r -> j < c ->
  exists M', mset M (Z.of_nat i) (Z.of_nat j) x = Ok M' /\ has_extents r c M'.
Proof.
  intros HM Hi Hj.
  assert (E : exists M', mset M (Z.of_nat i) (Z.of_nat j) x = Ok M').
  { destruct HM as (HR & HC & HL & HF). unfold mset.
    assert (R1 : in_range (Z.of_nat i) (GetRows M) = true) by (apply in_range_iff; lia).
    assert (R2 : in_range (Z.of_nat j) (GetColumns M) = true) by (apply in_range_iff; lia).
    rewrite R1, R2. cbn [andb]. rewrite Nat2Z.id.
    destruct (nth_error (elems M) i) as [row |] eqn:N.
    - assert (Hrow : length row = GetColumns M).
      { rewrite Forall_forall in HF. apply HF. eapply nth_error_In. exact N. }
      assert (R3 : in_range (Z.of_nat j) (length row) = true)
        by (apply in_range_iff; lia).
      rewrite R3. eexists. reflexivity.
    - apply nth_error_None in N. lia. }
  destruct E as [M' E]. exists M'. split; [exact E |].
  exact (@mset_has_extents _ _ r c M _ _ x M' E HM).
Qed.

(** The exchange of two columns stays inside a matrix that has them, and
    the rows it runs over. *)
Lemma swap_columns_returns (r c : nat) (M : cmatrix_t F) (n j k : nat) :
  has_extents r c M -> n <= r -> j < c -> k < c ->
  exists M', swap_columns M (Z.of_nat n) (Z.of_nat j) (Z.of_nat k) = Ok M' /\
             has_extents r c M'.
Proof.
  intros HM Hn Hj Hk. unfold swap_columns, for_up.
  replace (Z.to_nat (Z.of_nat n - 0)) with n by lia.
  destruct (@iterate_computes _ (fun _ M1 => has_extents r c M1)
              (fun i M0 =>
                 q <- mget M0 i (Z.of_nat j) ;;
                 mik <- mget M0 i (Z.of_nat k) ;;
                 M1 <- mset M0 i (Z.of_nat j) mik ;;
                 mset M1 i (Z.of_nat k) q) n 0 M HM) as (M' & E & HM').
  - intros i M0 Hi HM0. pose proof HM0 as (HR & HC & HW).
    rewrite !mget_entry by (try exact HW; lia). cbn [bind].
    destruct (@mset_in_range r c M0 i j (entry M0 i k)) as (M1 & E1 & H1);
      [exact HM0 | lia | lia |].
    rewrite E1. cbn [bind].
    destruct (@mset_in_range r c M1 i k (entry M0 i j)) as (M2 & E2 & H2);
      [exact H1 | lia | lia |].
    exists M2. split; assumption.
  - exists M'. split; [exact E | exact HM'].
Qed.

(** The selection reads [S[k..n-1]] and returns an index of that range. *)
Lemma select_max_returns (S : rvector_t F) (n k : nat) :
  k < n -> n <= length S ->
  exists g j, select_max S (Z.of_nat n) (Z.of_nat k) = Ok (g, Z.of_nat j) /\
              k <= j < n.
Proof.
  intros Hk Hn. unfold select_max, for_up.
  replace (Z.to_nat (Z.of_nat n - Z.of_nat k)) with (n - k) by lia.
  destruct (@iterate_computes _
              (fun (_ : nat) (s : F * Z) =>
                 exists j, snd s = Z.of_nat j /\ k <= j < n)
              (fun i '(g, j) =>
                 si <- vget "S" S i ;;
                 if g <? si then Ok (si, i) else Ok (g, j))%sc
              (n - k) k (fopp f1, Z.of_nat k)) as ([g j] & E & (j' & Ej & Hj)).
  - exists k. split; [reflexivity | lia].
  - intros i [g j] Hi (j' & Ej & Hj). cbn [snd] in Ej.
    rewrite (vget_nat "S" S f0) by lia. cbn [bind].
    destruct (g <? nth i S f0)%sc.
    + eexists. split; [reflexivity |]. exists i. split; [reflexivity | lia].
    + eexists. split; [reflexivity |]. exists j'. split; [exact Ej | exact Hj].
  - cbn [snd] in Ej. subst j. exists g, j'. split; [exact E | exact Hj].
Qed.

(** Within a vector of [n] entries and two matrices of [n] rows and
    columns or more, the sort indexes nothing outside. *)
Lemma sort_singular_values_returns (n : nat) (S : rvector_t F) (U V : cmatrix_t F)
  (rU cU rV cV : nat) :
  n <= length S ->
  has_extents rU cU U -> n <= rU -> n <= cU ->
  has_extents rV cV V -> n <= rV -> n <= cV ->
  exists S' U' V', sort_singular_values (Z.of_nat n) S U V = Ok (S', U', V').
Proof.
  intros HS HU HrU HcU HV HrV HcV. unfold sort_singular_values, for_up.
  replace (Z.to_nat (Z.of_nat n - 0)) with n by lia.
  destruct (@iterate_computes _
              (fun (_ : nat) (s : rvector_t F * cmatrix_t F * cmatrix_t F) =>
                 n <= length (fst (fst s)) /\
                 has_extents rU cU (snd (fst s)) /\ has_extents rV cV (snd s))
              (fun k '(S0, U0, V0) =>
                 '(g, j) <- select_max S0 (Z.of_nat n) k ;;
                 if negb (j =? k)%Z then
                   sk <- vget "S" S0 k ;;
                   S1 <- vset "S" S0 j sk ;;
                   S2 <- vset "S" S1 k g ;;
                   V1 <- swap_columns V0 (Z.of_nat n) j k ;;
                   U1 <- swap_columns U0 (Z.of_nat n) j k ;;
                   Ok (S2, U1, V1)
                 else Ok (S0, U0, V0))
              n 0 (S, U, V)) as ([[S' U'] V'] & E & _).
  - cbn [fst snd]. split; [exact HS | split; assumption].
  - intros k [[S0 U0] V0] Hk (H0 & HU0 & HV0). cbn [fst snd] in H0, HU0, HV0.
    destruct (@select_max_returns S0 n k) as (g & j & Emax & Hj); [lia | exact H0 |].
    rewrite Emax. cbn [bind].
    destruct (negb (Z.of_nat j =? Z.of_nat k)%Z).
    + rewrite (vget_nat "S" S0 f0) by lia. cbn [bind].
      rewrite vset_in_range by lia. cbn [bind].
      rewrite vset_in_range by (rewrite length_list_set; lia). cbn [bind].
      destruct (@swap_columns_returns rV cV V0 n j k) as (V1 & EV & HV1);
        [exact HV0 | lia | lia | lia |].
      rewrite EV. cbn [bind].
      destruct (@swap_columns_returns rU cU U0 n j k) as (U1 & EU & HU1);
        [exact HU0 | lia | lia | lia |].
      rewrite EU. cbn [bind].
      eexists. split; [reflexivity |]. cbn [fst snd].
      rewrite !length_list_set. split; [exact H0 | split; assumption].
    + eexists. split; [reflexivity |]. cbn [fst snd].
      split; [exact H0 | split; assumption].
  - exists S', U', V'. exact E.
Qed.

End Within.

Section Bounds.
Context {F : Type} {SF : Scalar F}.

(** The sort of lines 504-530 stays within bounds: on a vector of [n]
    entries or more and two matrices of [n] rows and [n] columns or more
    it returns, with [S] of the length and [U] and [V] of the extents they
    had. *)
Theorem sort_stays_within_bounds (n : nat) (S : rvector_t F) (U V : cmatrix_t F)
  (rU cU rV cV : nat) :
  n <= length S ->
  has_extents rU cU U -> n <= rU -> n <= cU ->
  has_extents rV cV V -> n <= rV -> n <= cV ->
  exists S' U' V',
    sort_singular_values (Z.of_nat n) S U V = Ok (S', U', V') /\
    length S' = length S /\ has_extents rU cU U' /\ has_extents rV cV V'.
Proof.
  intros HS HU HrU HcU HV HrV HcV.
  destruct (@sort_singular_values_returns _ _ n S U V rU cU rV cV)
    as (S' & U' & V' & E); try assumption.
  exists S', U', V'. split; [exact E |].
  split; [exact (sort_singular_values_length _ _ _ _ E) |].
  split.
  - apply (proj1 (@sort_singular_values_keeps _ _ (has_extents rU cU)
                    (fun M i j x M' => @mset_has_extents _ _ rU cU M i j x M')
                    _ _ _ _ _ _ _ E)).
    exact HU.
  - apply (proj2 (@sort_singular_values_keeps _ _ (has_extents rV cV)
                    (fun M i j x M' => @mset_has_extents _ _ rV cV M i j x M')
                    _ _ _ _ _ _ _ E)).
    exact HV.
Qed.

End Bounds.

(** The sort of [[1/2, 1]] beside two identities of order 2, on binary64. *)
Lemma sort_stays_within_bounds_run :
  exists S' U' V',
    sort_singular_values 2 [0.5; 1]%float (identity 2) (identity 2) = Ok (S', U', V') /\
    length S' = 2 /\ has_extents 2 2 U' /\ has_extents 2 2 V'.
Proof.
  apply (@sort_stays_within_bounds float float_scalar 2 [0.5; 1]%float
           (identity 2) (identity 2) 2 2 2 2).
  - cbn [length]. lia.
  - apply identity_has_extents.
  - lia.
  - lia.
  - apply identity_has_extents.
  - lia.
  - lia.
Defined.

(** ** The sort and the product of the factors *)

Section Reordered.
Local Open Scope R_scope.

Lemma cadd_c0 (a : complex_t R) : cadd a c0 = a.
Proof. apply complex_eq; cbn [re im cadd c0 fadd f0 R_scalar]; ring. Qed.

Lemma cmul_c0_l (a : complex_t R) : cmul c0 a = c0.
Proof. apply complex_eq; cbn [re im cmul c0 fadd fsub fmul f0 R_scalar]; ring. Qed.

Lemma cmul_c0_r (a : complex_t R) : cmul a c0 = c0.
Proof. apply complex_eq; cbn [re im cmul c0 fadd fsub fmul f0 R_scalar]; ring. Qed.

(** A sum with one term that is not zero. *)
Lemma single_term_sum (t : nat -> complex_t R) (c : nat) :
  (forall i, i <> c -> t i = c0) ->
  forall (len a : nat) (acc : complex_t R),
    fold_left (fun acc i => cadd acc (t i)) (seq a len) acc
    = cadd acc (if Nat.leb a c && Nat.ltb c (a + len) then t c else c0).
Proof.
  intro H. induction len as [| len IH]; intros a acc.
  - cbn [seq fold_left].
    replace (Nat.leb a c && Nat.ltb c (a + 0)) with false; [symmetry; apply cadd_c0 |].
    symmetry. apply andb_false_iff.
    destruct (Nat.leb_spec a c); [right; apply Nat.ltb_ge; lia | left; reflexivity].
  - cbn [seq fold_left]. rewrite IH.
    destruct (Nat.eq_dec a c) as [-> | Hne].
    + replace (Nat.leb (Datatypes.S c) c) with false by (symmetry; apply Nat.leb_gt; lia).
      replace (Nat.leb c c) with true by (symmetry; apply Nat.leb_le; lia).
      replace (Nat.ltb c (c + Datatypes.S len)) with true
        by (symmetry; apply Nat.ltb_lt; lia).
      cbn [andb]. apply cadd_c0.
    + rewrite (H a Hne), cadd_c0. f_equal.
      replace (Nat.leb (Datatypes.S a) c) with (Nat.leb a c).
      * replace (Datatypes.S a + len)%nat with (a + Datatypes.S len)%nat by lia.
        reflexivity.
      * destruct (Nat.leb_spec a c); symmetry; [apply Nat.leb_le | apply Nat.leb_gt]; lia.
Qed.

(** The entry [(r, c)] of [U . diag(S)]. *)
Lemma dot_diag (U : cmatrix_t R) (S : list R) (m n r c : nat) :
  (c < n)%nat -> (c < m)%nat -> (c < GetColumns U)%nat ->
  dot U (mk_matrix m n (diag_entry S)) r c
  = cmul (entry U r c) (of_real (nth c S 0)).
Proof.
  intros Hn Hm HU. unfold dot.
  rewrite (@single_term_sum
             (fun i => cmul (entry U r i) (entry (mk_matrix m n (diag_entry S)) i c)) c).
  - replace (Nat.leb 0 c && Nat.ltb c (0 + GetColumns U)) with true.
    + rewrite entry_mk_matrix by assumption. unfold diag_entry.
      rewrite Nat.eqb_refl.
      apply complex_eq; cbn [re im cadd cmul c0 of_real fadd fsub fmul f0 R_scalar]; ring.
    + symmetry. apply andb_true_iff. split; [apply Nat.leb_le | apply Nat.ltb_lt]; lia.
  - intros i Hi. rewrite entry_mk_matrix_all.
    destruct (Nat.ltb i m && Nat.ltb c n); [| apply cmul_c0_r].
    unfold diag_entry.
    replace (Nat.eqb i c) with false by (symmetry; apply Nat.eqb_neq; exact Hi).
    apply cmul_c0_r.
Qed.

Lemma sum_over_map (h : nat -> complex_t R) (p : nat -> nat) (l : list nat) :
  forall a,
    fold_left (fun acc c => cadd acc (h (p c))) l a
    = fold_left (fun acc c => cadd acc (h c)) (map p l) a.
Proof.
  induction l as [| x l IH]; intro a; cbn [map fold_left]; [reflexivity | apply IH].
Qed.

(** A sum does not depend on the order of its terms. *)
Lemma sum_permutation (h : nat -> complex_t R) (l l' : list nat) :
  Permutation l l' ->
  forall a,
    fold_left (fun acc c => cadd acc (h c)) l a
    = fold_left (fun acc c => cadd acc (h c)) l' a.
Proof.
  induction 1 as [| x l l' _ IH | x y l | l l' l'' _ IH1 _ IH2]; intro a;
    cbn [fold_left].
  - reflexivity.
  - apply IH.
  - f_equal. apply complex_eq; cbn [re im cadd fadd R_scalar]; ring.
  - rewrite IH1. apply IH2.
Qed.

(** A permutation of the indices below [n] permutes [0, ..., n-1]. *)
Lemma permutation_of_the_indices (p q : nat -> nat) (n : nat) :
  (forall i, q (p i) = i) -> (forall i, p (q i) = i) ->
  (forall i, (n <= i)%nat -> p i = i) ->
  Permutation (map p (seq 0 n)) (seq 0 n).
Proof.
  intros Hqp Hpq Hfix.
  assert (Inj : forall x y, p x = p y -> x = y).
  { intros x y E. rewrite <- (Hqp x), <- (Hqp y), E. reflexivity. }
  assert (Below : forall x, (x < n)%nat -> (p x < n)%nat).
  { intros x Hx. destruct (Nat.lt_ge_cases (p x) n) as [L | G]; [exact L |].
    pose proof (Hfix (p x) G) as E. apply Inj in E. lia. }
  apply NoDup_Permutation.
  - apply Finite.Injective_map_NoDup; [exact Inj | apply seq_NoDup].
  - apply seq_NoDup.
  - intro x. rewrite in_map_iff. split.
    + intros (y & <- & Hy). apply in_seq in Hy. apply in_seq.
      pose proof (Below y). lia.
    + intro Hx. apply in_seq in Hx. exists (q x). split; [apply Hpq |].
      apply in_seq.
      destruct (Nat.lt_ge_cases (q x) n) as [L | G]; [lia |].
      pose proof (Hfix (q x) G) as E. rewrite Hpq in E. lia.
Qed.

Lemma nth_of_nth_error (S S' : list R) (i j : nat) :
  nth_error S' i = nth_error S j -> nth i S' 0 = nth j S 0.
Proof.
  intro E. destruct (nth_error S j) as [x |] eqn:N.
  - rewrite (nth_error_nth _ _ _ E), (nth_error_nth _ _ _ N). reflexivity.
  - apply nth_error_None in N. apply nth_error_None in E.
    rewrite !nth_overflow by assumption. reflexivity.
Qed.

(** The sort does not change [U . diag(S) . V^dagger]: it moves the
    entries of [S] and the columns of [U] and [V] by one permutation.  [U]
    and [V] are exchanged in their rows below [n] only (lines 518 and
    524), which is all of [V], and is enough for [U] when its rows from
    [n] on hold zeros in the columns below [n], as they do in [csvd]. *)
Theorem sort_keeps_the_product (n : nat) (S S' : list R) (U V U' V' A : cmatrix_t R) :
  sort_singular_values (Z.of_nat n) S U V = Ok (S', U', V') ->
  GetColumns A = n -> (n <= GetRows A)%nat ->
  (n <= GetColumns U)%nat ->
  GetRows V = n -> (n <= GetColumns V)%nat ->
  (forall r c, (n <= r)%nat -> (c < n)%nat -> entry U r c = c0) ->
  reconstruction A U' S' V' = reconstruction A U S V.
Proof.
  intros H HA HmA HU HV HcV Hblock.
  destruct (sort_lockstep _ _ _ _ H) as [p L]. rewrite Nat2Z.id in L.
  destruct L as ((q & Hqp & Hpq) & Hfix & LS & LU & LV).
  pose proof (@sort_singular_values_keeps _ _
                (fun M => GetRows M = GetRows U /\ GetColumns M = GetColumns U)
                (fun M i j x M' =>
                   @mset_keeps_dims _ _ (GetRows U) (GetColumns U) M i j x M')
                _ _ _ _ _ _ _ H) as [DU _].
  pose proof (@sort_singular_values_keeps _ _
                (fun M => GetRows M = GetRows V /\ GetColumns M = GetColumns V)
                (fun M i j x M' =>
                   @mset_keeps_dims _ _ (GetRows V) (GetColumns V) M i j x M')
                _ _ _ _ _ _ _ H) as [_ DV].
  destruct (DU (Logic.conj eq_refl eq_refl)) as [UR UC].
  destruct (DV (Logic.conj eq_refl eq_refl)) as [VR VC]. clear DU DV.
  unfold reconstruction.
  cbn [GetRows GetColumns mk_matrix dagger]. rewrite UR, VR.
  apply mk_matrix_ext. intros r j Hr Hj.
  unfold dot at 1 3. cbn [GetColumns mk_matrix]. rewrite HA.
  set (h := fun c : nat =>
              cmul (cmul (entry U r c) (of_real (nth c S 0))) (conj (entry V j c))).
  assert (New : forall acc c, In c (seq 0 n) ->
            cadd acc (cmul (entry (mk_matrix (GetRows U) n
                                     (dot U' (mk_matrix (GetRows A) n (diag_entry S')))) r c)
                           (entry (mk_matrix (GetColumns V') (GetRows V')
                                     (fun i k => conj (entry V' k i))) c j))
            = cadd acc (if Nat.ltb r n then h (p c) else h c)).
  { intros acc c Hc. apply in_seq in Hc. f_equal.
    rewrite !entry_mk_matrix by lia.
    rewrite dot_diag by lia.
    rewrite LU, LV.
    replace (Nat.ltb j n) with true by (symmetry; apply Nat.ltb_lt; lia).
    destruct (Nat.ltb_spec r n) as [Hrn | Hrn].
    - unfold h. rewrite (@nth_of_nth_error _ _ _ _ (LS c)). reflexivity.
    - unfold h. rewrite (Hblock r c) by lia. rewrite !cmul_c0_l. reflexivity. }
  assert (Old : forall acc c, In c (seq 0 n) ->
            cadd acc (cmul (entry (mk_matrix (GetRows U) n
                                     (dot U (mk_matrix (GetRows A) n (diag_entry S)))) r c)
                           (entry (mk_matrix (GetColumns V) (GetRows V)
                                     (fun i k => conj (entry V k i))) c j))
            = cadd acc (h c)).
  { intros acc c Hc. apply in_seq in Hc. f_equal.
    rewrite !entry_mk_matrix by lia.
    rewrite dot_diag by lia. reflexivity. }
  rewrite (fold_left_ext_in _ _ _ New), (fold_left_ext_in _ _ _ Old).
  destruct (Nat.ltb r n); [| reflexivity].
  rewrite sum_over_map.
  apply sum_permutation.
  apply (permutation_of_the_indices p q); assumption.
Qed.

End Reordered.

(** The sort of [[1/2, 1]] beside two identities of order 2, in exact
    arithmetic: the product is the one before. *)
Lemma sort_keeps_the_product_run :
  exists S' U' V',
    sort_singular_values 2 [/ 2; 1]%R (identity 2) (identity 2) = Ok (S', U', V') /\
    reconstruction (identity 2) U' S' V'
    = reconstruction (identity 2) (identity 2) [/ 2; 1]%R (identity 2).
Proof.
  destruct (@sort_singular_values_returns R R_scalar 2 [/ 2; 1]%R
              (identity 2) (identity 2) 2 2 2 2) as (S' & U' & V' & E).
  - cbn [length]. lia.
  - apply identity_has_extents.
  - lia.
  - lia.
  - apply identity_has_extents.
  - lia.
  - lia.
  - exists S', U', V'. split; [exact E |].
    apply (@sort_keeps_the_product 2 [/ 2; 1]%R S' (identity 2) (identity 2) U' V'
             (identity 2) E).
    + reflexivity.
    + cbn [identity mk_matrix GetRows]. lia.
    + cbn [identity mk_matrix GetColumns]. lia.
    + reflexivity.
    + cbn [identity mk_matrix GetColumns]. lia.
    + intros r c Hr Hc. apply entry_outside; [apply well_formed_mk_matrix |].
      left. cbn [identity mk_matrix GetRows]. exact Hr.
Defined.

(** ** The faults of [csvd] *)

Section Safety.
Variable ok : fault -> Prop.

Lemma within_bind {A B} (Q : A -> Prop) (P : B -> Prop) (m : result A)
  (f : A -> result B) :
  within ok Q m -> (forall x, Q x -> within ok P (f x)) -> within ok P (bind m f).
Proof.
  destruct m as [x | e]; cbn [within bind]; intros H K; [apply K; exact H | exact H].
Qed.

Lemma within_weaken {A} (Q P : A -> Prop) (r : result A) :
  within ok Q r -> (forall x, Q x -> P x) -> within ok P r.
Proof.
  destruct r as [x | e]; cbn [within]; intros H K; [apply K; exact H | exact H].
Qed.

Lemma within_iterate {St} (Inv : St -> Prop) (step : Z) (body : Z -> St -> result St) :
  forall count i st,
    Inv st ->
    (forall m s, m < count -> Inv s ->
                 within ok Inv (body (i + Z.of_nat m * step)%Z s)) ->
    within ok Inv (iterate count i step body st).
Proof.
  induction count as [| count IH]; intros i st H0 Hb; cbn [iterate].
  - exact H0.
  - apply within_bind with (Q := Inv).
    + replace i with (i + Z.of_nat 0 * step)%Z at 1 by lia. apply Hb; [lia | exact H0].
    + intros s Hs. apply IH; [exact Hs |].
      intros m s' Hm Hs'.
      replace (i + step + Z.of_nat m * step)%Z
        with (i + Z.of_nat (Datatypes.S m) * step)%Z by lia.
      apply Hb; [lia | exact Hs'].
Qed.

Lemma within_iterate_break {St} (Inv : St -> Prop) (step : Z)
  (body : Z -> St -> result (flow St)) :
  forall count i st,
    Inv st ->
    (forall m s, m < count -> Inv s ->
                 within ok (fun r => Inv (carried r))
                   (body (i + Z.of_nat m * step)%Z s)) ->
    within ok Inv (iterate_break count i step body st).
Proof.
  induction count as [| count IH]; intros i st H0 Hb; cbn [iterate_break].
  - exact H0.
  - apply within_bind with (Q := fun r => Inv (carried r)).
    + replace i with (i + Z.of_nat 0 * step)%Z at 1 by lia. apply Hb; [lia | exact H0].
    + intros [s | s] Hs; cbn [carried] in Hs; [| exact Hs].
      apply IH; [exact Hs |].
      intros m s' Hm Hs'.
      replace (i + step + Z.of_nat m * step)%Z
        with (i + Z.of_nat (Datatypes.S m) * step)%Z by lia.
      apply Hb; [lia | exact Hs'].
Qed.

Lemma within_for_up {St} (Inv : St -> Prop) (lo hi : Z) (body : Z -> St -> result St)
  (st : St) :
  Inv st ->
  (forall i s, (lo <= i < hi)%Z -> Inv s -> within ok Inv (body i s)) ->
  within ok Inv (for_up lo hi body st).
Proof.
  intros H0 Hb. unfold for_up. apply within_iterate; [exact H0 |].
  intros m s Hm Hs. apply Hb; [lia | exact Hs].
Qed.

Lemma within_for_down {St} (Inv : St -> Prop) (hi lo : Z) (body : Z -> St -> result St)
  (st : St) :
  Inv st ->
  (forall i s, (lo <= i <= hi)%Z -> Inv s -> within ok Inv (body i s)) ->
  within ok Inv (for_down hi lo body st).
Proof.
  intros H0 Hb. unfold for_down. apply within_iterate; [exact H0 |].
  intros m s Hm Hs. apply Hb; [lia | exact Hs].
Qed.

Lemma within_for_up_break {St} (Inv : St -> Prop) (lo hi : Z)
  (body : Z -> St -> result (flow St)) (st : St) :
  Inv st ->
  (forall i s, (lo <= i < hi)%Z -> Inv s ->
               within ok (fun r => Inv (carried r)) (body i s)) ->
  within ok Inv (for_up_break lo hi body st).
Proof.
  intros H0 Hb. unfold for_up_break. apply within_iterate_break; [exact H0 |].
  intros m s Hm Hs. apply Hb; [lia | exact Hs].
Qed.

Lemma within_for_down_break {St} (Inv : St -> Prop) (hi lo : Z)
  (body : Z -> St -> result (flow St)) (st : St) :
  Inv st ->
  (forall i s, (lo <= i <= hi)%Z -> Inv s ->
               within ok (fun r => Inv (carried r)) (body i s)) ->
  within ok Inv (for_down_break hi lo body st).
Proof.
  intros H0 Hb. unfold for_down_break. apply within_iterate_break; [exact H0 |].
  intros m s Hm Hs. apply Hb; [lia | exact Hs].
Qed.

Lemma within_vget {A} (name : string) (v : list A) (i : Z) :
  (0 <= i < Z.of_nat (length v))%Z -> within ok (fun _ => True) (vget name v i).
Proof.
  intro H. destruct (@vget_in_range _ name v i H) as (x & E & _). rewrite E. exact I.
Qed.

Lemma within_vset {A} (name : string) (v : list A) (i : Z) (x : A) :
  (0 <= i < Z.of_nat (length v))%Z ->
  within ok (fun v' => length v' = length v) (vset name v i x).
Proof.
  intro H. unfold vset.
  assert (E : in_range i (length v) = true) by (apply in_range_iff; exact H).
  rewrite E. cbn [within]. apply length_list_set.
Qed.

Section Entries.
Context {F : Type} {SF : Scalar F}.

Lemma within_mget (r c : nat) (M : cmatrix_t F) (i j : Z) :
  has_extents r c M -> (0 <= i < Z.of_nat r)%Z -> (0 <= j < Z.of_nat c)%Z ->
  within ok (fun _ => True) (mget M i j).
Proof.
  intros (HR & HC & HW) Hi Hj.
  rewrite <- (Z2Nat.id i), <- (Z2Nat.id j) by lia.
  rewrite mget_entry by (try exact HW; lia). exact I.
Qed.

Lemma within_mset (r c : nat) (M : cmatrix_t F) (i j : Z) (x : complex_t F) :
  has_extents r c M -> (0 <= i < Z.of_nat r)%Z -> (0 <= j < Z.of_nat c)%Z ->
  within ok (has_extents r c) (mset M i j x).
Proof.
  intros HM Hi Hj.
  destruct (@mset_in_range _ _ r c M (Z.to_nat i) (Z.to_nat j) x HM) as (M' & E & HM');
    [lia | lia |].
  rewrite !Z2Nat.id in E by lia. rewrite E. exact HM'.
Qed.

End Entries.
End Safety.

(** One access, or one test, of a body. *)
Ltac access :=
  match goal with
  | |- within _ _ (bind (mget _ _ _) _) =>
      eapply within_bind;
      [eapply within_mget; [eassumption | lia | lia] | intros ? _]
  | |- within _ _ (bind (vget _ _ _) _) =>
      eapply within_bind; [apply within_vget; lia | intros ? _]
  | |- within _ _ (bind (vset _ _ _ _) _) =>
      eapply within_bind; [apply within_vset; lia | intros ? ?; cbv beta in * ]
  | |- within _ _ (bind (mset _ _ _ _) _) =>
      eapply within_bind;
      [eapply within_mset; [eassumption | lia | lia] | intros ? ?; cbv beta in * ]
  | |- within _ _ (mset _ _ _ _) =>
      eapply within_mset; [eassumption | lia | lia]
  | |- within _ _ (if ?c then _ else _) => destruct c
  end.

(** A loop with the invariant [inv], followed by the rest of the body. *)
Ltac loop inv :=
  match goal with
  | |- within _ _ (bind (for_up _ _ _ _) _) =>
      eapply within_bind;
      [apply within_for_up with (Inv := inv); [| intros ? ? ? ?] | intros ? ?];
      cbv beta in *
  | |- within _ _ (bind (for_down _ _ _ _) _) =>
      eapply within_bind;
      [apply within_for_down with (Inv := inv); [| intros ? ? ? ?] | intros ? ?];
      cbv beta in *
  | |- within _ _ (for_up _ _ _ _) =>
      apply within_for_up with (Inv := inv); [| intros ? ? ? ?]; cbv beta in *
  | |- within _ _ (for_down _ _ _ _) =>
      apply within_for_down with (Inv := inv); [| intros ? ? ? ?]; cbv beta in *
  end.

(** What is left when a body is through. *)
Ltac through :=
  cbn [within fst snd carried] in *;
  intuition (try congruence; try lia).

(** The loops over a matrix keep its extents; those that sum keep
    nothing. *)
Ltac loop_of st :=
  match goal with
  | H : has_extents ?r ?c st |- _ => loop (fun M => has_extents r c M); [exact H | |]
  | _ => let T := type of st in loop (fun _ : T => True); [exact I | |]
  end.

Ltac last_loop_of st :=
  match goal with
  | H : has_extents ?r ?c st |- _ => loop (fun M => has_extents r c M); [exact H |]
  | _ => let T := type of st in loop (fun _ : T => True); [exact I |]
  end.

Ltac safe :=
  repeat first
    [ access
    | match goal with
      | |- within _ _ (bind (for_up _ _ _ ?st) _) => loop_of st
      | |- within _ _ (bind (for_down _ _ _ ?st) _) => loop_of st
      | |- within _ _ (for_up _ _ _ ?st) => last_loop_of st
      | |- within _ _ (for_down _ _ _ ?st) => last_loop_of st
      end ];
  try through.

Section PhaseOne.
Context {F : Type} {SF : Scalar F}.
Variable ok : fault -> Prop.

Lemma column_reflector_within (m n : nat) (k : Z) (A : cmatrix_t F) (b : rvector_t F) :
  has_extents m n A -> (0 <= k < Z.of_nat n)%Z -> n <= m ->
  (k < Z.of_nat (length b))%Z ->
  within ok (fun r => has_extents m n (fst r) /\ length (snd r) = length b)
    (column_reflector (Z.of_nat m) (Z.of_nat n) k A b).
Proof.
  intros HA Hk Hnm Hb. unfold column_reflector, column_norm2. safe.
Qed.

Lemma row_reflector_within (m n : nat) (k : Z) (A : cmatrix_t F) (c : rvector_t F) :
  has_extents m n A -> (0 <= k)%Z -> (k + 1 < Z.of_nat n)%Z -> n <= m ->
  (k + 1 < Z.of_nat (length c))%Z ->
  within ok (fun r => has_extents m n (fst r) /\ length (snd r) = length c)
    (row_reflector (Z.of_nat m) (Z.of_nat n) k A c).
Proof.
  intros HA Hk Hk1 Hnm Hc. unfold row_reflector, row_norm2. safe.
Qed.

(** The loop of lines 228-312 is left in its round [n - k]. *)
Lemma bidiagonalize_within (m n : nat) (A : cmatrix_t F) (b c : rvector_t F) :
  n <= m -> n <= length b -> n <= length c ->
  forall rounds k A0 b0 c0,
    has_extents m n A0 -> length b0 = length b -> length c0 = length c ->
    (0 <= k < Z.of_nat n)%Z -> (Z.of_nat n - k <= Z.of_nat rounds)%Z ->
    within ok (fun r => has_extents m n (fst (fst r)) /\
                        length (snd (fst r)) = length b /\
                        length (snd r) = length c)
      (bidiagonalize rounds (Z.of_nat m) (Z.of_nat n) k A0 b0 c0).
Proof.
  intros Hnm Hb Hc. induction rounds as [| rounds IH]; intros k A0 b0 c0 HA Hb0 Hc0 Hk Hr.
  - lia.
  - cbn [bidiagonalize].
    eapply within_bind;
      [apply column_reflector_within; [exact HA | lia | exact Hnm | lia] |].
    intros [A1 b1] [HA1 Hb1]. cbn [fst snd] in HA1, Hb1.
    destruct (Z.eqb_spec k (Z.of_nat n - 1)) as [-> | Hne].
    + cbn [within fst snd]. split; [exact HA1 | split; congruence].
    + eapply within_bind;
        [apply row_reflector_within; [exact HA1 | lia | lia | exact Hnm | lia] |].
      intros [A2 c2] [HA2 Hc2]. cbn [fst snd] in HA2, Hc2.
      apply IH; try assumption; try congruence; lia.
Qed.

End PhaseOne.

(** The state at the end of a body. *)
Ltac qr_through :=
  unfold qr_within in *;
  cbn [within carried fst snd qS qt qU qV] in *;
  intuition (try lia).

Section PhaseTwo.
Context {F : Type} {SF : Scalar F}.
Variable ok : fault -> Prop.
Hypothesis ok_before_S : ok (OutOfRange "S" (-1)).
Hypothesis ok_fuel : ok OutOfFuel.

Lemma rotate_columns_within (r c n : nat) (M : cmatrix_t F) (p q : Z) (cs sn : F) :
  has_extents r c M -> n <= r ->
  (0 <= p < Z.of_nat c)%Z -> (0 <= q < Z.of_nat c)%Z ->
  within ok (has_extents r c) (rotate_columns M (Z.of_nat n) p q cs sn).
Proof.
  intros HM Hn Hp Hq. unfold rotate_columns. safe.
Qed.

(** The scan leaves at an index of [0..l], and at one of [1..l] when it
    leaves without [jump]; below that it reads [S[-1]]. *)
Lemma scan_within (eps : F) (S t : rvector_t F) :
  forall count l,
    (0 <= l < Z.of_nat count)%Z ->
    (l < Z.of_nat (length t))%Z -> (l <= Z.of_nat (length S))%Z ->
    within ok (fun r => (0 <= fst r <= l)%Z /\ (snd r = false -> (1 <= fst r)%Z))
      (scan count l eps S t).
Proof.
  induction count as [| count IH]; intros l Hl Ht HS; [lia |].
  cbn [scan]. access. access; [through |].
  destruct (Z.eq_dec l 0) as [-> | Hne].
  - rewrite vget_out_of_range by lia. exact ok_before_S.
  - access. access; [through |].
    eapply within_weaken; [apply IH; lia |].
    intros [l' jump]. through.
Qed.

Lemma cancellation_within (m n : nat) (l k : Z) (eps : F) (st : qr_state) :
  qr_within m n st -> n <= m -> (1 <= l)%Z -> (l <= k < Z.of_nat n)%Z ->
  within ok (qr_within m n) (cancellation (Z.of_nat n) l k eps st).
Proof.
  intros Hst Hnm Hl Hk. unfold cancellation.
  eapply within_bind with (Q := fun s => qr_within m n (snd s)).
  - apply within_for_up_break with (Inv := fun s => qr_within m n (snd s));
      [exact Hst |].
    intros i [[cs sn] s] Hi (HS & Ht & HU & HV). cbn [snd] in HS, Ht, HU, HV.
    access. access. access.
    + qr_through.
    + access. access.
      eapply within_bind;
        [apply rotate_columns_within; [exact HU | exact Hnm | lia | lia] |].
      intros U' HU'.
      qr_through.
  - intros [[cs sn] s] Hs. exact Hs.
Qed.

Lemma chase_round_within (m n : nat) (i : Z)
  (acc : bool * F * F * F * F * qr_state) :
  qr_within m n (snd acc) -> n <= m -> (1 <= i < Z.of_nat n)%Z ->
  within ok (fun r => qr_within m n (snd (carried r))) (chase_round (Z.of_nat n) i acc).
Proof.
  destruct acc as [[[[[failed f] x] cs] sn] st].
  intros (HS & Ht & HU & HV) Hnm Hi. cbn [snd] in HS, Ht, HU, HV.
  unfold chase_round. access. access. access.
  eapply within_bind;
    [apply rotate_columns_within; [exact HV | lia | lia | lia] |].
  intros V' HV'.
  match goal with |- within _ _ (if ?c then _ else _) => destruct c end.
  - qr_through.
  - access.
    match goal with |- within _ _ (let '(_, _) := ?p in _) => destruct p as [cs' sn'] end.
    eapply within_bind;
      [apply rotate_columns_within; [exact HU | exact Hnm | lia | lia] |].
    intros U' HU'.
    qr_through.
Qed.

Lemma qr_step_within (m n : nat) (l k : Z) (w : F) (st : qr_state) :
  qr_within m n st -> n <= m -> (0 <= l < k)%Z -> (k < Z.of_nat n)%Z ->
  within ok (fun r => qr_within m n (snd r)) (qr_step (Z.of_nat n) l k w st).
Proof.
  intros Hst Hnm Hl Hk. pose proof Hst as (HS & Ht & HU & HV).
  unfold qr_step. access. access. access. access.
  eapply within_bind with (Q := fun s => qr_within m n (snd s)).
  - apply within_for_up_break with (Inv := fun s => qr_within m n (snd s));
      [exact Hst |].
    intros i s Hi Hs. apply chase_round_within; [exact Hs | exact Hnm | lia].
  - intros [[[[[failed f'] x'] cs'] sn'] s] (HS' & Ht' & HU' & HV').
    cbn [snd] in HS', Ht', HU', HV'.
    destruct failed.
    + qr_through.
    + access. access. access.
      qr_through.
Qed.

Lemma qr_iterate_within (m n : nat) (k : Z) (eps : F) :
  n <= m -> (0 <= k < Z.of_nat n)%Z ->
  forall fuel st,
    qr_within m n st ->
    within ok (fun r => qr_within m n (snd r)) (qr_iterate fuel (Z.of_nat n) k eps st).
Proof.
  intros Hnm Hk. induction fuel as [| fuel IH]; intros st Hst; cbn [qr_iterate].
  - exact ok_fuel.
  - pose proof Hst as (HS & Ht & HU & HV).
    eapply within_bind; [apply scan_within; lia |].
    intros [l jump] [Hl Hj]. cbn [fst snd] in Hl, Hj.
    eapply within_bind with (Q := qr_within m n).
    + destruct jump; [exact Hst |].
      apply cancellation_within; [exact Hst | exact Hnm | apply Hj; reflexivity | lia].
    + intros st1 Hst1. pose proof Hst1 as (HS1 & Ht1 & HU1 & HV1).
      access.
      destruct (Z.eqb_spec l k) as [E | Hne]; [exact Hst1 |].
      eapply within_bind;
        [apply qr_step_within; [exact Hst1 | exact Hnm | lia | lia] |].
      intros [outcome st2] Hst2. cbn [snd] in Hst2.
      destruct outcome; [apply IH; exact Hst2 | exact Hst2].
Qed.

Lemma sign_sweep_within (m n : nat) (k : Z) (w : F) (st : qr_state) :
  qr_within m n st -> (0 <= k < Z.of_nat n)%Z ->
  within ok (qr_within m n) (sign_sweep (Z.of_nat n) k w st).
Proof.
  intros Hst Hk. pose proof Hst as (HS & Ht & HU & HV).
  unfold sign_sweep.
  match goal with |- within _ _ (if ?c then _ else _) => destruct c end;
    [| exact Hst].
  access. safe.
  qr_through.
Qed.

Lemma diagonalize_within (m n : nat) (fuel : nat) (eps : F) (st : qr_state) :
  qr_within m n st -> n <= m ->
  within ok (fun r => qr_within m n (snd r))
    (diagonalize fuel (Z.of_nat n) eps st).
Proof.
  intros Hst Hnm. unfold diagonalize.
  apply within_for_down_break with (Inv := fun r => qr_within m n (snd r));
    [exact Hst |].
  intros k [outcome st0] Hk Hst0. cbn [snd] in Hst0.
  eapply within_bind; [apply qr_iterate_within; [exact Hnm | lia | exact Hst0] |].
  intros [[outcome1 w] st1] Hst1. cbn [snd] in Hst1.
  destruct outcome1; [| exact Hst1].
  eapply within_bind; [apply sign_sweep_within; [exact Hst1 | lia] |].
  intros st2 Hst2. exact Hst2.
Qed.

End PhaseTwo.

Section Whole.
Context {F : Type} {SF : Scalar F}.
Variable ok : fault -> Prop.
Hypothesis ok_before_S : ok (OutOfRange "S" (-1)).
Hypothesis ok_fuel : ok OutOfFuel.

Lemma splitting_tolerance_within (n : nat) (b c S t : rvector_t F) :
  n <= length b -> n <= length c -> n <= length S -> n <= length t ->
  within ok (fun r => length (snd (fst r)) = length S /\ length (snd r) = length t)
    (splitting_tolerance (Z.of_nat n) b c S t).
Proof.
  intros Hb Hc HS Ht. unfold splitting_tolerance.
  eapply within_bind
    with (Q := fun r => length (snd (fst r)) = length S /\ length (snd r) = length t).
  - apply within_for_up
      with (Inv := fun r => length (snd (fst r)) = length S /\ length (snd r) = length t);
      [split; reflexivity |].
    intros k [[eps S0] t0] Hk [HS0 Ht0]. cbn [fst snd] in HS0, Ht0.
    safe.
  - intros [[eps S0] t0] H. exact H.
Qed.

Lemma accumulate_U_within (m n : nat) (A : cmatrix_t F) (b : rvector_t F)
  (U : cmatrix_t F) :
  has_extents m n A -> has_extents m m U -> n <= m -> n <= length b ->
  within ok (has_extents m m) (accumulate_U (Z.of_nat m) (Z.of_nat n) A b U).
Proof.
  intros HA HU Hnm Hb. unfold accumulate_U. safe.
Qed.

Lemma accumulate_V_within (m n : nat) (A : cmatrix_t F) (c : rvector_t F)
  (V : cmatrix_t F) :
  has_extents m n A -> has_extents n n V -> n <= m -> n <= length c ->
  within ok (has_extents n n) (accumulate_V (Z.of_nat n) A c V).
Proof.
  intros HA HV Hnm Hc. unfold accumulate_V. safe.
Qed.

Lemma sort_singular_values_within (m n : nat) (st : qr_state) :
  qr_within m n st -> n <= m ->
  within ok (fun r => has_extents m m (snd (fst r)) /\ has_extents n n (snd r))
    (sort_singular_values (Z.of_nat n) (qS st) (qU st) (qV st)).
Proof.
  intros (HS & _ & HU & HV) Hnm.
  destruct (@sort_singular_values_returns _ _ n (qS st) (qU st) (qV st) m m n n)
    as (S' & U' & V' & E); try assumption; try lia.
  rewrite E. cbn [within fst snd]. split.
  - apply (proj1 (@sort_singular_values_keeps _ _ (has_extents m m)
                    (fun M i j x M' => @mset_has_extents _ _ m m M i j x M')
                    _ _ _ _ _ _ _ E)).
    exact HU.
  - apply (proj2 (@sort_singular_values_keeps _ _ (has_extents n n)
                    (fun M i j x M' => @mset_has_extents _ _ n n M i j x M')
                    _ _ _ _ _ _ _ E)).
    exact HV.
Qed.

(** [csvd] from line 227 on, for a matrix with no fewer rows than
    columns. *)
Lemma csvd_body_within (fuel : nat) (m n : nat) (A : cmatrix_t F) (S : rvector_t F)
  (size : nat) (transposed : bool) :
  has_extents m n A -> 1 <= n <= m -> n <= length S -> m <= size ->
  within ok (fun _ => True)
    (c <- vset "c" (repeat f0 size) 0 f0 ;;
     '(A, b, c) <- bidiagonalize (Datatypes.S (Z.to_nat (Z.of_nat n)))
                     (Z.of_nat m) (Z.of_nat n) 0 A (repeat f0 size) c ;;
     '(eps, S, t) <- splitting_tolerance (Z.of_nat n) b c S (repeat f0 size) ;;
     let U := identity (Z.to_nat (Z.of_nat m)) in
     let V := identity (Z.to_nat (Z.of_nat n)) in
     '(outcome, st) <- diagonalize fuel (Z.of_nat n) eps (QR S t U V) ;;
     match outcome with
     | FAILURE => Ok (FAILURE, Args A (qU st) (qS st) (qV st))
     | SUCCESS =>
         '(S, U, V) <- sort_singular_values (Z.of_nat n) (qS st) (qU st) (qV st) ;;
         U <- accumulate_U (Z.of_nat m) (Z.of_nat n) A b U ;;
         V <- accumulate_V (Z.of_nat n) A c V ;;
         let '(U, V) := if transposed then (V, U) else (U, V) in
         Ok (SUCCESS, Args A U S V)
     end).
Proof.
  intros HA Hn HS Hsize.
  eapply within_bind; [apply within_vset; rewrite repeat_length; lia |].
  intros c Hc. cbv beta in Hc. rewrite repeat_length in Hc.
  eapply within_bind.
  { apply (@bidiagonalize_within _ _ ok m n A (repeat f0 size) c);
      try rewrite repeat_length; try lia; try exact HA; try reflexivity. }
  intros [[A1 b1] c1] (HA1 & Hb1 & Hc1). cbn [fst snd] in HA1, Hb1, Hc1.
  rewrite repeat_length in Hb1.
  eapply within_bind.
  { apply splitting_tolerance_within; try rewrite repeat_length; lia. }
  intros [[eps S1] t1] [HS1 Ht1]. cbn [fst snd] in HS1, Ht1.
  rewrite repeat_length in Ht1. rewrite !Nat2Z.id. cbv zeta.
  eapply within_bind.
  { apply (@diagonalize_within _ _ ok ok_before_S ok_fuel m n); [| lia].
    unfold qr_within. cbn [qS qt qU qV].
    split; [lia | split; [lia | split; apply identity_has_extents]]. }
  intros [outcome st] Hst. cbn [snd] in Hst.
  destruct outcome; [| exact I].
  eapply within_bind; [apply sort_singular_values_within; [exact Hst | lia] |].
  intros [[S2 U2] V2] [HU2 HV2]. cbn [fst snd] in HU2, HV2.
  eapply within_bind; [apply accumulate_U_within; try assumption; lia |].
  intros U3 HU3.
  eapply within_bind; [apply (@accumulate_V_within m n); try assumption; lia |].
  intros V3 HV3. destruct transposed; exact I.
Qed.

Lemma csvd_within (fuel : nat) (A U : cmatrix_t F) (S : rvector_t F) (V : cmatrix_t F) :
  well_formed A -> 1 <= GetRows A -> 1 <= GetColumns A ->
  Nat.min (GetRows A) (GetColumns A) <= length S ->
  within ok (fun _ => True) (csvd fuel A U S V).
Proof.
  intros HW Hm Hn HS. unfold csvd.
  destruct (Z.ltb_spec (Z.of_nat (GetRows A)) (Z.of_nat (GetColumns A))) as [Hlt | Hge].
  - apply (@csvd_body_within fuel (GetColumns A) (GetRows A) (dagger A) S _ true).
    + unfold has_extents, dagger. cbn [mk_matrix GetRows GetColumns].
      split; [reflexivity | split; [reflexivity | apply well_formed_mk_matrix]].
    + lia.
    + lia.
    + lia.
  - apply (@csvd_body_within fuel (GetRows A) (GetColumns A) A S _ false).
    + split; [reflexivity | split; [reflexivity | exact HW]].
    + lia.
    + lia.
    + lia.
Qed.

End Whole.

Section Faults.
Context {F : Type} {SF : Scalar F}.

(** The first phase of [csvd], the loop of lines 228-312, stays within
    bounds and is left in its round [n]: on an [m] x [n] matrix with
    [1 <= n <= m] and two vectors of [n] entries or more it returns, with
    the extents of [A] and the lengths of [b] and [c] as they were. *)
Theorem first_phase_returns (m n rounds : nat) (A : cmatrix_t F) (b c : rvector_t F) :
  has_extents m n A -> 1 <= n -> n <= m ->
  n <= length b -> n <= length c -> n <= rounds ->
  exists A' b' c',
    bidiagonalize rounds (Z.of_nat m) (Z.of_nat n) 0 A b c = Ok (A', b', c') /\
    has_extents m n A' /\ length b' = length b /\ length c' = length c.
Proof.
  intros HA Hn Hnm Hb Hc Hr.
  pose proof (@bidiagonalize_within _ _ (fun _ => False) m n A b c Hnm Hb Hc
                rounds 0%Z A b c HA eq_refl eq_refl) as H.
  destruct (bidiagonalize rounds (Z.of_nat m) (Z.of_nat n) 0 A b c)
    as [[[A' b'] c'] | e].
  - exists A', b', c'. split; [reflexivity |]. apply H; lia.
  - exfalso. apply H; lia.
Qed.

(** The one index outside a container that [csvd] can use is [S[-1]], in
    the scan of line 349: on a matrix with a row and a column, and a
    vector [S] with an entry for each singular value, [csvd] returns
    unless it reads [S[-1]] or one of its [while (true)] of line 342 is
    still running when the fuel ends. *)
Theorem csvd_faults_only_before_S (fuel : nat) (A U : cmatrix_t F) (S : rvector_t F)
  (V : cmatrix_t F) (e : fault) :
  well_formed A -> 1 <= GetRows A -> 1 <= GetColumns A ->
  Nat.min (GetRows A) (GetColumns A) <= length S ->
  csvd fuel A U S V = Err e ->
  e = OutOfRange "S" (-1) \/ e = OutOfFuel.
Proof.
  intros HW Hm Hn HS E.
  pose proof (@csvd_within _ _ (fun e => e = OutOfRange "S" (-1) \/ e = OutOfFuel)
                (or_introl eq_refl) (or_intror eq_refl) fuel A U S V HW Hm Hn HS) as H.
  rewrite E in H. exact H.
Qed.

Lemma mat_scale_well_formed (M : cmatrix_t F) (x : F) :
  well_formed M -> well_formed (mat_scale M x).
Proof.
  intros [HL HF]. unfold well_formed, mat_scale. cbn [GetRows GetColumns elems].
  split; [rewrite length_map; exact HL |].
  apply Forall_map. revert HF. apply Forall_impl. intros row Hrow.
  rewrite length_map. exact Hrow.
Qed.

Lemma retry_loop_within (ok : fault -> Prop) (fuel : nat) :
  ok (OutOfRange "S" (-1)) -> ok OutOfFuel ->
  forall rounds times copied_A current_status args,
    well_formed copied_A -> 1 <= GetRows copied_A -> 1 <= GetColumns copied_A ->
    Nat.min (GetRows copied_A) (GetColumns copied_A) <= length (arg_S args) ->
    within ok (fun _ => True)
      (retry_loop rounds fuel times copied_A current_status args).
Proof.
  intros ok_S ok_fuel.
  induction rounds as [| rounds IH]; intros times copied_A current_status args HW Hm Hn HS;
    cbn [retry_loop]; [exact ok_fuel |].
  destruct (Nat.leb times NUM_SVD_TRIES && is_failure current_status); [| exact I].
  cbv zeta.
  pose proof (@csvd_within _ _ ok ok_S ok_fuel fuel (mat_scale copied_A mul_factor)
                (arg_U args) (arg_S args) (arg_V args)
                (mat_scale_well_formed mul_factor HW) Hm Hn HS) as H.
  destruct (csvd fuel (mat_scale copied_A mul_factor) (arg_U args) (arg_S args)
              (arg_V args)) as [[status1 args1] | e] eqn:E; cbn [bind].
  - apply IH; [apply mat_scale_well_formed; exact HW | exact Hm | exact Hn |].
    rewrite (csvd_keeps_length _ _ _ _ _ E). exact HS.
  - exact H.
Qed.

(** [qiskit_csvd_wrapper] on such an input returns or raises
    ["SVD failed"], unless a call of [csvd] reads [S[-1]] or runs out of
    fuel: the retries call [csvd] on a matrix of the extents of [A] and
    on the [S] that the call before left. *)
Theorem wrapper_faults_only_as_csvd (fuel : nat) (A U : cmatrix_t F) (S : rvector_t F)
  (V : cmatrix_t F) (e : fault) :
  well_formed A -> 1 <= GetRows A -> 1 <= GetColumns A ->
  Nat.min (GetRows A) (GetColumns A) <= length S ->
  qiskit_csvd_wrapper fuel A U S V = Err e ->
  e = RuntimeError "SVD failed" \/ e = OutOfRange "S" (-1) \/ e = OutOfFuel.
Proof.
  intros HW Hm Hn HS. unfold qiskit_csvd_wrapper.
  destruct (csvd fuel A U S V) as [[status0 args0] | e0] eqn:E0; cbn [bind].
  - destruct status0; [discriminate |].
    pose proof (@retry_loop_within
                  (fun e => e = RuntimeError "SVD failed" \/
                            e = OutOfRange "S" (-1) \/ e = OutOfFuel)
                  fuel (or_intror (or_introl eq_refl)) (or_intror (or_intror eq_refl))
                  (NUM_SVD_TRIES + 3) 0 A FAILURE args0 HW Hm Hn) as H.
    rewrite (csvd_keeps_length _ _ _ _ _ E0) in H. specialize (H HS).
    destruct (retry_loop (NUM_SVD_TRIES + 3) fuel 0 A FAILURE args0)
      as [[[[times copied_A] status1] args1] | e1]; cbn [bind].
    + destruct (Nat.eqb times NUM_SVD_TRIES); [| discriminate].
      intro E. injection E as <-. left. reflexivity.
    + intro E. injection E as <-. exact H.
  - intro E. injection E as <-.
    pose proof (@csvd_within _ _
                  (fun e => e = RuntimeError "SVD failed" \/
                            e = OutOfRange "S" (-1) \/ e = OutOfFuel)
                  (or_intror (or_introl eq_refl)) (or_intror (or_intror eq_refl))
                  fuel A U S V HW Hm Hn HS) as H.
    rewrite E0 in H. exact H.
Qed.

End Faults.

(** The first phase on the conjugate transpose of the 2x3 matrix, on
    binary64. *)
Lemma first_phase_returns_run :
  exists A' b' c',
    bidiagonalize 3 3 2 0 (dagger wide_2x3) [0; 0; 0]%float [0; 0; 0]%float
    = Ok (A', b', c') /\
    has_extents 3 2 A' /\ length b' = 3 /\ length c' = 3.
Proof.
  apply (@first_phase_returns float float_scalar 3 2 3 (dagger wide_2x3)
           [0; 0; 0]%float [0; 0; 0]%float).
  - split; [reflexivity | split; [reflexivity | apply well_formed_mk_matrix]].
  - lia.
  - lia.
  - cbn [length]. lia.
  - cbn [length]. lia.
  - lia.
Defined.

(** Two runs on binary64: the zero matrix of order 2, and the 2x3 matrix
    without fuel. *)
Lemma csvd_faults_only_before_S_run :
  (csvd 1 zero_2 no_matrix [0; 0]%float no_matrix = Err (OutOfRange "S" (-1)) /\
   csvd 0 wide_2x3 no_matrix [0; 0]%float no_matrix = Err OutOfFuel) /\
  (OutOfRange "S" (-1) = OutOfRange "S" (-1) \/ OutOfRange "S" (-1) = OutOfFuel).
Proof.
  assert (E : csvd 1 zero_2 no_matrix [0; 0]%float no_matrix
              = Err (OutOfRange "S" (-1))) by (vm_compute; reflexivity).
  split; [split; [exact E | vm_compute; reflexivity] |].
  apply (@csvd_faults_only_before_S float float_scalar 1 zero_2 no_matrix
           [0; 0]%float no_matrix).
  - split; [reflexivity | repeat constructor].
  - cbn. lia.
  - cbn. lia.
  - cbn. lia.
  - exact E.
Defined.

(** A run on binary64: on [[57, 228], [0, 0]] the wrapper raises. *)
Lemma wrapper_faults_only_as_csvd_run :
  qiskit_csvd_wrapper 60 rank_one_57 no_matrix [0; 0]%float no_matrix
  = Err (RuntimeError "SVD failed") /\
  (RuntimeError "SVD failed" = RuntimeError "SVD failed" \/
   RuntimeError "SVD failed" = OutOfRange "S" (-1) \/
   RuntimeError "SVD failed" = OutOfFuel).
Proof.
  assert (E : qiskit_csvd_wrapper 60 rank_one_57 no_matrix [0; 0]%float no_matrix
              = Err (RuntimeError "SVD failed")) by (vm_compute; reflexivity).
  split; [exact E |].
  apply (@wrapper_faults_only_as_csvd float float_scalar 60 rank_one_57 no_matrix
           [0; 0]%float no_matrix).
  - split; [reflexivity | repeat constructor].
  - cbn. lia.
  - cbn. lia.
  - cbn. lia.
  - exact E.
Defined.
